(** * Type-level utilities of react-redux-typescript, embedded in Rocq

    The repository is a catalogue of TypeScript type aliases
    ([mapped-types.ts], [utility-types.ts]) and two runtime guards.  A type
    alias is a function from types to types that the compiler evaluates, so
    each alias is embedded here as a Rocq function over a model of the
    TypeScript types it is applied to:

    - a type is the list of the members of a union ([ty]); [never] is the
      empty union and a type that is not a union has one member;
    - an object type is a finite map from property names to properties
      (modifiers and type), as property order is no part of a type;
    - [A extends B ? X : Y] with a naked type parameter [A] is evaluated
      member by member ([distribute]);
    - [keyof], indexed access [T[K]], [&] and mapped types are the
      compiler's operators, modelled once and used by every alias.

    The compiler's rules are those of TypeScript with [strict] on and a
    standard library that gives arrays their symbol-keyed members (es2015
    or later).  Limits of the fragment, fixed here once: the keys of a
    record are string literals (no string index signatures, no symbol
    keys); the members that the standard library gives to strings, arrays
    and functions ([length], methods) are not spelled out, so an array type
    is known by its mutability and element type only, and so are the two
    object types that the deep transforms make of arrays: an interface
    that extends [Array<X>] or [ReadonlyArray<X>] without adding a member
    ([AIface]), and what a mapped type makes of such an interface
    ([AIndexed]); tuples, generics, overloads, [any] and [unknown] as types
    of their own are left out ([any] occurs in the sources only inside three
    patterns, see [extends_function], [extends_any_array],
    [extends_object], and [infer_unary_return]); union members are kept in
    a list without merging duplicates; intersections are kept unreduced. *)

From Stdlib Require Import ZArith Floats.SpecFloat.
From stdpp Require Import gmap strings list fin_maps.

Set Warnings "-register-all".

(** JavaScript numbers are IEEE 754 doubles: [spec_float]. *)
#[global] Instance spec_float_eq_dec : EqDecision spec_float.
Proof. solve_decision. Defined.

(** ** Types *)

(** A property of an object type.  [p_type] is the type read from the
    property: for an optional property it contains [undefined], as the
    compiler (strictNullChecks) has it. *)
Record prop (A : Type) := MkProp {
  p_readonly : bool;
  p_optional : bool;
  p_type : A
}.
Arguments MkProp {A}.
Arguments p_readonly {A}.
Arguments p_optional {A}.
Arguments p_type {A}.

(** A parameter of a function type, with its declared type. *)
Record param (A : Type) := MkParam {
  a_optional : bool;
  a_type : A
}.
Arguments MkParam {A}.
Arguments a_optional {A}.
Arguments a_type {A}.

(** The members a union can have.

    [AArr ro e] is [Array<e>], and [ReadonlyArray<e>] when [ro] is set.

    [AIface ro e] is an interface with an empty body that extends
    [Array<e>], or [ReadonlyArray<e>] when [ro] is set, as
    [_DeepReadonlyArray<T>] is.  It has the members of the array it extends
    and is assignable to it and from it, but it is not an array type for
    the compiler: a mapped type treats it as any other object type.

    [AIndexed ro e] is what a mapped type makes of such an interface: an
    anonymous object type with the index signature [[n: number]: e],
    read-only when [ro] is set, and with the mapped named members of the
    array save the symbol-keyed ones, which [keyof] does not list. *)
Inductive atom :=
| ANull
| AUndefined
| AVoid
| AString
| ANumber
| ASymbol
| AStrLit (s : string)
| ANumLit (x : spec_float)
| ABoolLit (b : bool)
| AFun (params : list (param (list atom))) (rest : option (list atom))
       (ret : list atom)
| AArr (readonly : bool) (elem : list atom)
| AIface (readonly : bool) (elem : list atom)
| AIndexed (readonly : bool) (elem : list atom)
| AObj (props : gmap string (prop (list atom)))
| AInter (parts : list atom).

Abbreviation ty := (list atom).

Definition never : ty := [].
Definition TNull : ty := [ANull].
Definition TUndefined : ty := [AUndefined].
Definition TVoid : ty := [AVoid].
Definition TString : ty := [AString].
Definition TNumber : ty := [ANumber].
Definition TSymbol : ty := [ASymbol].
(** [boolean] is the union [true | false]. *)
Definition TBoolean : ty := [ABoolLit true; ABoolLit false].
Definition TLit (s : string) : ty := [AStrLit s].
Definition TObj (m : gmap string (prop ty)) : ty := [AObj m].
Definition TArray (T : ty) : ty := [AArr false T].
Definition TReadonlyArray (T : ty) : ty := [AArr true T].

(** [A | B] *)
Definition union (A B : ty) : ty := A ++ B.

Definition is_undefined (a : atom) : bool :=
  match a with AUndefined => true | _ => false end.
Definition is_undefined_or_void (a : atom) : bool :=
  match a with AUndefined | AVoid => true | _ => false end.

(** The compiler's [getOptionalType]: add [undefined] unless [undefined]
    or [void] is a member already. *)
Definition add_undefined (T : ty) : ty :=
  if existsb is_undefined_or_void T then T else T ++ [AUndefined].
(** The compiler's [getTypeWithFacts (NEUndefined)]: [undefined] and [void]
    are the members that can be [undefined]. *)
Definition remove_undefined (T : ty) : ty :=
  List.filter (fun a => negb (is_undefined_or_void a)) T.

(** A required and an optional property as written in a type literal. *)
Definition required (T : ty) : prop ty := MkProp false false T.
Definition optional (T : ty) : prop ty := MkProp false true (add_undefined T).

(** Nesting depth of object, array, function and intersection types; it
    bounds the recursion of the recursive aliases and of assignability. *)
Fixpoint depth (a : atom) : nat :=
  match a with
  | AFun ps r o =>
      S (foldr (fun p acc => foldr (fun x acc => depth x `max` acc) 0 (a_type p) `max` acc)
           (match r with
            | Some T => foldr (fun x acc => depth x `max` acc) 0 T
            | None => 0
            end `max` foldr (fun x acc => depth x `max` acc) 0 o) ps)
  | AArr _ e | AIface _ e | AIndexed _ e =>
      S (foldr (fun x acc => depth x `max` acc) 0 e)
  | AObj m =>
      S (map_fold (fun _ p acc =>
                     foldr (fun x acc => depth x `max` acc) 0 (p_type p) `max` acc) 0 m)
  | AInter ps => S (foldr (fun x acc => depth x `max` acc) 0 ps)
  | _ => 0
  end.

Definition ty_depth (T : ty) : nat := foldr (fun x acc => depth x `max` acc) 0 T.

(** ** Assignability *)

Definition map_all {A} (f : string -> A -> bool) (m : gmap string A) : bool :=
  map_fold (fun k v acc => f k v && acc) true m.

(** The type read from a parameter. *)
Definition param_type (p : param ty) : ty :=
  if a_optional p then add_undefined (a_type p) else a_type p.

(** [getMinArgumentCount]: the parameters up to the last required one. *)
Fixpoint min_args (ps : list (param ty)) : nat :=
  match ps with
  | [] => 0
  | p :: ps' =>
      match min_args ps' with
      | 0 => if a_optional p then 0 else 1
      | S k => S (S k)
      end
  end.

(** [tryGetTypeAtPosition]: the type of the [i]-th parameter, the element
    type of the rest parameter beyond the declared ones. *)
Definition param_at (ps : list (param ty)) (rest : option ty) (i : nat)
  : option ty :=
  match ps !! i with
  | Some p => Some (param_type p)
  | None => rest
  end.

Definition param_count (ps : list (param ty)) (rest : option ty) : nat :=
  length ps + match rest with Some _ => 1 | None => 0 end.

Definition is_void (T : ty) : bool :=
  match T with [AVoid] => true | _ => false end.

(** [assignable n s t]: member [s] is assignable to member [t]
    (strictNullChecks, strictFunctionTypes).  [n] bounds the nesting that is
    inspected; [extends] below supplies enough of it.

    An array and an interface that extends an array have the same members
    and are related as two arrays are.  The named members of an [AIndexed]
    are mapped from those of an array and are not spelled out, so whatever
    has an element type is assignable to it when the element types are
    related; an [AIndexed] lacks the symbol-keyed members of an array and
    is assignable to no array and to no interface of one. *)
Fixpoint assignable (n : nat) (s t : atom) : bool :=
  match n with
  | 0 => false
  | S n =>
      let sub (X Y : ty) := forallb (fun a => existsb (assignable n a) Y) X in
      match s, t with
      | AInter ss, AInter ts =>
          forallb (fun t' => existsb (fun s' => assignable n s' t') ss) ts
      | _, AInter ts => forallb (assignable n s) ts
      | AInter ss, _ => existsb (fun s' => assignable n s' t) ss
      | ANull, ANull => true
      | AUndefined, AUndefined => true
      | AUndefined, AVoid => true
      | AVoid, AVoid => true
      | AString, AString => true
      | ANumber, ANumber => true
      | ASymbol, ASymbol => true
      | AStrLit _, AString => true
      | AStrLit x, AStrLit y => bool_decide (x = y)
      | ANumLit _, ANumber => true
      | ANumLit x, ANumLit y => bool_decide (x = y)
      | ABoolLit x, ABoolLit y => bool_decide (x = y)
      | (AArr r1 e1 | AIface r1 e1), (AArr r2 e2 | AIface r2 e2) =>
          implb r1 r2 && sub e1 e2
      | (AArr _ e1 | AIface _ e1 | AIndexed _ e1), AIndexed _ e2 => sub e1 e2
      | AFun ps1 r1 o1, AFun ps2 r2 o2 =>
          (match r2 with
           | Some _ => true
           | None => bool_decide (min_args ps1 <= length ps2)
           end)
          && forallb (fun i =>
                        match param_at ps1 r1 i, param_at ps2 r2 i with
                        | Some X, Some Y => sub Y X
                        | _, _ => true
                        end)
               (seq 0 (param_count ps1 r1 `max` param_count ps2 r2))
          && (is_void o2 || sub o1 o2)
      | AObj m1, AObj m2 =>
          map_all (fun k q =>
                     match m1 !! k with
                     | Some p =>
                         implb (p_optional p) (p_optional q)
                         && sub (p_type p) (p_type q)
                     | None => p_optional q
                     end) m2
      | (AString | ANumber | ASymbol | AStrLit _ | ANumLit _ | ABoolLit _
         | AFun _ _ _ | AArr _ _ | AIface _ _ | AIndexed _ _), AObj m2 =>
          bool_decide (m2 = ∅)
      | _, _ => false
      end
  end.

(** [a extends B] for one member [a] of the checked type. *)
Definition extends (a : atom) (B : ty) : bool :=
  existsb (fun b => assignable (S (depth a + depth b)) a b) B.

(** A conditional type whose checked type is a naked type parameter is
    applied to each member of a union and the results are united. *)
Definition distribute (f : atom -> ty) (T : ty) : ty := flat_map f T.

(** [T] is assignable to [U], member by member. *)
Definition subtype (T U : ty) : bool := forallb (fun a => extends a U) T.

(** Two types are equivalent when each is assignable to the other. *)
Definition equivalent (T U : ty) : Prop :=
  subtype T U = true /\ subtype U T = true.

(** The three patterns with [any] that the aliases test against. *)

(** [T extends (...args: any[]) => any] *)
Fixpoint extends_function (t : atom) : bool :=
  match t with
  | AFun _ _ _ => true
  | AInter ps => existsb extends_function ps
  | _ => false
  end.

(** [T extends any[]]: a [ReadonlyArray] is not assignable to an array,
    and neither is an interface of one, nor an [AIndexed]. *)
Fixpoint extends_any_array (t : atom) : bool :=
  match t with
  | AArr ro _ | AIface ro _ => negb ro
  | AInter ps => existsb extends_any_array ps
  | _ => false
  end.

(** [T extends object] *)
Fixpoint extends_object (t : atom) : bool :=
  match t with
  | AFun _ _ _ | AArr _ _ | AIface _ _ | AIndexed _ _ | AObj _ => true
  | AInter ps => existsb extends_object ps
  | _ => false
  end.

(** ** Properties, [keyof], indexed access, intersection *)

Definition parts_of (a : atom) : list atom :=
  match a with AInter ps => ps | _ => [a] end.

(** [X & Y]: distributes over the members of both and is kept unreduced. *)
Definition intersect (X Y : ty) : ty :=
  flat_map (fun x => map (fun y => AInter (parts_of x ++ parts_of y)) Y) X.

(** A property of an intersection is optional (read-only) when it is so in
    every constituent that has it; its type is the intersection. *)
Definition prop_inter (p q : prop ty) : option (prop ty) :=
  Some (MkProp (p_readonly p && p_readonly q) (p_optional p && p_optional q)
          (intersect (p_type p) (p_type q))).

(** A property of a union is optional (read-only) when it is so in some
    member; its type is the union. *)
Definition prop_union (p q : prop ty) : prop ty :=
  MkProp (p_readonly p || p_readonly q) (p_optional p || p_optional q)
    (union (p_type p) (p_type q)).

(** The named properties of a member. *)
Fixpoint props_of (a : atom) : gmap string (prop ty) :=
  match a with
  | AObj m => m
  | AInter ps => foldr (fun p acc => union_with prop_inter (props_of p) acc) ∅ ps
  | _ => ∅
  end.

Definition opt_inter (X Y : option ty) : option ty :=
  match X, Y with
  | Some x, Some y => Some (intersect x y)
  | Some x, None => Some x
  | None, _ => Y
  end.

(** The element type of an array member, [T[number]]. *)
Fixpoint elem_type (a : atom) : option ty :=
  match a with
  | AArr _ e | AIface _ e | AIndexed _ e => Some e
  | AInter ps => foldr (fun p acc => opt_inter (elem_type p) acc) None ps
  | _ => None
  end.

(** The property [k] of [T]: every member of a union must have it. *)
Fixpoint ty_prop (T : ty) (k : string) : option (prop ty) :=
  match T with
  | [] => None
  | [a] => props_of a !! k
  | a :: T' =>
      match props_of a !! k, ty_prop T' k with
      | Some p, Some q => Some (prop_union p q)
      | _, _ => None
      end
  end.

Definition atom_keys (a : atom) : list string := (map_to_list (props_of a)).*1.
Definition has_key (a : atom) (k : string) : bool :=
  bool_decide (is_Some (props_of a !! k)).

(** [keyof T]: the keys common to every member of a union;
    [keyof never] is [string | number | symbol]. *)
Definition keyof (T : ty) : ty :=
  match T with
  | [] => [AString; ANumber; ASymbol]
  | a :: T' =>
      AStrLit <$> List.filter (fun k => forallb (fun b => has_key b k) T') (atom_keys a)
  end.

(** [T[K]] *)
Definition index (T K : ty) : ty :=
  flat_map (fun k =>
              match k with
              | AStrLit s => from_option p_type never (ty_prop T s)
              | ANumber => flat_map (fun a => default never (elem_type a)) T
              | _ => never
              end) K.

(** The library's [Pick<T, K> = { [P in K]: T[P] }]: not distributive in
    [T]; as [K extends keyof T], the modifiers of [T]'s properties are
    kept. *)
Definition pick_props (T K : ty) : gmap string (prop ty) :=
  list_to_map
    (omap (fun k => match k with
                    | AStrLit s => (fun p => (s, p)) <$> ty_prop T s
                    | _ => None
                    end) K).

Definition Pick (T K : ty) : ty := TObj (pick_props T K).

(** Modifiers of a mapped type. *)
Inductive ro_mod := RoKeep | RoAdd.
Inductive opt_mod := OptKeep | OptRemove.

Definition apply_ro (rm : ro_mod) (ro : bool) : bool :=
  match rm with RoKeep => ro | RoAdd => true end.
Definition apply_opt (om : opt_mod) (opt : bool) : bool :=
  match om with OptKeep => opt | OptRemove => false end.

(** The property a mapped type makes of property [p] when its template
    yields [X] ([getTypeOfMappedSymbol]). *)
Definition map_prop (rm : ro_mod) (om : opt_mod) (p : prop ty) (X : ty) : prop ty :=
  let opt := apply_opt om (p_optional p) in
  MkProp (apply_ro rm (p_readonly p)) opt
    (if opt then add_undefined X
     else if p_optional p then remove_undefined X
     else X).

(** The element type a mapped type makes of an array's when its template
    yields [X] ([instantiateMappedArrayType]). *)
Definition map_elem (om : opt_mod) (X : ty) : ty :=
  match om with
  | OptRemove => remove_undefined X
  | OptKeep => X
  end.

(** The index signature a mapped type makes of an index signature
    ([resolveMappedTypeMembers]): it is read-only when the mapped type has
    the [readonly] modifier, and its type is what the template yields. *)
Definition index_ro (rm : ro_mod) : bool :=
  match rm with RoKeep => false | RoAdd => true end.

(** A homomorphic mapped type [{ [P in keyof T]: f P }] with modifiers,
    instantiated at one member [t]: a primitive is left as it is, an array
    is mapped to an array of the mapped element type
    ([instantiateMappedType] asks [isArrayType], which holds of [Array] and
    [ReadonlyArray] themselves only), anything else to the object type of
    its mapped members. *)
Definition mapped (rm : ro_mod) (om : opt_mod) (f : atom -> ty) (t : atom) : atom :=
  match t with
  | ANull | AUndefined | AVoid | AString | ANumber | ASymbol
  | AStrLit _ | ANumLit _ | ABoolLit _ => t
  | AArr ro _ => AArr (apply_ro rm ro) (map_elem om (f ANumber))
  | AIface _ _ | AIndexed _ _ => AIndexed (index_ro rm) (f ANumber)
  | _ => AObj (map_imap (fun k p => Some (map_prop rm om p (f (AStrLit k)))) (props_of t))
  end.

(** ** mapped-types.ts *)

(** [SetIntersection<A, B> = A extends B ? A : never] *)
Definition SetIntersection (A B : ty) : ty :=
  distribute (fun a => if extends a B then [a] else never) A.

(** [SetDifference<A, B> = A extends B ? never : A] *)
Definition SetDifference (A B : ty) : ty :=
  distribute (fun a => if extends a B then never else [a]) A.

(** [SetComplement<A, A1 extends A> = SetDifference<A, A1>] *)
Definition SetComplement (A A1 : ty) : ty := SetDifference A A1.

(** [SymmetricDifference<A, B> = SetDifference<A | B, A & B>] *)
Definition SymmetricDifference (A B : ty) : ty :=
  SetDifference (union A B) (intersect A B).

(** [NonUndefined<A> = A extends undefined ? never : A] *)
Definition NonUndefined (A : ty) : ty :=
  distribute (fun a => if extends a TUndefined then never else [a]) A.

(** The library's [NonNullable<T> = T extends null | undefined ? never : T]. *)
Definition NonNullable (T : ty) : ty :=
  distribute (fun t => if extends t (union TNull TUndefined) then never else [t]) T.

(** [Omit<T, K> = T extends any ? Pick<T, SetDifference<keyof T, K>> : never] *)
Definition Omit (T K : ty) : ty :=
  distribute (fun t => Pick [t] (SetDifference (keyof [t]) K)) T.

(** [Intersection<T, U> =
     T extends any ? Pick<T, SetIntersection<keyof T, keyof U>> : never] *)
Definition Intersection (T U : ty) : ty :=
  distribute (fun t => Pick [t] (SetIntersection (keyof [t]) (keyof U))) T.

(** [Diff<T, U> = Pick<T, SetDifference<keyof T, keyof U>>] *)
Definition Diff (T U : ty) : ty :=
  Pick T (SetDifference (keyof T) (keyof U)).

(** [Subtract<T extends T1, T1> = Pick<T, SetComplement<keyof T, keyof T1>>] *)
Definition Subtract (T T1 : ty) : ty :=
  Pick T (SetComplement (keyof T) (keyof T1)).

(** [Overwrite<T, U, I = Diff<T, U> & Intersection<U, T>> = Pick<I, keyof I>] *)
Definition Overwrite (T U : ty) : ty :=
  let I := intersect (Diff T U) (Intersection U T) in
  Pick I (keyof I).

(** [Assign<T, U, I = Diff<T, U> & Intersection<U, T> & Diff<U, T>>
     = Pick<I, keyof I>] *)
Definition Assign (T U : ty) : ty :=
  let I := intersect (intersect (Diff T U) (Intersection U T)) (Diff U T) in
  Pick I (keyof I).

(** The fixtures of the test files. *)
Module Fixtures.

(** [{ name: string; age: number; visible: boolean }] *)
Definition Props : ty :=
  TObj (<["name" := required TString]>
        (<["age" := required TNumber]>
         (<["visible" := required TBoolean]> ∅))).

(** [{ age: number }] *)
Definition DefaultProps : ty := TObj (<["age" := required TNumber]> ∅).

(** [{ age: string; other: string }] *)
Definition NewProps : ty :=
  TObj (<["age" := required TString]> (<["other" := required TString]> ∅)).

(** [{ name: string; setName: (name: string) => void }] *)
Definition MixedProps : ty :=
  TObj (<["name" := required TString]>
        (<["setName" :=
             required [AFun [MkParam false TString] None TVoid]]> ∅)).

(** ['1' | '2' | '3'] and ['2' | '3'] *)
Definition OneTwoThree : ty := [AStrLit "1"; AStrLit "2"; AStrLit "3"].
Definition TwoThree : ty := [AStrLit "2"; AStrLit "3"].

(** [(value: number) => string] *)
Definition NumberToString : atom := AFun [MkParam false TNumber] None TString.

(** [{ first: { second: (value: number) => string } }] *)
Definition NestedFunctionProps : ty :=
  TObj (<["first" :=
            required (TObj (<["second" := required [NumberToString]]> ∅))]> ∅).

(** [{ first?: null | { second?: (value: number) => string } }] *)
Definition NullableNestedFunctionProps : ty :=
  TObj (<["first" :=
            optional
              (union TNull
                 (TObj (<["second" := optional [NumberToString]]> ∅)))]> ∅).

(** [{ first?: { second?: Array<{ name?: string | null } | undefined> } }] *)
Definition NestedArrayProps : ty :=
  TObj
    (<["first" :=
         optional
           (TObj
              (<["second" :=
                   optional
                     (TArray
                        (union
                           (TObj (<["name" := optional (union TString TNull)]> ∅))
                           TUndefined))]> ∅))]> ∅).

(** [(amount: number) => { type: 'ADD'; payload: number }] *)
Definition AddFn : atom :=
  AFun [MkParam false TNumber] None
    (TObj (<["type" := required (TLit "ADD")]>
           (<["payload" := required TNumber]> ∅))).


(** [{ items: string[] }] *)
Definition ItemsProps : ty :=
  TObj (<["items" := required (TArray TString)]> ∅).

End Fixtures.

(** [DeepReadonly<T>] and its two handlers.  The alias is recursive; the
    recursion follows the nesting of [T], so [DeepReadonly_rec] unfolds it
    [n] levels deep and [DeepReadonly] unfolds it deeper than [T] is nested,
    beyond which the result no longer changes ([deep_stable]).  The handlers
    take the alias they recurse to as an argument. *)

(** [interface _DeepReadonlyArray<T> extends ReadonlyArray<DeepReadonly<T>> {}] *)
Definition _DeepReadonlyArray (DeepReadonly : ty -> ty) (T : ty) : atom :=
  AIface true (DeepReadonly T).

(** [_DeepReadonlyObject<T> = { readonly [P in keyof T]: DeepReadonly<T[P]> }] *)
Definition _DeepReadonlyObject (DeepReadonly : ty -> ty) (T : atom) : atom :=
  mapped RoAdd OptKeep (fun P => DeepReadonly (index [T] [P])) T.

(** [DeepReadonly<T> = T extends (...args: any[]) => any ? T
       : T extends any[] ? _DeepReadonlyArray<T[number]>
       : T extends object ? _DeepReadonlyObject<T> : T] *)
Fixpoint DeepReadonly_rec (n : nat) (T : ty) : ty :=
  match n with
  | 0 => T
  | S n =>
      distribute (fun t =>
        if extends_function t then [t]
        else if extends_any_array t
        then [_DeepReadonlyArray (DeepReadonly_rec n) (index [t] TNumber)]
        else if extends_object t
        then [_DeepReadonlyObject (DeepReadonly_rec n) t]
        else [t]) T
  end.

Definition DeepReadonly (T : ty) : ty := DeepReadonly_rec (S (ty_depth T)) T.

(** [interface _DeepRequiredArray<T>
       extends Array<DeepRequired<NonUndefined<T>>> {}] *)
Definition _DeepRequiredArray (DeepRequired : ty -> ty) (T : ty) : atom :=
  AIface false (DeepRequired (NonUndefined T)).

(** [_DeepRequiredObject<T> =
       { [P in keyof T]-?: DeepRequired<NonUndefined<T[P]>> }] *)
Definition _DeepRequiredObject (DeepRequired : ty -> ty) (T : atom) : atom :=
  mapped RoKeep OptRemove (fun P => DeepRequired (NonUndefined (index [T] [P]))) T.

(** [DeepRequired<T> = T extends (...args: any[]) => any ? T
       : T extends any[] ? _DeepRequiredArray<T[number]>
       : T extends object ? _DeepRequiredObject<T> : T] *)
Fixpoint DeepRequired_rec (n : nat) (T : ty) : ty :=
  match n with
  | 0 => T
  | S n =>
      distribute (fun t =>
        if extends_function t then [t]
        else if extends_any_array t
        then [_DeepRequiredArray (DeepRequired_rec n) (index [t] TNumber)]
        else if extends_object t
        then [_DeepRequiredObject (DeepRequired_rec n) t]
        else [t]) T
  end.

Definition DeepRequired (T : ty) : ty := DeepRequired_rec (S (ty_depth T)) T.

(** [interface _DeepNonNullableArray<T>
       extends Array<DeepNonNullable<NonNullable<T>>> {}] *)
Definition _DeepNonNullableArray (DeepNonNullable : ty -> ty) (T : ty) : atom :=
  AIface false (DeepNonNullable (NonNullable T)).

(** [_DeepNonNullableObject<T> =
       { [P in keyof T]-?: DeepNonNullable<NonNullable<T[P]>> }] *)
Definition _DeepNonNullableObject (DeepNonNullable : ty -> ty) (T : atom) : atom :=
  mapped RoKeep OptRemove (fun P => DeepNonNullable (NonNullable (index [T] [P]))) T.

(** [DeepNonNullable<T> = T extends (...args: any[]) => any ? T
       : T extends any[] ? _DeepNonNullableArray<T[number]>
       : T extends object ? _DeepNonNullableObject<T> : T] *)
Fixpoint DeepNonNullable_rec (n : nat) (T : ty) : ty :=
  match n with
  | 0 => T
  | S n =>
      distribute (fun t =>
        if extends_function t then [t]
        else if extends_any_array t
        then [_DeepNonNullableArray (DeepNonNullable_rec n) (index [t] TNumber)]
        else if extends_object t
        then [_DeepNonNullableObject (DeepNonNullable_rec n) t]
        else [t]) T
  end.

Definition DeepNonNullable (T : ty) : ty :=
  DeepNonNullable_rec (S (ty_depth T)) T.

(** ** utility-types.ts

    [$] is no letter of a Rocq name: [$Call] is [dollar_Call], and so
    on. *)

(** [$Keys<T> = keyof T] *)
Definition dollar_Keys (T : ty) : ty := keyof T.

(** [$Values<T> = T[keyof T]] *)
Definition dollar_Values (T : ty) : ty := index T (keyof T).

(** [$ReadOnly<T> = DeepReadonly<T>] *)
Definition dollar_ReadOnly (T : ty) : ty := DeepReadonly T.

(** [$PropertyType<T, K extends keyof T> = T[K]] *)
Definition dollar_PropertyType (T K : ty) : ty := index T K.

(** [$ElementType<T, K extends keyof T | number> = T[K]] *)
Definition dollar_ElementType (T K : ty) : ty := index T K.

(** [$NonMaybeType<T> = NonNullable<T>] *)
Definition dollar_NonMaybeType (T : ty) : ty := NonNullable T.

(** [$Diff<T extends U, U> = Pick<T, SetComplement<keyof T, keyof U>>] *)
Definition dollar_Diff (T U : ty) : ty :=
  Pick T (SetComplement (keyof T) (keyof U)).


(** [Fn extends (arg: any) => infer RT]: a function type is assignable to
    the one-parameter pattern when it requires at most one argument; every
    parameter type is related to [any], and [RT] is inferred as the return
    type. *)
Definition infer_unary_return (fn : atom) : option ty :=
  match fn with
  | AFun ps _ ret => if bool_decide (min_args ps <= 1) then Some ret else None
  | _ => None
  end.

(** [$Call<Fn extends (...args: any[]) => any> =
       Fn extends (arg: any) => infer RT ? RT : never] *)
Definition dollar_Call (Fn : ty) : ty :=
  distribute (fun fn =>
                match infer_unary_return fn with
                | Some RT => RT
                | None => never
                end) Fn.

(** ** Values and the runtime guards *)

Inductive value :=
| VUndefined
| VNull
| VBool (b : bool)
| VNum (x : spec_float)
| VStr (s : string)
| VSym (id : positive)
| VFun (sig : atom)
| VArr (items : list value)
| VObj (fields : gmap string value).

(** [has_type v a]: the value [v] inhabits the member [a].  A function value
    carries its signature. *)
Fixpoint has_type (v : value) : atom -> bool :=
  fix go (a : atom) : bool :=
    match a with
    | ANull => match v with VNull => true | _ => false end
    | AUndefined | AVoid => match v with VUndefined => true | _ => false end
    | AString => match v with VStr _ => true | _ => false end
    | ANumber => match v with VNum _ => true | _ => false end
    | ASymbol => match v with VSym _ => true | _ => false end
    | AStrLit s => match v with VStr s' => bool_decide (s' = s) | _ => false end
    | ANumLit x => match v with VNum y => SFeqb y x | _ => false end
    | ABoolLit b => match v with VBool b' => bool_decide (b' = b) | _ => false end
    | AFun _ _ _ =>
        match v with
        | VFun sig => assignable (S (depth sig + depth a)) sig a
        | _ => false
        end
    | AArr _ e | AIface _ e | AIndexed _ e =>
        match v with
        | VArr items => forallb (fun v' => existsb (has_type v') e) items
        | _ => false
        end
    | AObj m =>
        match v with
        | VObj fields =>
            let chk := has_type <$> fields in
            map_all (fun k p =>
                       match chk !! k with
                       | Some f => existsb f (p_type p)
                       | None => p_optional p
                       end) m
        | VUndefined | VNull => false
        | _ => bool_decide (m = ∅)
        end
    | AInter ps => forallb go ps
    end.

Definition in_type (v : value) (T : ty) : bool := existsb (has_type v) T.

(** Modelled from the spec: the type [Primitive] of
    [aliases-and-guards.ts], which is not among the sources; the glossary
    has it as one of boolean, number, string, null, undefined, symbol. *)
Definition Primitive : ty :=
  union TString
    (union TNumber (union TBoolean (union TSymbol (union TNull TUndefined)))).

(** Modelled from the spec: the type [Falsy] of [aliases-and-guards.ts],
    which is not among the sources; the glossary has it as one of false,
    empty string, numeric zero, null, undefined. *)
Definition Falsy : ty :=
  [ABoolLit false; AStrLit EmptyString; ANumLit (S754_zero false); ANull;
   AUndefined].

Inductive runtime_class :=
| CBoolean | CNumber | CString | CNullish | CSymbol | CFunction | CObject.

Definition class_of (v : value) : runtime_class :=
  match v with
  | VUndefined | VNull => CNullish
  | VBool _ => CBoolean
  | VNum _ => CNumber
  | VStr _ => CString
  | VSym _ => CSymbol
  | VFun _ => CFunction
  | VArr _ | VObj _ => CObject
  end.

(** Modelled from the spec: [aliases-and-guards.ts] is not among the
    sources, only its tests are.  The spec has [isPrimitive] return true iff
    the value's runtime class is one of boolean, number, string,
    null-or-undefined, symbol. *)
Definition isPrimitive (val : value) : bool :=
  match class_of val with
  | CBoolean | CNumber | CString | CNullish | CSymbol => true
  | CFunction | CObject => false
  end.

(** Modelled from the spec: [aliases-and-guards.ts] is not among the
    sources, only its tests are.  The spec has [isFalsy] return true iff the
    value is one of false, the empty string, numeric zero, null,
    undefined. *)
Definition isFalsy (val : value) : bool :=
  match val with
  | VBool false => true
  | VStr EmptyString => true
  | VNum (S754_zero _) => true
  | VNull => true
  | VUndefined => true
  | _ => false
  end.

(** ** The three deep transforms as one *)

Inductive strip_kind := StripNone | StripUndefined | StripNullable.

Definition strip (k : strip_kind) (T : ty) : ty :=
  match k with
  | StripNone => T
  | StripUndefined => NonUndefined T
  | StripNullable => NonNullable T
  end.

(** What tells the three transforms apart: the array their interface
    extends, the
    modifiers of their mapped type, what they strip before recursing. *)
Record deep_cfg := MkCfg {
  c_readonly_array : bool;
  c_ro : ro_mod;
  c_opt : opt_mod;
  c_strip : strip_kind
}.

Definition cfg_readonly : deep_cfg := MkCfg true RoAdd OptKeep StripNone.
Definition cfg_required : deep_cfg := MkCfg false RoKeep OptRemove StripUndefined.
Definition cfg_non_nullable : deep_cfg := MkCfg false RoKeep OptRemove StripNullable.

Fixpoint deep (c : deep_cfg) (n : nat) (T : ty) : ty :=
  match n with
  | 0 => T
  | S n =>
      distribute (fun t =>
        if extends_function t then [t]
        else if extends_any_array t
        then [AIface (c_readonly_array c)
                (deep c n (strip (c_strip c) (index [t] TNumber)))]
        else if extends_object t
        then [mapped (c_ro c) (c_opt c)
                (fun P => deep c n (strip (c_strip c) (index [t] [P]))) t]
        else [t]) T
  end.

(** ** Looking inside a type *)

(** A step into a type: to a property of its object members or to the
    element of its array members. *)
Inductive seg := Field (k : string) | Element.

Definition step_into (T : ty) (s : seg) : ty :=
  match s with
  | Field k => flat_map (fun a => from_option p_type never (props_of a !! k)) T
  | Element => flat_map (fun a => default never (elem_type a)) T
  end.

(** What a path of steps reaches. *)
Definition reach (T : ty) (path : list seg) : ty := foldl step_into T path.

(** The function-typed members of a type. *)
Definition functions (T : ty) : ty := List.filter extends_function T.

(** Records, arrays, functions and primitives, nested at will, without
    intersections. *)
Fixpoint plain (a : atom) : bool :=
  match a with
  | AInter _ | AIface _ _ | AIndexed _ _ => false
  | AArr _ e => forallb plain e
  | AObj m => map_all (fun _ p => forallb plain (p_type p)) m
  | _ => true
  end.

Definition plain_ty (T : ty) : bool := forallb plain T.

(** An array, an interface of one, or what a mapped type makes of such an
    interface. *)
Definition array_like (a : atom) : bool :=
  match a with AArr _ _ | AIface _ _ | AIndexed _ _ => true | _ => false end.

(** No array that can be written to is found in the member, at any depth
    below no function: every array and every interface of an array is
    read-only.  An intersection passes when it is a callable or no
    object. *)
Fixpoint no_mutable_array (a : atom) : bool :=
  match a with
  | AArr ro e | AIface ro e => ro && forallb no_mutable_array e
  | AIndexed _ e => forallb no_mutable_array e
  | AObj m => map_all (fun _ p => forallb no_mutable_array (p_type p)) m
  | AInter _ => extends_function a || negb (extends_object a)
  | _ => true
  end.

(** ** Notions that the statements and proofs use *)

(** The depth of a type below the intersections at its top. *)
Definition parts_depth (T : ty) : nat := ty_depth (flat_map parts_of T).

(** What [strip] keeps. *)
Definition keep (sk : strip_kind) (a : atom) : bool :=
  match sk with
  | StripNone => true
  | StripUndefined => negb (extends a TUndefined)
  | StripNullable => negb (extends a (union TNull TUndefined))
  end.

(** One step of a deep transform, given the transform of what is nested. *)
Definition deep_step (c : deep_cfg) (rec : ty -> ty) (t : atom) : ty :=
  if extends_function t then [t]
  else if extends_any_array t
  then [AIface (c_readonly_array c) (rec (strip (c_strip c) (index [t] TNumber)))]
  else if extends_object t
  then [mapped (c_ro c) (c_opt c)
          (fun P => rec (strip (c_strip c) (index [t] [P]))) t]
  else [t].

(** The members a step builds. *)
Definition structural (a : atom) : bool :=
  match a with
  | AArr _ _ | AIface _ _ | AIndexed _ _ | AObj _ => true
  | _ => false
  end.

(** Nothing that [strip] removes is left. *)
Definition clean (sk : strip_kind) (T : ty) : Prop :=
  forall a, a ∈ T -> keep sk a = true.

(** The modifiers and the stripping of the three transforms go together:
    a transform that removes optionality strips [undefined]. *)
Definition standard (c : deep_cfg) : Prop :=
  match c_opt c, c_strip c with
  | OptKeep, StripNone => True
  | OptRemove, (StripUndefined | StripNullable) => True
  | _, _ => False
  end.

(** A deep transform, unfolded as deep as its argument needs. *)
Definition deep_full (c : deep_cfg) (T : ty) : ty := deep c (S (ty_depth T)) T.

(** How a deep transform goes through a type: it distributes over the
    members of a union, stops at callables and at whatever is not an object,
    and recurses into the element type of an array and into the types of
    the properties of a record. *)
Definition recursion_scheme (c : deep_cfg) (D : ty -> ty) : Prop :=
  (forall A B, D (union A B) = union (D A) (D B))
  /\ (forall t, extends_function t = true -> D [t] = [t])
  /\ (forall t, extends_object t = false -> D [t] = [t])
  /\ (forall e, D (TArray e)
                = [AIface (c_readonly_array c) (D (strip (c_strip c) e))])
  /\ (forall e, D (TReadonlyArray e)
                = TReadonlyArray (map_elem (c_opt c) (D (strip (c_strip c) e))))
  /\ (forall m, D (TObj m)
                = TObj (map_imap
                          (fun _ p => Some (map_prop (c_ro c) (c_opt c) p
                                              (D (strip (c_strip c) (p_type p)))))
                          m)).

Definition nullish (a : atom) : bool :=
  match a with ANull | AUndefined | AVoid => true | _ => false end.

(** Equal up to [null], [undefined] and [void]. *)
Definition sim (X Y : ty) : Prop :=
  List.filter (fun a => negb (nullish a)) X = List.filter (fun a => negb (nullish a)) Y.

(** ** The rest of mapped-types.ts and utility-types.ts *)

(** [X extends Function] where [X] is no naked type parameter: the check is
    made on [X] as a whole, so every member has to be callable. *)
Definition extends_Function (X : ty) : bool := forallb extends_function X.

(** [FunctionKeys<T> =
       { [K in keyof T]: T[K] extends Function ? K : never }[keyof T]] *)
Definition FunctionKeys (T : ty) : ty :=
  index
    (distribute
       (fun t => [mapped RoKeep OptKeep
                    (fun K => if extends_Function (index [t] [K]) then [K]
                              else never) t]) T)
    (keyof T).

(** [NonFunctionKeys<T> =
       { [K in keyof T]: T[K] extends Function ? never : K }[keyof T]] *)
Definition NonFunctionKeys (T : ty) : ty :=
  index
    (distribute
       (fun t => [mapped RoKeep OptKeep
                    (fun K => if extends_Function (index [t] [K]) then never
                              else [K]) t]) T)
    (keyof T).

(** [Exact<A> = A & { __brand: keyof A }] *)
Definition Exact (A : ty) : ty :=
  intersect A (TObj (<["__brand" := required (keyof A)]> ∅)).

(** [Unionize<T> = { [P in keyof T]: { [Q in P]: T[P] } }[keyof T]].  The
    inner mapped type ranges over the one key [P], whose constraint is
    [keyof T]: it is [Pick<T, P>].  For an array member the inner type would
    have an index signature, which the fragment lacks. *)
Definition Unionize (T : ty) : ty :=
  index
    (distribute
       (fun t => [mapped RoKeep OptKeep (fun P => Pick [t] [P]) t]) T)
    (keyof T).

(** The library's [Partial<T> = { [P in keyof T]?: T[P] }], a homomorphic
    mapped type that adds optionality. *)
Definition Partial (T : ty) : ty :=
  distribute
    (fun t =>
       [match t with
        | ANull | AUndefined | AVoid | AString | ANumber | ASymbol
        | AStrLit _ | ANumLit _ | ABoolLit _ => t
        | AArr ro e => AArr ro (add_undefined e)
        | AIface _ e | AIndexed _ e => AIndexed false e
        | _ => AObj ((fun p => MkProp (p_readonly p) true
                                 (add_undefined (p_type p))) <$> props_of t)
        end]) T.

(** [$Shape<T> = Partial<T>] *)
Definition dollar_Shape (T : ty) : ty := Partial T.




(** A union of string literal types, as the key sets are. *)
Definition is_literal_union (T : ty) : bool :=
  forallb (fun a => match a with AStrLit _ => true | _ => false end) T.

(** An object type without optional properties. *)
Definition all_required (m : gmap string (prop ty)) : bool :=
  map_all (fun _ p => negb (p_optional p)) m.

(** [void] is a member of the type. *)
Definition has_void (T : ty) : bool :=
  existsb (fun a => match a with AVoid => true | _ => false end) T.

(** No required property has the member [void] in its type. *)
Definition no_required_void (m : gmap string (prop ty)) : bool :=
  map_all (fun _ p => p_optional p || negb (has_void (p_type p))) m.

(** [{ done: void }] *)
Definition VoidProps : gmap string (prop ty) :=
  <["done" := required TVoid]> ∅.

(** [{ onChange?: (value: number) => string; label: string }] *)
Definition OptionalHandlerProps : gmap string (prop ty) :=
  <["onChange" := optional [Fixtures.NumberToString]]>
    (<["label" := required TString]> ∅).

(** ** What a deep transform leaves behind *)

(** The members that a transform with stripping [sk] removes from every
    property and element type: those that [strip sk] does not keep. *)
Definition banned (sk : strip_kind) (a : atom) : bool := negb (keep sk a).

(** [deeply ro req sk a]: at every depth of [a], below no function, the
    arrays, their interfaces, the index signatures and the properties are
    read-only if [ro] is set, the properties are required if [req] is set,
    and no property or element type has a member banned by [sk].  An
    intersection passes when it is a callable or no object. *)
Fixpoint deeply (ro req : bool) (sk : strip_kind) (a : atom) : bool :=
  match a with
  | AArr r e | AIface r e | AIndexed r e =>
      implb ro r
      && forallb (fun x => negb (banned sk x) && deeply ro req sk x) e
  | AObj m =>
      map_all (fun _ p =>
                 implb ro (p_readonly p) && implb req (negb (p_optional p))
                 && forallb (fun x => negb (banned sk x) && deeply ro req sk x)
                      (p_type p)) m
  | AInter ps => extends_function a || negb (extends_object a)
  | _ => true
  end.

(** What [deeply] asks of a member of a property or element type. *)
Definition deeply_in (ro req : bool) (sk : strip_kind) (x : atom) : bool :=
  negb (banned sk x) && deeply ro req sk x.

(** [settled sk a]: at every depth below no function, [a] has the form
    that [DeepRequired] (with [sk] stripping [undefined]) and
    [DeepNonNullable] (with [sk] stripping [null] and [undefined]) give a
    type.  No property is optional and no property or element type has a
    member banned by [sk].  An array is read-only and has no [void] among
    its elements: one that can be written to would be wrapped in an
    interface.  An interface extends an array that can be written to: one
    of a read-only array would be mapped.  The index signature that a
    mapped type has left is not read-only.  An intersection passes when it
    is a callable or no object. *)
Fixpoint settled (sk : strip_kind) (a : atom) : bool :=
  match a with
  | AArr r e =>
      r && forallb (fun x => negb (is_undefined_or_void x)
                             && (negb (banned sk x) && settled sk x)) e
  | AIface r e | AIndexed r e =>
      negb r && forallb (fun x => negb (banned sk x) && settled sk x) e
  | AObj m =>
      map_all (fun _ p =>
                 negb (p_optional p)
                 && forallb (fun x => negb (banned sk x) && settled sk x)
                      (p_type p)) m
  | AInter _ => extends_function a || negb (extends_object a)
  | _ => true
  end.

(** What [settled] asks of a member of a property or element type. *)
Definition settled_in (sk : strip_kind) (x : atom) : bool :=
  negb (banned sk x) && settled sk x.


(** * Properties *)

(** ** Folds over maps and lists *)

Lemma map_all_spec {A} (f : string -> A -> bool) (m : gmap string A) :
  map_all f m = true <-> forall k v, m !! k = Some v -> f k v = true.
Proof.
  unfold map_all. rewrite map_fold_foldr.
  assert (H : forall l : list (string * A),
             foldr (uncurry (fun k v acc => f k v && acc)) true l = true
             <-> forall k v, (k, v) ∈ l -> f k v = true).
  { induction l as [|[k v] l IH]; simpl.
    - split; [intros _ k v Hin; inversion Hin | done].
    - rewrite andb_true_iff, IH. split.
      + intros [Hf Hl] k' v' Hin. apply elem_of_cons in Hin as [Heq|Hin].
        * by inversion Heq; subst.
        * by apply Hl.
      + intros Hall. split; [apply Hall; left|].
        intros k' v' Hin. apply Hall. by right. }
  rewrite H. by setoid_rewrite elem_of_map_to_list.
Qed.

Lemma forallb_spec {A} (f : A -> bool) (l : list A) :
  forallb f l = true <-> forall x, x ∈ l -> f x = true.
Proof. rewrite forallb_forall. by setoid_rewrite list_elem_of_In. Qed.

Lemma existsb_spec {A} (f : A -> bool) (l : list A) :
  existsb f l = true <-> exists x, x ∈ l /\ f x = true.
Proof. rewrite existsb_exists. by setoid_rewrite list_elem_of_In. Qed.

Lemma existsb_false_spec {A} (f : A -> bool) (l : list A) :
  existsb f l = false <-> forall x, x ∈ l -> f x = false.
Proof.
  rewrite <- not_true_iff_false, existsb_spec. split.
  - intros H x Hx. apply not_true_iff_false. intros Hf. apply H. eauto.
  - intros H [x [Hx Hf]]. rewrite (H x Hx) in Hf. discriminate.
Qed.

Lemma elem_of_flat_map {A B} (f : A -> list B) (l : list A) (y : B) :
  y ∈ flat_map f l <-> exists x, x ∈ l /\ y ∈ f x.
Proof.
  rewrite list_elem_of_In, in_flat_map.
  by setoid_rewrite list_elem_of_In.
Qed.

Lemma elem_of_filter' {A} (f : A -> bool) (l : list A) (x : A) :
  x ∈ List.filter f l <-> x ∈ l /\ f x = true.
Proof. rewrite !list_elem_of_In. apply filter_In. Qed.

Lemma filter_all {A} (f : A -> bool) (l : list A) :
  (forall x, x ∈ l -> f x = true) -> List.filter f l = l.
Proof.
  induction l as [|x l IH]; intros H; [done|]. simpl.
  rewrite (H x) by (by left). f_equal. apply IH. intros; apply H. by right.
Qed.

Lemma filter_filter_same {A} (f : A -> bool) (l : list A) :
  List.filter f (List.filter f l) = List.filter f l.
Proof. apply filter_all. by intros x [_ ?]%elem_of_filter'. Qed.

Lemma filter_comm {A} (f g : A -> bool) (l : list A) :
  List.filter f (List.filter g l) = List.filter g (List.filter f l).
Proof.
  induction l as [|x l IH]; [done|]. simpl.
  destruct (f x) eqn:Ef, (g x) eqn:Eg; simpl; rewrite ?Ef, ?Eg, IH; done.
Qed.

Lemma filter_flat_map {A B} (p : B -> bool) (f : A -> list B) (l : list A) :
  List.filter p (flat_map f l) = flat_map (fun x => List.filter p (f x)) l.
Proof.
  induction l as [|x l IH]; [done|]. simpl. by rewrite List.filter_app, IH.
Qed.

(** ** Depth *)

Lemma ty_depth_cons (a : atom) (T : ty) :
  ty_depth (a :: T) = depth a `max` ty_depth T.
Proof. reflexivity. Qed.

Lemma depth_le_ty_depth (a : atom) (T : ty) : a ∈ T -> depth a <= ty_depth T.
Proof.
  induction T as [|b T IH]; intros Hin; [inversion Hin|].
  rewrite ty_depth_cons.
  apply elem_of_cons in Hin as [->|Hin]; [lia|].
  specialize (IH Hin). lia.
Qed.

Lemma ty_depth_app (X Y : ty) : ty_depth (X ++ Y) = ty_depth X `max` ty_depth Y.
Proof.
  induction X as [|x X IH]; [done|].
  rewrite <- app_comm_cons, !ty_depth_cons, IH. lia.
Qed.

Lemma ty_depth_le (X : ty) (n : nat) :
  ty_depth X <= n <-> forall a, a ∈ X -> depth a <= n.
Proof.
  split.
  - intros H a Ha. apply depth_le_ty_depth in Ha. lia.
  - induction X as [|x X IH]; [simpl; lia|]. intros H.
    assert (depth x <= n) by (apply H; left).
    assert (ty_depth X <= n) by (apply IH; intros; apply H; by right).
    rewrite ty_depth_cons. lia.
Qed.

Lemma depth_AObj (m : gmap string (prop ty)) :
  depth (AObj m)
  = S (map_fold (fun _ p acc => ty_depth (p_type p) `max` acc) 0 m).
Proof. reflexivity. Qed.

Lemma depth_AObj_lookup m k (p : prop ty) :
  m !! k = Some p -> ty_depth (p_type p) < depth (AObj m).
Proof.
  rewrite depth_AObj, map_fold_foldr. intros H%elem_of_map_to_list.
  induction (map_to_list m) as [|[k' p'] l IH]; [inversion H|].
  apply elem_of_cons in H as [Heq|Hin]; simpl.
  - inversion Heq; subst. lia.
  - specialize (IH Hin). lia.
Qed.

Lemma depth_AObj_le m (n : nat) :
  (forall k p, m !! k = Some p -> ty_depth (p_type p) <= n) ->
  depth (AObj m) <= S n.
Proof.
  rewrite depth_AObj, map_fold_foldr. intros H.
  assert (Hl : forall k p, (k, p) ∈ map_to_list m -> ty_depth (p_type p) <= n).
  { intros k p Hin. apply (H k). by apply elem_of_map_to_list. }
  clear H. induction (map_to_list m) as [|[k' p'] l IH]; simpl; [lia|].
  assert (ty_depth (p_type p') <= n) by (apply (Hl k'); left).
  assert (foldr (uncurry (fun _ p acc => ty_depth (p_type p) `max` acc)) 0 l <= n).
  { assert (Hl' : forall k p, (k, p) ∈ l -> ty_depth (p_type p) <= n)
      by (intros; eapply Hl; by right).
    specialize (IH Hl'). lia. }
  lia.
Qed.

Lemma depth_AArr ro (e : ty) : depth (AArr ro e) = S (ty_depth e).
Proof. reflexivity. Qed.

Lemma depth_AIface ro (e : ty) : depth (AIface ro e) = S (ty_depth e).
Proof. reflexivity. Qed.

Lemma depth_AIndexed ro (e : ty) : depth (AIndexed ro e) = S (ty_depth e).
Proof. reflexivity. Qed.

Lemma depth_AInter (ps : list atom) : depth (AInter ps) = S (ty_depth ps).
Proof. reflexivity. Qed.

Lemma depth_AFun ps r o :
  depth (AFun ps r o)
  = S (foldr (fun p acc => ty_depth (a_type p) `max` acc)
         (from_option ty_depth 0 r `max` ty_depth o) ps).
Proof. destruct r; reflexivity. Qed.

Lemma ty_depth_add_undefined (X : ty) : ty_depth (add_undefined X) = ty_depth X.
Proof.
  unfold add_undefined. destruct (existsb _ X); [done|].
  rewrite ty_depth_app. simpl. lia.
Qed.

Lemma depth_AFun_param ps r o i (X : ty) :
  param_at ps r i = Some X -> ty_depth X < depth (AFun ps r o).
Proof.
  rewrite depth_AFun. unfold param_at. revert i.
  induction ps as [|p ps IH]; intros i; simpl.
  - destruct r; intros [= <-]; simpl; lia.
  - destruct i as [|i]; simpl.
    + intros [= <-]. unfold param_type.
      destruct (a_optional p); rewrite ?ty_depth_add_undefined; lia.
    + intros H. specialize (IH _ H). lia.
Qed.

Lemma depth_AFun_ret ps r (o : ty) : ty_depth o < depth (AFun ps r o).
Proof.
  rewrite depth_AFun. induction ps as [|p ps IH]; simpl; lia.
Qed.

(** ** Assignability is reflexive *)

Lemma sub_refl (n : nat) (X : ty) :
  (forall a, a ∈ X -> assignable n a a = true) ->
  forallb (fun a => existsb (assignable n a) X) X = true.
Proof.
  intros H. apply forallb_spec. intros a Ha.
  apply existsb_spec. exists a. auto.
Qed.

Lemma assignable_refl (n : nat) (a : atom) :
  depth a < n -> assignable n a a = true.
Proof.
  revert a. induction n as [|n IH]; intros a Hd; [lia|].
  assert (Hsub : forall X : ty, ty_depth X < n ->
            forallb (fun a => existsb (assignable n a) X) X = true).
  { intros X HX. apply sub_refl. intros b Hb. apply IH.
    apply depth_le_ty_depth in Hb. lia. }
  destruct a as [| | | | | |s|x|b|ps r o|ro e|ro e|ro e|m|qs]; simpl;
    try reflexivity; try (by apply bool_decide_eq_true).
  - rewrite !andb_true_iff. repeat split.
    + destruct r; [done|]. apply bool_decide_eq_true.
      clear. induction ps as [|p ps IHp]; simpl; [lia|].
      destruct (min_args ps), (a_optional p); simpl in *; lia.
    + apply forallb_spec. intros i _.
      destruct (param_at ps r i) as [X|] eqn:HX; [|done].
      apply Hsub. apply (depth_AFun_param _ _ o) in HX. lia.
    + apply orb_true_iff. right. apply Hsub.
      pose proof (depth_AFun_ret ps r o). lia.
  - rewrite andb_true_iff. split; [by destruct ro|].
    apply Hsub. rewrite depth_AArr in Hd. lia.
  - rewrite andb_true_iff. split; [by destruct ro|].
    apply Hsub. rewrite depth_AIface in Hd. lia.
  - apply Hsub. rewrite depth_AIndexed in Hd. lia.
  - apply map_all_spec. intros k p Hk. rewrite Hk.
    rewrite andb_true_iff. split; [by destruct (p_optional p)|].
    apply Hsub. apply depth_AObj_lookup in Hk. lia.
  - apply forallb_spec. intros t Ht. apply existsb_spec. exists t.
    split; [done|]. apply IH. rewrite depth_AInter in Hd.
    apply depth_le_ty_depth in Ht. lia.
Qed.

Lemma forallb_ext_elem {A} (f g : A -> bool) (l : list A) :
  (forall x, x ∈ l -> f x = g x) -> forallb f l = forallb g l.
Proof.
  induction l as [|x l IH]; intros H; [done|]. simpl.
  rewrite (H x) by (by left). f_equal. apply IH. intros; apply H. by right.
Qed.

Lemma existsb_ext_elem {A} (f g : A -> bool) (l : list A) :
  (forall x, x ∈ l -> f x = g x) -> existsb f l = existsb g l.
Proof.
  induction l as [|x l IH]; intros H; [done|]. simpl.
  rewrite (H x) by (by left). f_equal. apply IH. intros; apply H. by right.
Qed.

Lemma map_all_ext {A} (f g : string -> A -> bool) (m : gmap string A) :
  (forall k v, m !! k = Some v -> f k v = g k v) -> map_all f m = map_all g m.
Proof.
  intros H. apply eq_true_iff_eq. rewrite !map_all_spec.
  split; intros Hall k v Hk; specialize (Hall k v Hk);
    rewrite (H k v Hk) in *; done.
Qed.

(** Inspecting deeper than the two members are nested changes nothing. *)
Lemma assignable_stable (n m : nat) (s t : atom) :
  depth s + depth t < n -> depth s + depth t < m ->
  assignable n s t = assignable m s t.
Proof.
  revert m s t. induction n as [|n IH]; intros m s t Hn Hm; [lia|].
  destruct m as [|m]; [lia|].
  assert (Hsub : forall X Y : ty,
            ty_depth X + ty_depth Y < n -> ty_depth X + ty_depth Y < m ->
            forallb (fun a => existsb (assignable n a) Y) X
            = forallb (fun a => existsb (assignable m a) Y) X).
  { intros X Y HX HY. apply forallb_ext_elem. intros a Ha%depth_le_ty_depth.
    apply existsb_ext_elem. intros b Hb%depth_le_ty_depth. apply IH; lia. }
  assert (Hr : forall (ts : list atom),
            depth s + ty_depth ts < n -> depth s + ty_depth ts < m ->
            forallb (assignable n s) ts = forallb (assignable m s) ts).
  { intros ts H1 H2. apply forallb_ext_elem. intros b Hb%depth_le_ty_depth.
    apply IH; lia. }
  assert (Hl : forall (ss : list atom),
            ty_depth ss + depth t < n -> ty_depth ss + depth t < m ->
            existsb (fun s' => assignable n s' t) ss
            = existsb (fun s' => assignable m s' t) ss).
  { intros ss H1 H2. apply existsb_ext_elem. intros b Hb%depth_le_ty_depth.
    apply IH; lia. }
  assert (Hd : forall ro e, depth (AArr ro e) = S (ty_depth e)
                            /\ depth (AIface ro e) = S (ty_depth e)
                            /\ depth (AIndexed ro e) = S (ty_depth e)) by done.
  destruct t as [| | | | | |s2|x2|b2|ps2 r2 o2|ro2 e2|ro2 e2|ro2 e2|m2|ts];
    try (destruct s as [| | | | | |s1|x1|b1|ps1 r1 o1|ro1 e1|ro1 e1|ro1 e1|m1|ss];
         try reflexivity;
         rewrite ?depth_AInter in Hn, Hm; apply Hl; lia).
  - destruct s as [| | | | | |s1|x1|b1|ps1 r1 o1|ro1 e1|ro1 e1|ro1 e1|m1|ss];
      try reflexivity;
      try (rewrite ?depth_AInter in Hn, Hm; apply Hl; lia).
    simpl. f_equal; [f_equal|].
    + apply forallb_ext_elem. intros i _.
      destruct (param_at ps1 r1 i) as [X|] eqn:HX; [|done].
      destruct (param_at ps2 r2 i) as [Y|] eqn:HY; [|done].
      apply (depth_AFun_param _ _ o1) in HX.
      apply (depth_AFun_param _ _ o2) in HY. apply Hsub; lia.
    + f_equal. pose proof (depth_AFun_ret ps1 r1 o1).
      pose proof (depth_AFun_ret ps2 r2 o2). apply Hsub; lia.
  - destruct s as [| | | | | |s1|x1|b1|ps1 r1 o1|ro1 e1|ro1 e1|ro1 e1|m1|ss];
      try reflexivity;
      try (rewrite ?depth_AInter in Hn, Hm; apply Hl; lia);
      simpl; f_equal; rewrite ?depth_AArr, ?depth_AIface in Hn, Hm;
      apply Hsub; lia.
  - destruct s as [| | | | | |s1|x1|b1|ps1 r1 o1|ro1 e1|ro1 e1|ro1 e1|m1|ss];
      try reflexivity;
      try (rewrite ?depth_AInter in Hn, Hm; apply Hl; lia);
      simpl; f_equal; rewrite ?depth_AArr, ?depth_AIface in Hn, Hm;
      apply Hsub; lia.
  - destruct s as [| | | | | |s1|x1|b1|ps1 r1 o1|ro1 e1|ro1 e1|ro1 e1|m1|ss];
      try reflexivity;
      try (rewrite ?depth_AInter in Hn, Hm; apply Hl; lia);
      simpl;
      rewrite ?depth_AArr, ?depth_AIface, ?depth_AIndexed in Hn, Hm;
      apply Hsub; lia.
  - destruct s as [| | | | | |s1|x1|b1|ps1 r1 o1|ro1 e1|ro1 e1|ro1 e1|m1|ss];
      try reflexivity;
      try (rewrite ?depth_AInter in Hn, Hm; apply Hl; lia).
    simpl. apply map_all_ext. intros k q Hq.
    destruct (m1 !! k) as [p|] eqn:Hp; [|done]. f_equal.
    apply depth_AObj_lookup in Hq, Hp. apply Hsub; lia.
  - rewrite depth_AInter in Hn, Hm.
    destruct s as [| | | | | |s1|x1|b1|ps1 r1 o1|ro1 e1|ro1 e1|ro1 e1|m1|ss];
      try (apply Hr; lia).
    rewrite depth_AInter in Hn, Hm. simpl.
    apply forallb_ext_elem. intros b Hb%depth_le_ty_depth.
    apply existsb_ext_elem. intros a Ha%depth_le_ty_depth. apply IH; lia.
Qed.

Lemma extends_stable (n : nat) (a : atom) (B : ty) :
  depth a + ty_depth B < n -> extends a B = existsb (assignable n a) B.
Proof.
  intros H. apply existsb_ext_elem. intros b Hb%depth_le_ty_depth.
  apply assignable_stable; lia.
Qed.

Lemma extends_elem (a : atom) (B : ty) : a ∈ B -> extends a B = true.
Proof.
  intros Ha. apply existsb_spec. exists a. split; [done|].
  apply assignable_refl. lia.
Qed.

Lemma extends_app (a : atom) (B C : ty) :
  extends a (B ++ C) = extends a B || extends a C.
Proof. unfold extends. apply existsb_app. Qed.

(** ** The set operators *)

Lemma elem_of_SetDifference (a : atom) (A B : ty) :
  a ∈ SetDifference A B <-> a ∈ A /\ extends a B = false.
Proof.
  unfold SetDifference, distribute. rewrite elem_of_flat_map. split.
  - intros [x [Hx Ha]]. destruct (extends x B) eqn:E; [inversion Ha|].
    apply list_elem_of_singleton in Ha as ->. done.
  - intros [Ha E]. exists a. rewrite E. split; [done|]. by left.
Qed.

Lemma elem_of_SetIntersection (a : atom) (A B : ty) :
  a ∈ SetIntersection A B <-> a ∈ A /\ extends a B = true.
Proof.
  unfold SetIntersection, distribute. rewrite elem_of_flat_map. split.
  - intros [x [Hx Ha]]. destruct (extends x B) eqn:E; [|inversion Ha].
    apply list_elem_of_singleton in Ha as ->. done.
  - intros [Ha E]. exists a. rewrite E. split; [done|]. by left.
Qed.

Lemma SetIntersection_nil (A B : ty) :
  (forall a, a ∈ A -> extends a B = false) -> SetIntersection A B = never.
Proof.
  intros H. induction A as [|a A IH]; [done|].
  unfold SetIntersection, distribute in *. simpl.
  rewrite (H a) by (by left). simpl. apply IH. intros; apply H. by right.
Qed.

(** ** [keyof] and [Pick] *)

Lemma filter_true {A} (l : list A) : List.filter (fun _ => true) l = l.
Proof. induction l; simpl; congruence. Qed.

Lemma keyof_single (a : atom) : keyof [a] = AStrLit <$> atom_keys a.
Proof. unfold keyof. simpl. by rewrite filter_true. Qed.

Lemma elem_of_atom_keys (a : atom) (k : string) :
  k ∈ atom_keys a <-> is_Some (props_of a !! k).
Proof.
  unfold atom_keys. rewrite list_elem_of_fmap. split.
  - intros [[k' p] [-> Hin]]. apply elem_of_map_to_list in Hin. by exists p.
  - intros [p Hp]. exists (k, p). split; [done|]. by apply elem_of_map_to_list.
Qed.

Lemma NoDup_atom_keys (a : atom) : NoDup (atom_keys a).
Proof. apply NoDup_fst_map_to_list. Qed.

Lemma elem_of_keyof (T : ty) (k : string) :
  T <> [] ->
  AStrLit k ∈ keyof T <-> forall a, a ∈ T -> is_Some (props_of a !! k).
Proof.
  destruct T as [|a T]; [done|]. intros _. unfold keyof.
  rewrite list_elem_of_fmap. split.
  - intros [k' [[= <-] Hin]]. apply list_elem_of_In, filter_In in Hin as [Hin Hall].
    apply list_elem_of_In, elem_of_atom_keys in Hin.
    rewrite forallb_spec in Hall.
    intros b [->|Hb]%elem_of_cons; [done|].
    specialize (Hall b Hb). by apply bool_decide_eq_true in Hall.
  - intros H. exists k. split; [done|]. apply list_elem_of_In, filter_In. split.
    + apply list_elem_of_In, elem_of_atom_keys, H. by left.
    + apply forallb_spec. intros b Hb. apply bool_decide_eq_true, H. by right.
Qed.

Lemma elem_of_keyof_single (a : atom) (k : string) :
  AStrLit k ∈ keyof [a] <-> is_Some (props_of a !! k).
Proof.
  rewrite elem_of_keyof by done. split.
  - intros H. apply H. by left.
  - by intros H b ->%list_elem_of_singleton.
Qed.

Lemma keyof_literals (T : ty) (x : atom) :
  T <> [] -> x ∈ keyof T -> exists k, x = AStrLit k.
Proof.
  destruct T as [|a T]; [done|]. intros _. unfold keyof.
  rewrite list_elem_of_fmap. intros [k [-> _]]. by exists k.
Qed.

Lemma ty_prop_is_Some (T : ty) (k : string) :
  T <> [] ->
  is_Some (ty_prop T k) <-> forall a, a ∈ T -> is_Some (props_of a !! k).
Proof.
  induction T as [|a T IH]; [done|]. intros _.
  destruct T as [|b T].
  - simpl. split.
    + by intros H x ->%list_elem_of_singleton.
    + intros H. apply H. by left.
  - change (ty_prop (a :: b :: T) k)
      with (match props_of a !! k, ty_prop (b :: T) k with
            | Some p, Some q => Some (prop_union p q)
            | _, _ => None
            end).
    specialize (IH ltac:(done)). split.
    + intros H x Hx. destruct (props_of a !! k) as [p|] eqn:Ha;
        [|by destruct H]. destruct (ty_prop (b :: T) k) as [q|] eqn:Hq;
        [|by destruct H].
      apply elem_of_cons in Hx as [->|Hx]; [by rewrite Ha|].
      apply IH; [by eexists|done].
    + intros H. destruct (H a ltac:(by left)) as [p ->].
      destruct (proj2 IH) as [q ->]; [|by eexists].
      intros x Hx. apply H. by right.
Qed.

(** A string literal is assignable to a string literal when they are equal. *)
Lemma extends_literal (k : string) (B : ty) :
  (forall x, x ∈ B -> exists k', x = AStrLit k') ->
  extends (AStrLit k) B = true <-> AStrLit k ∈ B.
Proof.
  intros HB. split.
  - intros [b [Hb Ha]]%existsb_spec. destruct (HB b Hb) as [k' ->].
    simpl in Ha. apply bool_decide_eq_true in Ha. by subst.
  - apply extends_elem.
Qed.

Lemma extends_keyof_single (k : string) (b : atom) :
  extends (AStrLit k) (keyof [b]) = bool_decide (is_Some (props_of b !! k)).
Proof.
  apply eq_true_iff_eq. rewrite bool_decide_eq_true, <- elem_of_keyof_single.
  apply extends_literal. intros x Hx. by apply (keyof_literals [b]).
Qed.

Lemma pick_props_entry (T K : ty) (a : atom) (k : string) (p : prop ty) :
  match a with
  | AStrLit s => (fun p => (s, p)) <$> ty_prop T s
  | _ => None
  end = Some (k, p) ->
  a = AStrLit k /\ ty_prop T k = Some p.
Proof.
  destruct a; try done.
  destruct (ty_prop T s) eqn:E; simpl; intros [= <- <-]. done.
Qed.

Lemma lookup_pick_props_None (T K : ty) (k : string) :
  AStrLit k ∉ K \/ ty_prop T k = None -> pick_props T K !! k = None.
Proof.
  intros H. apply not_elem_of_list_to_map_1. rewrite list_elem_of_fmap.
  intros [[k' p] [-> Hy]]. apply list_elem_of_omap in Hy as [a [Ha Hga]].
  apply pick_props_entry in Hga as [-> Hp]; [|done]. simpl in H.
  destruct H; [done|congruence].
Qed.

Lemma lookup_pick_props (T K : ty) (k : string) :
  AStrLit k ∈ K -> pick_props T K !! k = ty_prop T k.
Proof.
  intros Hin. destruct (ty_prop T k) as [p|] eqn:Hp.
  - apply elem_of_list_to_map_1'.
    + intros y Hy. apply list_elem_of_omap in Hy as [a [_ Ha]].
      apply pick_props_entry in Ha as [_ Ha]; [|done]. congruence.
    + apply list_elem_of_omap. exists (AStrLit k). split; [done|].
      by rewrite Hp.
  - apply lookup_pick_props_None. by right.
Qed.

Lemma pick_props_keyof_single (a : atom) :
  pick_props [a] (keyof [a]) = props_of a.
Proof.
  apply map_eq. intros k. destruct (props_of a !! k) as [p|] eqn:Hp.
  - rewrite lookup_pick_props; [done|]. apply elem_of_keyof_single. by eexists.
  - apply lookup_pick_props_None. by right.
Qed.

Lemma ty_prop_in_keyof (T : ty) (k : string) (p : prop ty) :
  ty_prop T k = Some p -> AStrLit k ∈ keyof T.
Proof.
  intros Hp. destruct T as [|a T]; [done|].
  apply elem_of_keyof; [done|]. apply ty_prop_is_Some; [done|]. by eexists.
Qed.

Lemma lookup_pick_difference (T K : ty) (k : string) :
  pick_props T (SetDifference (keyof T) K) !! k
  = if extends (AStrLit k) K then None else ty_prop T k.
Proof.
  destruct (extends (AStrLit k) K) eqn:E.
  - apply lookup_pick_props_None. left.
    rewrite elem_of_SetDifference. intros [_ ?]. congruence.
  - destruct (ty_prop T k) as [p|] eqn:Hp.
    + rewrite lookup_pick_props; [done|].
      apply elem_of_SetDifference. eauto using ty_prop_in_keyof.
    + apply lookup_pick_props_None. by right.
Qed.

Lemma lookup_pick_intersection (T K : ty) (k : string) :
  pick_props T (SetIntersection (keyof T) K) !! k
  = if extends (AStrLit k) K then ty_prop T k else None.
Proof.
  destruct (extends (AStrLit k) K) eqn:E.
  - destruct (ty_prop T k) as [p|] eqn:Hp.
    + rewrite lookup_pick_props; [done|].
      apply elem_of_SetIntersection. eauto using ty_prop_in_keyof.
    + apply lookup_pick_props_None. by right.
  - apply lookup_pick_props_None. left.
    rewrite elem_of_SetIntersection. intros [_ ?]. congruence.
Qed.

(** The shapes that [Diff] and [Intersection] make of two object types. *)
Lemma Diff_objects (t u : gmap string (prop ty)) :
  Diff (TObj t) (TObj u)
  = TObj (pick_props (TObj t) (SetDifference (keyof (TObj t)) (keyof (TObj u)))).
Proof. reflexivity. Qed.

Lemma lookup_Diff_objects (t u : gmap string (prop ty)) (k : string) :
  pick_props (TObj t) (SetDifference (keyof (TObj t)) (keyof (TObj u))) !! k
  = match u !! k with Some _ => None | None => t !! k end.
Proof.
  rewrite lookup_pick_difference. unfold TObj at 1.
  rewrite extends_keyof_single. simpl.
  destruct (u !! k) eqn:E; case_bool_decide as H; try done.
  destruct H. by eexists.
Qed.

Lemma lookup_Intersection_objects (t u : gmap string (prop ty)) (k : string) :
  pick_props (TObj t) (SetIntersection (keyof (TObj t)) (keyof (TObj u))) !! k
  = match u !! k with Some _ => t !! k | None => None end.
Proof.
  rewrite lookup_pick_intersection. unfold TObj at 1.
  rewrite extends_keyof_single. simpl.
  destruct (u !! k) eqn:E; case_bool_decide as H; try done.
  destruct H. by eexists.
Qed.

Lemma intersect_single (x y : atom) :
  intersect [x] [y] = [AInter (parts_of x ++ parts_of y)].
Proof. reflexivity. Qed.

Lemma union_with_None_r {A} (f : A -> A -> option A) (x : option A) :
  union_with f x None = x.
Proof. by destruct x. Qed.

Lemma Intersection_single (a : atom) (U : ty) :
  Intersection [a] U = Pick [a] (SetIntersection (keyof [a]) (keyof U)).
Proof. reflexivity. Qed.

Lemma Omit_single (a : atom) (K : ty) :
  Omit [a] K = Pick [a] (SetDifference (keyof [a]) K).
Proof. reflexivity. Qed.

(** [Overwrite] of two object types, property by property. *)
Lemma Overwrite_objects (t u : gmap string (prop ty)) :
  Overwrite (TObj t) (TObj u)
  = TObj (map_imap (fun k p => Some (default p (u !! k))) t).
Proof.
  unfold Overwrite. unfold TObj at 3. rewrite Intersection_single.
  unfold Diff, Pick.
  set (d := pick_props (TObj t) _). set (i := pick_props [AObj u] _).
  change (intersect (TObj d) (TObj i)) with [AInter [AObj d; AObj i]].
  rewrite pick_props_keyof_single. f_equal. f_equal.
  apply map_eq. intros k. simpl.
  rewrite !lookup_union_with, lookup_empty, union_with_None_r.
  subst d i. rewrite lookup_Diff_objects, map_lookup_imap.
  change [AObj u] with (TObj u). change [AObj t] with (TObj t).
  rewrite lookup_Intersection_objects.
  destruct (t !! k) as [p|], (u !! k) as [q|]; done.
Qed.

(** [Assign] of two object types: the properties of [u], then those of
    [t] that [u] lacks. *)
Lemma Assign_objects (t u : gmap string (prop ty)) :
  Assign (TObj t) (TObj u) = TObj (u ∪ t).
Proof.
  unfold Assign. unfold TObj at 3. rewrite Intersection_single.
  unfold Diff, Pick.
  set (d := pick_props (TObj t) _). set (i := pick_props [AObj u] _).
  set (e := pick_props (TObj u) _).
  change (intersect (intersect (TObj d) (TObj i)) (TObj e))
    with [AInter [AObj d; AObj i; AObj e]].
  rewrite pick_props_keyof_single. f_equal. f_equal.
  apply map_eq. intros k. simpl.
  rewrite !lookup_union_with, lookup_empty, union_with_None_r.
  subst d i e. rewrite !lookup_Diff_objects, lookup_union.
  change [AObj u] with (TObj u). change [AObj t] with (TObj t).
  rewrite lookup_Intersection_objects.
  destruct (t !! k) as [p|], (u !! k) as [q|]; done.
Qed.

(** ** Depth of the parts of a member *)

Lemma parts_depth_cons (a : atom) (T : ty) :
  parts_depth (a :: T) = ty_depth (parts_of a) `max` parts_depth T.
Proof. unfold parts_depth. simpl. apply ty_depth_app. Qed.

Lemma parts_of_depth (a : atom) :
  ty_depth (parts_of a) <= depth a /\ depth a <= S (ty_depth (parts_of a)).
Proof.
  destruct a;
    try (unfold parts_of; rewrite ty_depth_cons; change (ty_depth []) with 0; lia).
  rewrite depth_AInter. simpl parts_of. lia.
Qed.

Lemma parts_depth_le (T : ty) : parts_depth T <= ty_depth T.
Proof.
  induction T as [|a T IH]; [done|].
  rewrite parts_depth_cons, ty_depth_cons.
  pose proof (parts_of_depth a). lia.
Qed.

Lemma parts_depth_spec (T : ty) (n : nat) :
  parts_depth T <= n <-> forall a, a ∈ T -> ty_depth (parts_of a) <= n.
Proof.
  induction T as [|a T IH].
  - split; [intros _ a Ha; inversion Ha|intros _; unfold parts_depth; simpl; lia].
  - rewrite parts_depth_cons. split.
    + intros H b [->|Hb]%elem_of_cons; [lia|]. apply IH; [lia|done].
    + intros H. assert (ty_depth (parts_of a) <= n) by (apply H; left).
      assert (parts_depth T <= n) by (apply IH; intros; apply H; by right).
      lia.
Qed.

Lemma elem_of_intersect (X Y : ty) (a : atom) :
  a ∈ intersect X Y
  <-> exists x y, x ∈ X /\ y ∈ Y /\ a = AInter (parts_of x ++ parts_of y).
Proof.
  unfold intersect. rewrite elem_of_flat_map. split.
  - intros [x [Hx Ha]]. apply list_elem_of_fmap in Ha as [y [-> Hy]]. eauto.
  - intros [x [y [Hx [Hy ->]]]]. exists x. split; [done|].
    apply list_elem_of_fmap. eauto.
Qed.

Lemma intersect_depth (X Y : ty) :
  ty_depth (intersect X Y) <= S (parts_depth X `max` parts_depth Y)
  /\ parts_depth (intersect X Y) <= parts_depth X `max` parts_depth Y.
Proof.
  assert (H : forall a, a ∈ intersect X Y ->
                ty_depth (parts_of a) <= parts_depth X `max` parts_depth Y).
  { intros a [x [y [Hx [Hy ->]]]]%elem_of_intersect. simpl parts_of.
    rewrite ty_depth_app.
    pose proof (proj1 (parts_depth_spec X _) (Nat.le_refl _) x Hx).
    pose proof (proj1 (parts_depth_spec Y _) (Nat.le_refl _) y Hy). lia. }
  split.
  - apply ty_depth_le. intros a Ha. specialize (H a Ha).
    pose proof (parts_of_depth a). lia.
  - by apply parts_depth_spec.
Qed.

Lemma fold_opt_inter_depth (xs : list (option ty)) (M : nat) :
  (forall X, Some X ∈ xs -> ty_depth X < M) ->
  forall Y, foldr opt_inter None xs = Some Y ->
            parts_depth Y < M /\ ty_depth Y <= M.
Proof.
  induction xs as [|x xs IH]; intros H Y; simpl; [done|].
  assert (IH' : forall Y, foldr opt_inter None xs = Some Y ->
                  parts_depth Y < M /\ ty_depth Y <= M).
  { apply IH. intros X HX. apply H. by right. }
  destruct x as [X|]; simpl; [|by apply IH'].
  assert (HX : ty_depth X < M) by (apply H; left).
  pose proof (parts_depth_le X).
  destruct (foldr opt_inter None xs) as [Y'|] eqn:E; simpl.
  - intros [= <-]. destruct (IH' Y' eq_refl).
    pose proof (intersect_depth X Y'). lia.
  - intros [= <-]. lia.
Qed.

Lemma elem_type_AInter (ps : list atom) :
  elem_type (AInter ps) = foldr opt_inter None (elem_type <$> ps).
Proof.
  simpl. induction ps as [|p ps IH]; [done|].
  simpl. by rewrite IH.
Qed.

Lemma lookup_props_of_AInter (ps : list atom) (k : string) :
  p_type <$> (props_of (AInter ps) !! k)
  = foldr opt_inter None ((fun p => p_type <$> (props_of p !! k)) <$> ps).
Proof.
  simpl. induction ps as [|p ps IH]; [simpl; by rewrite lookup_empty|].
  rewrite fmap_cons. simpl foldr. rewrite <- IH, lookup_union_with.
  destruct (props_of p !! k), (foldr _ ∅ ps !! k); done.
Qed.

Lemma slots_depth (n : nat) (t : atom) :
  depth t <= n ->
  (forall e, elem_type t = Some e -> ty_depth e < depth t)
  /\ (forall k p, props_of t !! k = Some p -> ty_depth (p_type p) < depth t).
Proof.
  revert t. induction n as [|n IH]; intros t Hd.
  - destruct t; simpl in *; try lia; split; try done;
      intros k p; by rewrite lookup_empty.
  - destruct t; try (split; [done|]; intros k p; simpl; by rewrite lookup_empty).
    + split; [intros e [= <-]; rewrite depth_AArr; lia|].
      intros k p; simpl; by rewrite lookup_empty.
    + split; [intros e [= <-]; rewrite depth_AIface; lia|].
      intros k p; simpl; by rewrite lookup_empty.
    + split; [intros e [= <-]; rewrite depth_AIndexed; lia|].
      intros k p; simpl; by rewrite lookup_empty.
    + split; [done|]. intros k p Hk. by apply depth_AObj_lookup in Hk.
    + rewrite depth_AInter in *.
      assert (Hp : forall p, p ∈ parts -> depth p <= n).
      { intros p Hp%depth_le_ty_depth. lia. }
      split.
      * intros e. rewrite elem_type_AInter. intros He.
        apply (fold_opt_inter_depth _ (ty_depth parts)) in He; [lia|].
        intros X [p [HX Hin]]%list_elem_of_fmap.
        destruct (IH p (Hp p Hin)) as [H1 _]. specialize (H1 X (eq_sym HX)).
        apply depth_le_ty_depth in Hin. lia.
      * intros k p Hk.
        assert (He : p_type <$> (props_of (AInter parts) !! k) = Some (p_type p))
          by (by rewrite Hk).
        rewrite lookup_props_of_AInter in He.
        apply (fold_opt_inter_depth _ (ty_depth parts)) in He; [lia|].
        intros X [q [HX Hin]]%list_elem_of_fmap.
        destruct (props_of q !! k) as [pq|] eqn:Hq; [|done].
        injection HX as ->.
        destruct (IH q (Hp q Hin)) as [_ H2]. specialize (H2 k pq Hq).
        apply depth_le_ty_depth in Hin. lia.
Qed.

Lemma elem_type_depth (t : atom) (e : ty) :
  elem_type t = Some e -> ty_depth e < depth t.
Proof. apply (slots_depth (depth t) t). lia. Qed.

Lemma props_of_depth (t : atom) (k : string) (p : prop ty) :
  props_of t !! k = Some p -> ty_depth (p_type p) < depth t.
Proof. apply (slots_depth (depth t) t). lia. Qed.

(** ** The deep transforms: what one step does *)

Lemma distribute_filter (c : atom -> bool) (T : ty) :
  distribute (fun a => if c a then never else [a]) T
  = List.filter (fun a => negb (c a)) T.
Proof.
  unfold distribute. induction T as [|a T IH]; [done|].
  simpl. rewrite IH. by destruct (c a).
Qed.

Lemma strip_filter (sk : strip_kind) (T : ty) :
  strip sk T = List.filter (keep sk) T.
Proof.
  destruct sk; simpl.
  - by rewrite filter_true.
  - apply distribute_filter.
  - apply distribute_filter.
Qed.

Lemma ty_depth_filter (f : atom -> bool) (T : ty) :
  ty_depth (List.filter f T) <= ty_depth T.
Proof.
  apply ty_depth_le. intros a [Ha _]%elem_of_filter'.
  by apply depth_le_ty_depth.
Qed.

Lemma ty_depth_strip (sk : strip_kind) (T : ty) :
  ty_depth (strip sk T) <= ty_depth T.
Proof. rewrite strip_filter. apply ty_depth_filter. Qed.

Lemma ty_depth_remove_undefined (T : ty) :
  ty_depth (remove_undefined T) <= ty_depth T.
Proof. apply ty_depth_filter. Qed.

Lemma index_number (t : atom) :
  index [t] TNumber = default never (elem_type t).
Proof. unfold index. simpl. by rewrite !app_nil_r. Qed.

Lemma index_prop (t : atom) (k : string) :
  index [t] [AStrLit k] = from_option p_type never (props_of t !! k).
Proof. unfold index. simpl. by rewrite app_nil_r. Qed.

Lemma extends_object_depth (t : atom) : extends_object t = true -> 0 < depth t.
Proof. destruct t; simpl; try done; lia. Qed.

Lemma extends_any_array_object (t : atom) :
  extends_any_array t = true -> extends_object t = true.
Proof.
  revert t. fix IH 1. intros [| | | | | | | | | | | | | |ps]; simpl; try done.
  induction ps as [|p ps IHps]; simpl; [done|].
  intros [H|H]%orb_true_iff; apply orb_true_iff; [left; by apply IH|right; by apply IHps].
Qed.

Lemma index_depth (t P : atom) :
  extends_object t = true -> ty_depth (index [t] [P]) < depth t.
Proof.
  intros Ht%extends_object_depth.
  destruct P; try (unfold index; simpl; lia).
  - change [ANumber] with TNumber. rewrite index_number.
    destruct (elem_type t) as [e|] eqn:E; simpl; [|lia].
    by apply elem_type_depth.
  - rewrite index_prop.
    destruct (props_of t !! s) as [p|] eqn:E; simpl; [|lia].
    by apply props_of_depth in E.
Qed.

Lemma flat_map_ext_elem {A B} (f g : A -> list B) (l : list A) :
  (forall x, x ∈ l -> f x = g x) -> flat_map f l = flat_map g l.
Proof.
  induction l as [|x l IH]; intros H; [done|]. simpl.
  rewrite (H x) by (by left). rewrite IH; [done|].
  intros y Hy. apply H. by right.
Qed.

Lemma mapped_ext (rm : ro_mod) (om : opt_mod) (f g : atom -> ty) (t : atom) :
  (forall e, elem_type t = Some e -> f ANumber = g ANumber) ->
  (forall k p, props_of t !! k = Some p -> f (AStrLit k) = g (AStrLit k)) ->
  mapped rm om f t = mapped rm om g t.
Proof.
  intros He Hp.
  assert (Hm : map_imap (fun k p => Some (map_prop rm om p (f (AStrLit k)))) (props_of t)
               = map_imap (fun k p => Some (map_prop rm om p (g (AStrLit k)))) (props_of t)).
  { apply map_eq. intros k. rewrite !map_lookup_imap.
    destruct (props_of t !! k) as [p|] eqn:E; simpl; [|done].
    by rewrite (Hp k p E). }
  destruct t; simpl; try done; try (by f_equal);
    by rewrite (He elem eq_refl).
Qed.

Lemma deep_S (c : deep_cfg) (n : nat) (T : ty) :
  deep c (S n) T = flat_map (deep_step c (deep c n)) T.
Proof. reflexivity. Qed.

Lemma deep_step_ext (c : deep_cfg) (f g : ty -> ty) (t : atom) :
  (forall P, extends_object t = true ->
             f (strip (c_strip c) (index [t] [P]))
             = g (strip (c_strip c) (index [t] [P]))) ->
  deep_step c f t = deep_step c g t.
Proof.
  intros H. unfold deep_step.
  destruct (extends_function t); [done|].
  destruct (extends_any_array t) eqn:Ea.
  - change TNumber with [ANumber]. rewrite H; [done|].
    by apply extends_any_array_object.
  - destruct (extends_object t) eqn:Eo; [|done].
    f_equal. apply mapped_ext; intros; by apply H.
Qed.

(** The three aliases are the three instances. *)
Lemma DeepReadonly_rec_deep (n : nat) (T : ty) :
  DeepReadonly_rec n T = deep cfg_readonly n T.
Proof.
  revert T. induction n as [|n IH]; intros T; [done|].
  rewrite deep_S. simpl. unfold distribute. apply flat_map_ext. intros t.
  unfold deep_step, _DeepReadonlyArray, _DeepReadonlyObject. simpl.
  rewrite IH.
  destruct (extends_function t), (extends_any_array t), (extends_object t);
    try done.
  f_equal. apply mapped_ext; intros; apply IH.
Qed.

Lemma DeepRequired_rec_deep (n : nat) (T : ty) :
  DeepRequired_rec n T = deep cfg_required n T.
Proof.
  revert T. induction n as [|n IH]; intros T; [done|].
  rewrite deep_S. simpl. unfold distribute. apply flat_map_ext. intros t.
  unfold deep_step, _DeepRequiredArray, _DeepRequiredObject. simpl.
  rewrite IH.
  destruct (extends_function t), (extends_any_array t), (extends_object t);
    try done.
  f_equal. apply mapped_ext; intros; apply IH.
Qed.

Lemma DeepNonNullable_rec_deep (n : nat) (T : ty) :
  DeepNonNullable_rec n T = deep cfg_non_nullable n T.
Proof.
  revert T. induction n as [|n IH]; intros T; [done|].
  rewrite deep_S. simpl. unfold distribute. apply flat_map_ext. intros t.
  unfold deep_step, _DeepNonNullableArray, _DeepNonNullableObject. simpl.
  rewrite IH.
  destruct (extends_function t), (extends_any_array t), (extends_object t);
    try done.
  f_equal. apply mapped_ext; intros; apply IH.
Qed.

(** Unfolding deeper than the type is changes nothing. *)
Lemma deep_stable (c : deep_cfg) (n m : nat) (T : ty) :
  ty_depth T < n -> ty_depth T < m -> deep c n T = deep c m T.
Proof.
  revert m T. induction n as [|n IH]; intros m T Hn Hm; [lia|].
  destruct m as [|m]; [lia|]. rewrite !deep_S.
  apply flat_map_ext_elem. intros t Ht%depth_le_ty_depth.
  apply deep_step_ext. intros P Hobj.
  pose proof (index_depth t P Hobj).
  pose proof (ty_depth_strip (c_strip c) (index [t] [P])).
  apply IH; lia.
Qed.

Lemma ty_depth_flat_map (f : atom -> ty) (T : ty) :
  (forall t, t ∈ T -> ty_depth (f t) <= depth t) ->
  ty_depth (flat_map f T) <= ty_depth T.
Proof.
  intros H. apply ty_depth_le. intros a [t [Ht Ha]]%elem_of_flat_map.
  apply depth_le_ty_depth in Ha. specialize (H t Ht).
  apply depth_le_ty_depth in Ht. lia.
Qed.

Lemma ty_depth_single (a : atom) : ty_depth [a] = depth a.
Proof. rewrite ty_depth_cons. simpl. lia. Qed.

Lemma ty_depth_map_prop rm om (p : prop ty) (X : ty) :
  ty_depth (p_type (map_prop rm om p X)) <= ty_depth X.
Proof.
  unfold map_prop. simpl.
  destruct (apply_opt om (p_optional p)); [by rewrite ty_depth_add_undefined|].
  destruct (p_optional p); [apply ty_depth_remove_undefined|done].
Qed.

Lemma mapped_depth (rm : ro_mod) (om : opt_mod) (f : atom -> ty) (t : atom) :
  extends_object t = true ->
  (forall P, ty_depth (f P) <= ty_depth (index [t] [P])) ->
  depth (mapped rm om f t) <= depth t.
Proof.
  intros Hobj Hf.
  assert (Hm : depth (AObj (map_imap (fun k p => Some (map_prop rm om p (f (AStrLit k))))
                              (props_of t))) <= depth t).
  { pose proof (extends_object_depth t Hobj).
    transitivity (S (depth t - 1)); [|lia]. apply depth_AObj_le.
    intros k q. rewrite map_lookup_imap.
    destruct (props_of t !! k) as [p|] eqn:E; simpl; [|done].
    intros [= <-]. pose proof (ty_depth_map_prop rm om p (f (AStrLit k))).
    specialize (Hf (AStrLit k)). rewrite index_prop, E in Hf. simpl in Hf.
    apply props_of_depth in E. lia. }
  specialize (Hf ANumber). change [ANumber] with TNumber in Hf.
  rewrite index_number in Hf.
  destruct t; try done; simpl in Hf; simpl mapped;
    rewrite ?depth_AArr, ?depth_AIface, ?depth_AIndexed; [|lia|lia].
  destruct om; simpl; [lia|].
  pose proof (ty_depth_remove_undefined (f ANumber)). lia.
Qed.

(** A deep transform does not deepen a type. *)
Lemma deep_depth (c : deep_cfg) (n : nat) (T : ty) :
  ty_depth (deep c n T) <= ty_depth T.
Proof.
  revert T. induction n as [|n IH]; intros T; [done|].
  rewrite deep_S. apply ty_depth_flat_map. intros t _.
  assert (Hrec : forall P, ty_depth (deep c n (strip (c_strip c) (index [t] [P])))
                           <= ty_depth (index [t] [P])).
  { intros P. etransitivity; [apply IH|apply ty_depth_strip]. }
  unfold deep_step.
  destruct (extends_function t); [by rewrite ty_depth_single|].
  destruct (extends_any_array t) eqn:Ea.
  - rewrite ty_depth_single, depth_AIface.
    pose proof (index_depth t ANumber (extends_any_array_object t Ea)).
    specialize (Hrec ANumber). change [ANumber] with TNumber in *. lia.
  - destruct (extends_object t) eqn:Eo; rewrite ty_depth_single; [|done].
    by apply mapped_depth.
Qed.

(** ** The deep transforms are idempotent *)

Lemma mapped_structural rm om f (t : atom) :
  extends_object t = true -> structural (mapped rm om f t) = true.
Proof. by destruct t. Qed.

Lemma deep_step_shape (c : deep_cfg) (rec : ty -> ty) (t : atom) :
  exists t', deep_step c rec t = [t']
             /\ (t' = t \/ (structural t' = true /\ extends_object t = true)).
Proof.
  unfold deep_step. destruct (extends_function t); [eauto|].
  destruct (extends_any_array t) eqn:Ea.
  - eexists. split; [done|]. right. split; [done|].
    by apply extends_any_array_object.
  - destruct (extends_object t) eqn:Eo; [|eauto].
    eexists. split; [done|]. right. split; [|done].
    by apply mapped_structural.
Qed.

Lemma keep_structural (sk : strip_kind) (a : atom) :
  structural a = true -> keep sk a = true.
Proof. destruct a, sk; done. Qed.

Lemma extends_object_not_undefined (t : atom) :
  extends_object t = true -> is_undefined_or_void t = false.
Proof. by destruct t. Qed.

Lemma structural_not_undefined (t : atom) :
  structural t = true -> is_undefined_or_void t = false.
Proof. by destruct t. Qed.

Lemma strip_clean (sk : strip_kind) (T : ty) : clean sk T -> strip sk T = T.
Proof. intros H. rewrite strip_filter. by apply filter_all. Qed.

Lemma clean_strip (sk : strip_kind) (T : ty) : clean sk (strip sk T).
Proof. intros a. rewrite strip_filter. by intros [_ ?]%elem_of_filter'. Qed.

Lemma remove_undefined_idem (T : ty) :
  remove_undefined (remove_undefined T) = remove_undefined T.
Proof. apply filter_filter_same. Qed.

Lemma elem_of_remove_undefined (a : atom) (T : ty) :
  a ∈ remove_undefined T <-> a ∈ T /\ is_undefined_or_void a = false.
Proof.
  unfold remove_undefined. rewrite elem_of_filter', negb_true_iff. done.
Qed.

Lemma clean_remove_undefined (sk : strip_kind) (T : ty) :
  clean sk T -> clean sk (remove_undefined T).
Proof. intros H a [Ha _]%elem_of_remove_undefined. by apply H. Qed.

Lemma strip_remove_undefined (sk : strip_kind) (T : ty) :
  strip sk (remove_undefined T) = remove_undefined (strip sk T).
Proof. rewrite !strip_filter. apply filter_comm. Qed.

(** A type without [void] loses nothing but [undefined], which [strip]
    has taken away already. *)
Lemma remove_undefined_clean (sk : strip_kind) (T : ty) :
  sk <> StripNone -> clean sk T -> AVoid ∉ T -> remove_undefined T = T.
Proof.
  intros Hsk H Hv. apply filter_all. intros a Ha. specialize (H a Ha).
  destruct a; try done; by destruct sk.
Qed.

Lemma deep_clean (c : deep_cfg) (sk : strip_kind) (n : nat) (T : ty) :
  clean sk T -> clean sk (deep c n T).
Proof.
  destruct n as [|n]; [done|]. rewrite deep_S.
  intros H a [t [Ht Ha]]%elem_of_flat_map.
  destruct (deep_step_shape c (deep c n) t) as [t' [E [->|[Hs _]]]];
    rewrite E in Ha; apply list_elem_of_singleton in Ha as ->.
  - by apply H.
  - by apply keep_structural.
Qed.

Lemma deep_app (c : deep_cfg) (n : nat) (X Y : ty) :
  deep c n (X ++ Y) = deep c n X ++ deep c n Y.
Proof. destruct n; [done|]. rewrite !deep_S. apply flat_map_app. Qed.

Lemma deep_undefined_or_void (c : deep_cfg) (n : nat) (T : ty) :
  existsb is_undefined_or_void (deep c n T) = existsb is_undefined_or_void T.
Proof.
  destruct n as [|n]; [done|]. rewrite deep_S.
  induction T as [|t T IH]; [done|]. simpl. rewrite existsb_app, IH. f_equal.
  destruct (deep_step_shape c (deep c n) t) as [t' [E [->|[Hs Ho]]]];
    rewrite E; simpl; rewrite orb_false_r; [done|].
  by rewrite structural_not_undefined, extends_object_not_undefined.
Qed.

Lemma deep_add_undefined (c : deep_cfg) (n : nat) (T : ty) :
  deep c n (add_undefined T) = add_undefined (deep c n T).
Proof.
  unfold add_undefined. rewrite deep_undefined_or_void.
  destruct (existsb is_undefined_or_void T); [done|].
  rewrite deep_app. f_equal. by destruct n.
Qed.

Lemma deep_remove_undefined (c : deep_cfg) (n : nat) (T : ty) :
  deep c n (remove_undefined T) = remove_undefined (deep c n T).
Proof.
  destruct n as [|n]; [done|]. rewrite !deep_S. unfold remove_undefined.
  induction T as [|t T IH]; [done|].
  cbn [flat_map]. rewrite List.filter_app, <- IH. cbn [List.filter].
  destruct (deep_step_shape c (deep c n) t) as [t' [E [->|[Hs Ho]]]].
  - rewrite E. simpl. destruct (is_undefined_or_void t); [done|].
    simpl. by rewrite E.
  - rewrite (extends_object_not_undefined t Ho). simpl. rewrite E. simpl.
    by rewrite (structural_not_undefined t' Hs).
Qed.

Lemma add_undefined_idem (T : ty) :
  add_undefined (add_undefined T) = add_undefined T.
Proof.
  unfold add_undefined at 2. destruct (existsb _ T) eqn:E.
  - unfold add_undefined. by rewrite E.
  - unfold add_undefined. rewrite existsb_app. simpl.
    by rewrite orb_true_r, E.
Qed.

Lemma flat_map_single {A B} (f : A -> list B) (x : A) : flat_map f [x] = f x.
Proof. simpl. apply app_nil_r. Qed.

Section DeepStep.
Variable c : deep_cfg.
Variable rec : ty -> ty.

Lemma deep_step_function (t : atom) :
  extends_function t = true -> deep_step c rec t = [t].
Proof. intros E. unfold deep_step. by rewrite E. Qed.

Lemma deep_step_leaf (t : atom) :
  extends_object t = false -> deep_step c rec t = [t].
Proof.
  intros E. unfold deep_step. rewrite E.
  destruct (extends_function t); [done|].
  destruct (extends_any_array t) eqn:Ea; [|done].
  apply extends_any_array_object in Ea. congruence.
Qed.

Lemma deep_step_any_array (t : atom) :
  extends_function t = false -> extends_any_array t = true ->
  deep_step c rec t
  = [AIface (c_readonly_array c)
       (rec (strip (c_strip c) (default never (elem_type t))))].
Proof.
  intros Ef Ea. unfold deep_step. by rewrite Ef, Ea, index_number.
Qed.

Lemma deep_step_array (e : ty) :
  deep_step c rec (AArr false e)
  = [AIface (c_readonly_array c) (rec (strip (c_strip c) e))].
Proof. by rewrite deep_step_any_array. Qed.

Lemma deep_step_iface (e : ty) :
  deep_step c rec (AIface false e)
  = [AIface (c_readonly_array c) (rec (strip (c_strip c) e))].
Proof. by rewrite deep_step_any_array. Qed.

Lemma deep_step_readonly_array (e : ty) :
  deep_step c rec (AArr true e)
  = [AArr true (map_elem (c_opt c) (rec (strip (c_strip c) e)))].
Proof.
  unfold deep_step. simpl extends_function. simpl extends_any_array.
  simpl extends_object. cbv iota. unfold mapped.
  change [ANumber] with TNumber. rewrite index_number. simpl default.
  by destruct (c_ro c).
Qed.

Lemma deep_step_readonly_iface (e : ty) :
  deep_step c rec (AIface true e)
  = [AIndexed (index_ro (c_ro c)) (rec (strip (c_strip c) e))].
Proof.
  unfold deep_step. simpl extends_function. simpl extends_any_array.
  simpl extends_object. cbv iota. unfold mapped.
  change [ANumber] with TNumber. by rewrite index_number.
Qed.

Lemma deep_step_indexed ro (e : ty) :
  deep_step c rec (AIndexed ro e)
  = [AIndexed (index_ro (c_ro c)) (rec (strip (c_strip c) e))].
Proof.
  unfold deep_step. simpl extends_function. simpl extends_any_array.
  simpl extends_object. cbv iota. unfold mapped.
  change [ANumber] with TNumber. by rewrite index_number.
Qed.

Lemma deep_step_props (t : atom) :
  extends_function t = false -> extends_any_array t = false ->
  extends_object t = true -> array_like t = false ->
  deep_step c rec t
  = [AObj (map_imap (fun _ p => Some (map_prop (c_ro c) (c_opt c) p
                                        (rec (strip (c_strip c) (p_type p)))))
             (props_of t))].
Proof.
  intros Ef Ea Eo Ee. unfold deep_step. rewrite Ef, Ea, Eo.
  assert (Hm : forall f,
    mapped (c_ro c) (c_opt c) f t
    = AObj (map_imap (fun k p => Some (map_prop (c_ro c) (c_opt c) p (f (AStrLit k))))
              (props_of t))).
  { intros f. by destruct t. }
  rewrite Hm. do 2 f_equal. apply map_eq. intros k. rewrite !map_lookup_imap.
  destruct (props_of t !! k) as [p|] eqn:Ek; [|done].
  cbn -[index strip map_prop]. by rewrite index_prop, Ek.
Qed.

Lemma deep_step_object (m : gmap string (prop ty)) :
  deep_step c rec (AObj m)
  = [AObj (map_imap (fun _ p => Some (map_prop (c_ro c) (c_opt c) p
                                        (rec (strip (c_strip c) (p_type p)))))
             m)].
Proof. by rewrite deep_step_props. Qed.

End DeepStep.

(** The members that the object branch of a deep transform meets. *)
Lemma object_cases (t : atom) :
  extends_any_array t = false -> extends_function t = false ->
  extends_object t = true ->
  (exists e, t = AArr true e) \/ (exists e, t = AIface true e)
  \/ (exists ro e, t = AIndexed ro e) \/ array_like t = false.
Proof.
  destruct t; try done; try (by right; right; right); simpl.
  - intros ->%negb_false_iff _ _. left. by eexists.
  - intros ->%negb_false_iff _ _. right. left. by eexists.
  - intros _ _ _. right. right. left. by do 2 eexists.
Qed.

Lemma any_array_mutable (t : atom) :
  extends_any_array t = true -> extends_function t = false ->
  no_mutable_array t = false.
Proof.
  intros Ea Ef. destruct t; try done.
  - simpl in *. apply negb_true_iff in Ea. by rewrite Ea.
  - simpl in *. apply negb_true_iff in Ea. by rewrite Ea.
  - cbn [no_mutable_array].
    by rewrite Ef, (extends_any_array_object (AInter parts) Ea).
Qed.

Lemma no_mutable_array_strip (sk : strip_kind) (X : ty) :
  forallb no_mutable_array X = true ->
  forallb no_mutable_array (strip sk X) = true.
Proof.
  rewrite strip_filter, !forallb_spec.
  intros H a [Ha _]%elem_of_filter'. by apply H.
Qed.

Lemma map_prop_idem (rm : ro_mod) (om : opt_mod) (p : prop ty) (Z : ty)
    (f : ty -> ty) :
  (p_optional p = true -> om = OptKeep ->
   f (add_undefined Z) = add_undefined Z) ->
  (om = OptRemove -> f (remove_undefined Z) = remove_undefined Z) ->
  f Z = Z ->
  map_prop rm om (map_prop rm om p Z) (f (p_type (map_prop rm om p Z)))
  = map_prop rm om p Z.
Proof.
  intros Ha Hu Hf. unfold map_prop. simpl.
  destruct rm, om, (p_optional p); simpl;
    rewrite ?(Hu eq_refl), ?(Ha eq_refl eq_refl), ?Hf, ?add_undefined_idem;
    done.
Qed.

(** A second step changes nothing, unless the first has wrapped an array
    in an interface that the second does not take for an array: a
    transform whose interface extends [ReadonlyArray], applied to an array
    that can be written to. *)
Lemma deep_step_idem (c : deep_cfg) (n : nat) (t : atom) :
  standard c ->
  (forall X, ty_depth X < n ->
     c_readonly_array c = false \/ forallb no_mutable_array X = true ->
     deep c n (deep c n X) = deep c n X) ->
  depth t <= n ->
  c_readonly_array c = false \/ no_mutable_array t = true ->
  deep c (S n) (deep_step c (deep c n) t) = deep_step c (deep c n) t.
Proof.
  intros Hc IH Hd Ht. rewrite deep_S.
  set (sk := c_strip c). set (rec := deep c n).
  assert (Hrec : forall X, ty_depth X < depth t ->
            c_readonly_array c = false \/ forallb no_mutable_array X = true ->
            strip sk (rec (strip sk X)) = rec (strip sk X)
            /\ rec (rec (strip sk X)) = rec (strip sk X)
            /\ rec (strip sk (remove_undefined (rec (strip sk X))))
               = remove_undefined (rec (strip sk X))).
  { intros X HX HmX.
    assert (Hclean : clean sk (rec (strip sk X))) by apply deep_clean, clean_strip.
    assert (Hr : rec (rec (strip sk X)) = rec (strip sk X)).
    { apply IH; [pose proof (ty_depth_strip sk X); lia|].
      destruct HmX as [?|HmX]; [by left|right].
      by apply no_mutable_array_strip. }
    split; [by apply strip_clean|]. split; [done|].
    rewrite strip_remove_undefined, strip_clean by done.
    unfold rec at 1. rewrite deep_remove_undefined. fold rec. by rewrite Hr. }
  destruct (extends_function t) eqn:Ef.
  { rewrite deep_step_function by done. rewrite flat_map_single.
    by apply deep_step_function. }
  destruct (extends_any_array t) eqn:Ea.
  { destruct Ht as [Er|Ht]; [|by rewrite any_array_mutable in Ht].
    rewrite (deep_step_any_array c rec t) by done. rewrite flat_map_single.
    fold sk. rewrite Er.
    destruct (Hrec (default never (elem_type t))) as (Hs & Hr & _).
    { destruct (elem_type t) eqn:E; simpl; [by apply elem_type_depth|].
      apply extends_object_depth. by apply extends_any_array_object. }
    { by left. }
    rewrite deep_step_iface, Er. fold sk. by rewrite Hs, Hr. }
  destruct (extends_object t) eqn:Eo;
    [|rewrite deep_step_leaf by done; rewrite flat_map_single;
      by apply deep_step_leaf].
  destruct (object_cases t Ea Ef Eo)
    as [[e ->]|[[e ->]|[(ro & e & ->)|Hne]]].
  { rewrite deep_step_readonly_array, flat_map_single, deep_step_readonly_array.
    fold sk. destruct (Hrec e) as (Hs & Hr & Hu).
    { rewrite depth_AArr. lia. }
    { destruct Ht as [?|Ht]; [by left|by right]. }
    destruct (c_opt c); simpl; [by rewrite Hs, Hr|].
    by rewrite Hu, remove_undefined_idem. }
  { rewrite deep_step_readonly_iface, flat_map_single, deep_step_indexed.
    fold sk. destruct (Hrec e) as (Hs & Hr & _).
    { rewrite depth_AIface. lia. }
    { destruct Ht as [?|Ht]; [by left|by right]. }
    by rewrite Hs, Hr. }
  { rewrite deep_step_indexed, flat_map_single, deep_step_indexed.
    fold sk. destruct (Hrec e) as (Hs & Hr & _).
    { rewrite depth_AIndexed. lia. }
    { destruct Ht as [?|Ht]; [by left|by right]. }
    by rewrite Hs, Hr. }
  rewrite (deep_step_props c rec t) by done.
  rewrite flat_map_single, deep_step_object. fold sk. do 2 f_equal.
  apply map_eq. intros k. rewrite !map_lookup_imap.
  destruct (props_of t !! k) as [p|] eqn:Ek; [|done].
  cbn -[strip map_prop]. f_equal.
  destruct (Hrec (p_type p)) as (Hs & Hr & Hu).
  { by apply props_of_depth in Ek. }
  { destruct Ht as [?|Ht]; [by left|right].
    destruct t; try done.
    - simpl in Ht, Ek. rewrite map_all_spec in Ht. by apply (Ht k).
    - cbn [no_mutable_array] in Ht. by rewrite Ef, Eo in Ht. }
  apply (map_prop_idem _ _ _ _ (fun X => rec (strip sk X))); [| |].
  - intros _ Ho. unfold standard in Hc. fold sk in Hc. rewrite Ho in Hc.
    destruct sk eqn:Esk; [|done|done]. simpl strip in *.
    unfold rec at 1. rewrite deep_add_undefined. fold rec. by rewrite Hr.
  - done.
  - by rewrite Hs, Hr.
Qed.

Lemma deep_flat_map (c : deep_cfg) (n : nat) (f : atom -> ty) (T : ty) :
  deep c n (flat_map f T) = flat_map (fun t => deep c n (f t)) T.
Proof.
  induction T as [|t T IH]; [by destruct n|].
  simpl. by rewrite deep_app, IH.
Qed.

Lemma deep_idem (c : deep_cfg) (n : nat) (T : ty) :
  standard c -> ty_depth T < n ->
  c_readonly_array c = false \/ forallb no_mutable_array T = true ->
  deep c n (deep c n T) = deep c n T.
Proof.
  intros Hc. revert T. induction n as [|n IH]; intros T Hd HT; [lia|].
  rewrite (deep_S c n T), deep_flat_map.
  apply flat_map_ext_elem. intros t Ht.
  pose proof (depth_le_ty_depth _ _ Ht).
  apply deep_step_idem; [done|done|lia|].
  destruct HT as [?|HT]; [by left|right].
  by apply (proj1 (forallb_spec _ _) HT).
Qed.

Lemma DeepReadonly_deep (T : ty) : DeepReadonly T = deep_full cfg_readonly T.
Proof. apply DeepReadonly_rec_deep. Qed.

Lemma DeepRequired_deep (T : ty) : DeepRequired T = deep_full cfg_required T.
Proof. apply DeepRequired_rec_deep. Qed.

Lemma DeepNonNullable_deep (T : ty) :
  DeepNonNullable T = deep_full cfg_non_nullable T.
Proof. apply DeepNonNullable_rec_deep. Qed.

Lemma deep_full_stable (c : deep_cfg) (n : nat) (T : ty) :
  ty_depth T < n -> deep c n T = deep_full c T.
Proof. intros H. apply deep_stable; [done|lia]. Qed.

Lemma deep_full_idem (c : deep_cfg) (T : ty) :
  standard c ->
  c_readonly_array c = false \/ forallb no_mutable_array T = true ->
  deep_full c (deep_full c T) = deep_full c T.
Proof.
  intros Hc HT. unfold deep_full at 1.
  rewrite (deep_stable c _ (S (ty_depth T))).
  - by apply deep_idem; [|lia|].
  - lia.
  - pose proof (deep_depth c (S (ty_depth T)) T). unfold deep_full. lia.
Qed.

(** The recursive equation of a deep transform, free of the unfolding
    bound. *)
Lemma deep_full_unfold (c : deep_cfg) (T : ty) :
  deep_full c T = flat_map (deep_step c (deep_full c)) T.
Proof.
  unfold deep_full at 1. rewrite deep_S.
  apply flat_map_ext_elem. intros t Ht%depth_le_ty_depth.
  apply deep_step_ext. intros P Hobj. apply deep_full_stable.
  pose proof (index_depth t P Hobj).
  pose proof (ty_depth_strip (c_strip c) (index [t] [P])). lia.
Qed.

Lemma deep_full_scheme (c : deep_cfg) : recursion_scheme c (deep_full c).
Proof.
  repeat split.
  - intros A B. rewrite !(deep_full_unfold c). apply flat_map_app.
  - intros t Ht. rewrite deep_full_unfold, flat_map_single.
    by apply deep_step_function.
  - intros t Ht. rewrite deep_full_unfold, flat_map_single.
    by apply deep_step_leaf.
  - intros e. unfold TArray.
    by rewrite deep_full_unfold, flat_map_single, deep_step_array.
  - intros e. unfold TReadonlyArray.
    by rewrite deep_full_unfold, flat_map_single, deep_step_readonly_array.
  - intros m. unfold TObj.
    by rewrite deep_full_unfold, flat_map_single, deep_step_object.
Qed.

Lemma recursion_scheme_ext (c : deep_cfg) (D D' : ty -> ty) :
  (forall T, D' T = D T) -> recursion_scheme c D -> recursion_scheme c D'.
Proof.
  intros H (H1 & H2 & H3 & H4 & H5 & H6). repeat split; intros.
  - by rewrite !H, H1.
  - by rewrite !H, H2.
  - by rewrite !H, H3.
  - by rewrite !H, H4.
  - by rewrite !H, H5.
  - rewrite !H, H6. apply (f_equal TObj). apply map_eq. intros k.
    rewrite !map_lookup_imap. destruct (m !! k); simpl; [|done]. by rewrite H.
Qed.

(** ** Function types under a deep transform *)

Lemma flat_map_filter_nil {A B} (p : A -> bool) (f : A -> list B) (l : list A) :
  (forall x, p x = false -> f x = []) ->
  flat_map f (List.filter p l) = flat_map f l.
Proof.
  intros H. induction l as [|x l IH]; [done|]. simpl.
  destruct (p x) eqn:E; simpl; rewrite IH; [done|]. by rewrite (H x E).
Qed.

Lemma sim_flat_map (f g : atom -> ty) (T : ty) :
  (forall t, t ∈ T -> sim (f t) (g t)) -> sim (flat_map f T) (flat_map g T).
Proof.
  intros H. unfold sim. rewrite !filter_flat_map. by apply flat_map_ext_elem.
Qed.

Lemma sim_trans (X Y Z : ty) : sim X Y -> sim Y Z -> sim X Z.
Proof. unfold sim. congruence. Qed.

Lemma sim_filter (p : atom -> bool) (X : ty) :
  (forall a, a ∈ X -> p a = false -> nullish a = true) ->
  sim (List.filter p X) X.
Proof.
  intros H. unfold sim. induction X as [|a X IH]; [done|]. simpl.
  assert (IH' : List.filter (fun a => negb (nullish a)) (List.filter p X)
                = List.filter (fun a => negb (nullish a)) X).
  { apply IH. intros b Hb. apply H. by right. }
  destruct (p a) eqn:E; simpl; rewrite IH'; [done|].
  by rewrite (H a (list_elem_of_here _ _) E).
Qed.

Lemma sim_remove_undefined (X : ty) : sim (remove_undefined X) X.
Proof.
  apply sim_filter. intros a _. by destruct a.
Qed.

Lemma sim_add_undefined (X : ty) : sim (add_undefined X) X.
Proof.
  unfold add_undefined. destruct (existsb _ X); [done|].
  unfold sim. rewrite List.filter_app. simpl. apply app_nil_r.
Qed.

Lemma plain_keep (sk : strip_kind) (a : atom) :
  plain a = true -> keep sk a = false -> nullish a = true.
Proof. destruct a, sk; try done. Qed.

Lemma sim_strip (sk : strip_kind) (X : ty) :
  plain_ty X = true -> sim (strip sk X) X.
Proof.
  intros HX. rewrite strip_filter. apply sim_filter. intros a Ha.
  apply plain_keep. by apply (proj1 (forallb_spec _ _) HX).
Qed.

Lemma step_into_sim (X Y : ty) (s : seg) :
  sim X Y -> step_into X s = step_into Y s.
Proof.
  assert (H : forall Z, step_into (List.filter (fun a => negb (nullish a)) Z) s
                        = step_into Z s).
  { intros Z. destruct s; apply flat_map_filter_nil; intros a Ha;
      by destruct a. }
  intros E. rewrite <- (H X), <- (H Y). by rewrite E.
Qed.

Lemma functions_sim (X Y : ty) : sim X Y -> functions X = functions Y.
Proof.
  assert (H : forall Z, functions (List.filter (fun a => negb (nullish a)) Z)
                        = functions Z).
  { intros Z. unfold functions. induction Z as [|a Z IH]; [done|]. simpl.
    destruct (nullish a) eqn:E; simpl; rewrite IH; [|done]. by destruct a. }
  intros E. rewrite <- (H X), <- (H Y). by rewrite E.
Qed.

Lemma reach_sim (X Y : ty) (path : list seg) :
  sim X Y -> functions (reach X path) = functions (reach Y path).
Proof.
  intros E. destruct path as [|s path]; [by apply functions_sim|].
  simpl. by rewrite (step_into_sim X Y s E).
Qed.

Lemma step_into_flat_map (f : atom -> ty) (T : ty) (s : seg) :
  step_into (flat_map f T) s = flat_map (fun t => step_into (f t) s) T.
Proof.
  induction T as [|t T IH]; [by destruct s|]. simpl. rewrite <- IH.
  destruct s; apply flat_map_app.
Qed.

Lemma step_into_single (t : atom) (s : seg) :
  step_into [t] s
  = match s with
    | Field k => from_option p_type never (props_of t !! k)
    | Element => default never (elem_type t)
    end.
Proof. destruct s; simpl; apply app_nil_r. Qed.

Section DeepFunctions.
Variable c : deep_cfg.

Lemma deep_full_nil : deep_full c [] = [].
Proof. reflexivity. Qed.

Lemma deep_full_flat_map (f : atom -> ty) (T : ty) :
  deep_full c (flat_map f T) = flat_map (fun t => deep_full c (f t)) T.
Proof.
  induction T as [|t T IH]; [done|]. simpl.
  destruct (deep_full_scheme c) as (Hu & _). unfold union in Hu.
  by rewrite Hu, IH.
Qed.

Lemma deep_step_nullish (rec : ty -> ty) (t : atom) :
  List.filter (fun a => negb (nullish a)) (deep_step c rec t)
  = if nullish t then [] else deep_step c rec t.
Proof.
  destruct (deep_step_shape c rec t) as [t' [E [->|[Hs Ho]]]]; rewrite E; simpl.
  - by destruct (nullish t).
  - assert (nullish t' = false) as -> by (by destruct t').
    assert (nullish t = false) as -> by (by destruct t). done.
Qed.

Lemma deep_full_sim (X Y : ty) :
  sim X Y -> sim (deep_full c X) (deep_full c Y).
Proof.
  assert (H : forall Z,
    List.filter (fun a => negb (nullish a)) (deep_full c Z)
    = flat_map (deep_step c (deep_full c))
        (List.filter (fun a => negb (nullish a)) Z)).
  { intros Z. rewrite deep_full_unfold, filter_flat_map.
    induction Z as [|a Z IH]; [done|]. simpl.
    rewrite IH, deep_step_nullish. by destruct (nullish a). }
  intros E. unfold sim. by rewrite !H, E.
Qed.

Lemma plain_step_into (T : ty) (s : seg) :
  plain_ty T = true -> plain_ty (step_into T s) = true.
Proof.
  intros HT. apply forallb_spec. intros a Ha.
  assert (exists t, t ∈ T /\ a ∈ step_into [t] s) as [t [Ht Hat]].
  { destruct s; simpl in *; apply elem_of_flat_map in Ha as [t [Ht Ha]];
      exists t; by rewrite app_nil_r. }
  apply (proj1 (forallb_spec _ _) HT) in Ht.
  rewrite step_into_single in Hat. destruct s.
  - destruct (props_of t !! k) as [p|] eqn:Ek; [|by inversion Hat].
    simpl in Hat. destruct t; simpl in Ek; rewrite ?lookup_empty in Ek;
      try done.
    simpl in Ht. rewrite map_all_spec in Ht.
    by apply (proj1 (forallb_spec _ _) (Ht k p Ek)).
  - destruct (elem_type t) as [e|] eqn:Ee; [|by inversion Hat].
    simpl in Hat. destruct t; try done. simpl in Ee, Ht.
    injection Ee as ->. by apply (proj1 (forallb_spec _ _) Ht).
Qed.

(** Stepping into a transformed type reaches the transform of what the
    step reaches in the type, up to [null] and [undefined]. *)
Lemma step_into_deep_full (T : ty) (s : seg) :
  plain_ty T = true ->
  sim (step_into (deep_full c T) s) (deep_full c (step_into T s)).
Proof.
  intros HT.
  assert (Hg : step_into T s = flat_map (fun t => step_into [t] s) T).
  { destruct s; simpl; apply flat_map_ext; intros; by rewrite app_nil_r. }
  rewrite Hg, deep_full_flat_map, deep_full_unfold, step_into_flat_map.
  apply sim_flat_map. intros t Ht.
  apply (proj1 (forallb_spec _ _) HT) in Ht.
  assert (Hleaf : forall t', deep_step c (deep_full c) t' = [t'] ->
            step_into [t'] s = [] ->
            sim (step_into (deep_step c (deep_full c) t') s)
              (deep_full c (step_into [t'] s))).
  { intros t' -> ->. done. }
  assert (Hrec : forall X, plain_ty X = true ->
            sim (deep_full c (strip (c_strip c) X)) (deep_full c X)).
  { intros X HX. by apply deep_full_sim, sim_strip. }
  destruct t; try (apply Hleaf; [by apply deep_step_leaf|by destruct s]).
  - apply Hleaf; [by apply deep_step_function|by destruct s].
  - simpl in Ht. destruct readonly.
    + rewrite deep_step_readonly_array, !step_into_single.
      destruct s; simpl; [done|].
      eapply sim_trans; [|by apply Hrec].
      destruct (c_opt c); simpl; [done|]. apply sim_remove_undefined.
    + rewrite deep_step_array, !step_into_single.
      destruct s; simpl; [done|]. by apply Hrec.
  - rewrite deep_step_object, !step_into_single.
    destruct s; simpl; [|done]. rewrite map_lookup_imap.
    destruct (props !! k) as [p|] eqn:Ek; simpl; [|done].
    simpl in Ht. rewrite map_all_spec in Ht. specialize (Ht k p Ek).
    eapply sim_trans; [|by apply Hrec].
    destruct (apply_opt (c_opt c) (p_optional p)); [apply sim_add_undefined|].
    destruct (p_optional p); [apply sim_remove_undefined|done].
Qed.

Lemma functions_deep_full (T : ty) :
  functions (deep_full c T) = functions T.
Proof.
  rewrite deep_full_unfold. unfold functions. rewrite filter_flat_map.
  induction T as [|t T IH]; [done|]. simpl. rewrite IH.
  destruct (extends_function t) eqn:Ef.
  - rewrite deep_step_function by done. simpl. by rewrite Ef.
  - destruct (deep_step_shape c (deep_full c) t) as [t' [E [->|[Hs _]]]];
      rewrite E; simpl.
    + by rewrite Ef.
    + assert (extends_function t' = false) as -> by (by destruct t'). done.
Qed.

Lemma functions_reach_deep_full (path : list seg) (T : ty) :
  plain_ty T = true ->
  functions (reach (deep_full c T) path) = functions (reach T path).
Proof.
  revert T. induction path as [|s path IH]; intros T HT.
  - apply functions_deep_full.
  - simpl. change (foldl step_into ?X path) with (reach X path).
    rewrite (reach_sim _ _ path (step_into_deep_full T s HT)).
    apply IH. by apply plain_step_into.
Qed.

End DeepFunctions.

(** ** Every depth of a transformed type *)

Lemma keep_not_banned (sk : strip_kind) (a : atom) :
  keep sk a = true -> banned sk a = false.
Proof. unfold banned. by intros ->. Qed.

Lemma deeply_function ro req sk (t : atom) :
  extends_function t = true -> deeply ro req sk t = true.
Proof. destruct t; try done. simpl. by intros ->. Qed.

Lemma deeply_leaf ro req sk (t : atom) :
  extends_object t = false -> deeply ro req sk t = true.
Proof.
  destruct t; try done. intros H. cbn [deeply]. rewrite H.
  apply orb_true_r.
Qed.

Section Deeply.
Variable c : deep_cfg.
Variables ro req : bool.
Hypothesis c_standard : standard c.
Hypothesis ro_array : ro = true -> c_readonly_array c = true.
Hypothesis ro_props : ro = true -> c_ro c = RoAdd.
Hypothesis req_props : req = true -> c_opt c = OptRemove.

Lemma ok_deep_full (X : ty) :
  forallb (deeply ro req (c_strip c)) (deep_full c (strip (c_strip c) X))
  = true ->
  forallb (deeply_in ro req (c_strip c)) (deep_full c (strip (c_strip c) X))
  = true.
Proof.
  rewrite !forallb_spec. intros H x Hx. unfold deeply_in.
  rewrite (H x Hx), andb_true_r. apply negb_true_iff, keep_not_banned.
  revert x Hx. apply deep_clean, clean_strip.
Qed.

Lemma ok_map_elem (X : ty) :
  forallb (deeply_in ro req (c_strip c)) X = true ->
  forallb (deeply_in ro req (c_strip c)) (map_elem (c_opt c) X) = true.
Proof.
  rewrite !forallb_spec. intros H x Hx. apply H.
  destruct (c_opt c); [done|].
  simpl in Hx. by apply elem_of_remove_undefined in Hx as [Hx _].
Qed.

Lemma ok_map_prop (p : prop ty) (X : ty) :
  forallb (deeply_in ro req (c_strip c)) X = true ->
  forallb (deeply_in ro req (c_strip c))
    (p_type (map_prop (c_ro c) (c_opt c) p X)) = true.
Proof.
  rewrite !forallb_spec. intros H x Hx. unfold map_prop in Hx. simpl in Hx.
  destruct (apply_opt (c_opt c) (p_optional p)) eqn:Eo.
  - unfold add_undefined in Hx.
    destruct (existsb is_undefined_or_void X); [by apply H|].
    apply elem_of_app in Hx as [Hx|Hx]; [by apply H|].
    apply list_elem_of_singleton in Hx as ->.
    unfold deeply_in. pose proof c_standard as Hs. unfold standard in Hs.
    destruct (c_opt c); [|done]. by destruct (c_strip c).
  - destruct (p_optional p); [|by apply H].
    apply H. by apply elem_of_remove_undefined in Hx as [Hx _].
Qed.

Lemma implb_ro_array : implb ro (c_readonly_array c) = true.
Proof. destruct ro; [|done]. by rewrite ro_array. Qed.

Lemma implb_ro_props (r : bool) : implb ro (apply_ro (c_ro c) r) = true.
Proof. destruct ro; [|done]. by rewrite ro_props. Qed.

Lemma implb_ro_index : implb ro (index_ro (c_ro c)) = true.
Proof. destruct ro; [|done]. by rewrite ro_props. Qed.

Lemma implb_req_props (o : bool) :
  implb req (negb (apply_opt (c_opt c) o)) = true.
Proof. destruct req; [|done]. by rewrite req_props. Qed.

Lemma deeply_deep_full (n : nat) (T : ty) :
  ty_depth T < n ->
  forallb (deeply ro req (c_strip c)) (deep_full c T) = true.
Proof.
  revert T. induction n as [|n IH]; intros T Hn; [lia|].
  rewrite deep_full_unfold, forallb_spec.
  intros x [t [Ht Hx]]%elem_of_flat_map.
  pose proof (depth_le_ty_depth _ _ Ht) as Hd.
  assert (Hrec : forall X, ty_depth X < depth t ->
            forallb (deeply_in ro req (c_strip c))
              (deep_full c (strip (c_strip c) X)) = true).
  { intros X HX. apply ok_deep_full, IH.
    pose proof (ty_depth_strip (c_strip c) X). lia. }
  destruct (extends_function t) eqn:Ef.
  { rewrite deep_step_function in Hx by done.
    apply list_elem_of_singleton in Hx as ->. by apply deeply_function. }
  destruct (extends_any_array t) eqn:Ea.
  { rewrite deep_step_any_array in Hx by done.
    apply list_elem_of_singleton in Hx as ->.
    cbn [deeply]. rewrite implb_ro_array. simpl.
    pose proof (extends_object_depth t (extends_any_array_object t Ea)).
    apply Hrec. destruct (elem_type t) as [e|] eqn:Ee; simpl.
    - by apply elem_type_depth.
    - done. }
  destruct (extends_object t) eqn:Eo.
  2:{ rewrite deep_step_leaf in Hx by done.
      apply list_elem_of_singleton in Hx as ->. by apply deeply_leaf. }
  destruct (object_cases t Ea Ef Eo)
    as [[e ->]|[[e ->]|[(r & e & ->)|Hna]]].
  { rewrite deep_step_readonly_array in Hx.
    apply list_elem_of_singleton in Hx as ->.
    cbn [deeply]. replace (implb ro true) with true by by destruct ro.
    simpl. apply ok_map_elem, Hrec. rewrite depth_AArr. lia. }
  { rewrite deep_step_readonly_iface in Hx.
    apply list_elem_of_singleton in Hx as ->.
    cbn [deeply]. rewrite implb_ro_index. simpl.
    apply Hrec. rewrite depth_AIface. lia. }
  { rewrite deep_step_indexed in Hx.
    apply list_elem_of_singleton in Hx as ->.
    cbn [deeply]. rewrite implb_ro_index. simpl.
    apply Hrec. rewrite depth_AIndexed. lia. }
  rewrite deep_step_props in Hx by done.
  apply list_elem_of_singleton in Hx as ->.
  cbn [deeply]. rewrite map_all_spec. intros k q Hq.
  rewrite map_lookup_imap in Hq.
  destruct (props_of t !! k) as [p|] eqn:Ep; [|done].
  simpl in Hq. injection Hq as <-.
  rewrite ok_map_prop by (eapply Hrec, props_of_depth; eauto).
  rewrite andb_true_r. unfold map_prop. cbn [p_readonly p_optional].
  by rewrite implb_ro_props, implb_req_props.
Qed.

End Deeply.

(** What is read-only at every depth has no array that can be written
    to. *)
Lemma deeply_no_mutable_array (n : nat) (a : atom) req sk :
  depth a < n -> deeply true req sk a = true -> no_mutable_array a = true.
Proof.
  revert a. induction n as [|n IH]; intros a Hn; [lia|].
  assert (Hin : forall e : ty, ty_depth e < n ->
            forallb (fun x => negb (banned sk x) && deeply true req sk x) e
            = true ->
            forallb no_mutable_array e = true).
  { intros e He. rewrite !forallb_spec. intros H x Hx.
    specialize (H x Hx). apply andb_true_iff in H as [_ H].
    apply IH; [|done]. pose proof (depth_le_ty_depth _ _ Hx). lia. }
  destruct a as [| | | | | | | | | ps r o|ro e|ro e|ro e|m|ps]; try done;
    cbn [deeply no_mutable_array].
  - intros [Hr He]%andb_true_iff. destruct ro; [|done]. simpl.
    apply Hin; [|done]. rewrite depth_AArr in Hn. lia.
  - intros [Hr He]%andb_true_iff. destruct ro; [|done]. simpl.
    apply Hin; [|done]. rewrite depth_AIface in Hn. lia.
  - intros [Hr He]%andb_true_iff.
    apply Hin; [|done]. rewrite depth_AIndexed in Hn. lia.
  - rewrite !map_all_spec. intros H k p Hp. specialize (H k p Hp).
    apply andb_true_iff in H as [_ H]. apply Hin; [|done].
    pose proof (depth_AObj_lookup _ _ _ Hp). lia.
Qed.

(** [DeepReadonly<T>] leaves no array that can be written to. *)
Lemma no_mutable_array_deep_full (T : ty) :
  forallb no_mutable_array (deep_full cfg_readonly T) = true.
Proof.
  rewrite forallb_spec. intros a Ha.
  apply (deeply_no_mutable_array (S (depth a)) a false StripNone); [lia|].
  revert a Ha. apply forallb_spec.
  by apply (deeply_deep_full cfg_readonly true false)
    with (S (ty_depth T)); [| | | |lia].
Qed.

(** * The claims *)

Import Fixtures.

(** ** Set operators *)

Example SetIntersection_literals :
  SetIntersection OneTwoThree [AStrLit "2"; AStrLit "3"; AStrLit "4"] = TwoThree.
Proof. vm_compute. reflexivity. Qed.

Example SetDifference_literals :
  SetDifference OneTwoThree [AStrLit "2"; AStrLit "3"; AStrLit "4"] = TLit "1".
Proof. vm_compute. reflexivity. Qed.

Example SetComplement_literals : SetComplement OneTwoThree TwoThree = TLit "1".
Proof. vm_compute. reflexivity. Qed.

Example SymmetricDifference_literals :
  SymmetricDifference OneTwoThree [AStrLit "2"; AStrLit "3"; AStrLit "4"]
  = [AStrLit "1"; AStrLit "4"].
Proof. vm_compute. reflexivity. Qed.

Example SetDifference_function :
  SetDifference (union TString (union TNumber [AFun [] None TVoid]))
    [AFun [] None TVoid]
  = union TString TNumber.
Proof. vm_compute. reflexivity. Qed.

Example NonUndefined_literals :
  NonUndefined [AStrLit "1"; AStrLit "2"; AUndefined] = [AStrLit "1"; AStrLit "2"].
Proof. vm_compute. reflexivity. Qed.

Lemma SetComplement_constraint (A A1 : ty) :
  subtype A1 A = true ->
  equivalent (union (SetComplement A A1) A1) A
  /\ SetIntersection (SetComplement A A1) A1 = never.
Proof.
  intros Hsub. unfold SetComplement. repeat split.
  - apply forallb_spec. intros a [Ha|Ha]%elem_of_app.
    + apply elem_of_SetDifference in Ha as [Ha _]. by apply extends_elem.
    + by apply (proj1 (forallb_spec _ _) Hsub).
  - apply forallb_spec. intros a Ha. unfold union. rewrite extends_app.
    destruct (extends a A1) eqn:E; [by rewrite orb_true_r|].
    rewrite orb_false_r. apply extends_elem. by apply elem_of_SetDifference.
  - apply SetIntersection_nil. by intros a [_ Ha]%elem_of_SetDifference.
Qed.

(** C10. For every union type [A] and every [A1] whose members are members
    of [A], [SetComplement<A, A1>] and [A1] partition [A]: their union is
    equivalent to [A] (each is assignable to the other) and no member is on
    both sides: a member of [A] is in the complement exactly when it is not
    assignable to [A1], and [SetIntersection] of the complement and [A1] is
    [never]. *)
Theorem SetComplement_partition (A A1 : ty) :
  (forall a, a ∈ A1 -> a ∈ A) ->
  equivalent (union (SetComplement A A1) A1) A
  /\ (forall a, a ∈ A ->
        (a ∈ SetComplement A A1 <-> extends a A1 = false))
  /\ SetIntersection (SetComplement A A1) A1 = never.
Proof.
  intros Hsub.
  destruct (SetComplement_constraint A A1) as [He Hi].
  { apply forallb_spec. intros a Ha. by apply extends_elem, Hsub. }
  repeat split; try done; try apply He.
  - by intros [_ ?]%elem_of_SetDifference.
  - intros E. by apply elem_of_SetDifference.
Qed.

Lemma SetComplement_partition_witness :
  equivalent (union (SetComplement OneTwoThree TwoThree) TwoThree) OneTwoThree
  /\ (forall a, a ∈ OneTwoThree ->
        (a ∈ SetComplement OneTwoThree TwoThree <-> extends a TwoThree = false))
  /\ SetIntersection (SetComplement OneTwoThree TwoThree) TwoThree = never.
Proof.
  apply (SetComplement_partition OneTwoThree TwoThree).
  intros a Ha. apply elem_of_cons. right. exact Ha.
Defined.

(** ** Object operators *)

Example Diff_Props_NewProps :
  Diff Props NewProps
  = TObj (<["name" := required TString]> (<["visible" := required TBoolean]> ∅)).
Proof. vm_compute. reflexivity. Qed.

Example Subtract_Props_DefaultProps :
  Subtract Props DefaultProps
  = TObj (<["name" := required TString]> (<["visible" := required TBoolean]> ∅)).
Proof. vm_compute. reflexivity. Qed.

Example dollar_Diff_Props_DefaultProps :
  dollar_Diff Props DefaultProps
  = TObj (<["name" := required TString]> (<["visible" := required TBoolean]> ∅)).
Proof. vm_compute. reflexivity. Qed.

Example dollar_Keys_Props :
  dollar_Keys Props ≡ₚ [AStrLit "name"; AStrLit "age"; AStrLit "visible"].
Proof. vm_compute. apply perm_swap. Qed.

Example dollar_Values_Props :
  dollar_Values Props ≡ₚ union TString (union TNumber TBoolean).
Proof. vm_compute. apply perm_swap. Qed.

Example dollar_PropertyType_name : dollar_PropertyType Props (TLit "name") = TString.
Proof. vm_compute. reflexivity. Qed.

Example dollar_ElementType_array :
  dollar_ElementType (TArray TBoolean) TNumber = TBoolean.
Proof. vm_compute. reflexivity. Qed.

Example dollar_NonMaybeType_name :
  dollar_NonMaybeType (union TString TNull) = TString.
Proof. vm_compute. reflexivity. Qed.

Example dollar_ReadOnly_Props :
  dollar_ReadOnly Props
  = TObj (<["name" := MkProp true false TString]>
          (<["age" := MkProp true false TNumber]>
           (<["visible" := MkProp true false TBoolean]> ∅))).
Proof. vm_compute. reflexivity. Qed.

Example Omit_union :
  Omit (union Props NewProps) (TLit "age")
  = union
      (TObj (<["name" := required TString]> (<["visible" := required TBoolean]> ∅)))
      (TObj (<["other" := required TString]> ∅)).
Proof. vm_compute. reflexivity. Qed.

Example Intersection_union :
  Intersection (union Props NewProps) DefaultProps
  = union (TObj (<["age" := required TNumber]> ∅))
      (TObj (<["age" := required TString]> ∅)).
Proof. vm_compute. reflexivity. Qed.

(** C1, as the claim states it, fails for [Diff]: [Diff] of the union
    [Props | NewProps] against [DefaultProps] is the empty object type, not
    the union of [Diff<Props, DefaultProps>] and
    [Diff<NewProps, DefaultProps>]. *)
Lemma Diff_not_distributive :
  Diff (union Props NewProps) DefaultProps = TObj ∅
  /\ union (Diff Props DefaultProps) (Diff NewProps DefaultProps)
     = union
         (TObj (<["name" := required TString]>
                (<["visible" := required TBoolean]> ∅)))
         (TObj (<["other" := required TString]> ∅))
  /\ Diff (union Props NewProps) DefaultProps
     <> union (Diff Props DefaultProps) (Diff NewProps DefaultProps).
Proof.
  split; [by vm_compute|]. split; [by vm_compute|].
  intros H. apply (f_equal length) in H. vm_compute in H. discriminate.
Qed.

(** C1, amended. [Omit] and [Intersection] applied to a union give the
    union of what they give for each member.  [Diff] is applied to the union
    as a whole: it gives one object type, which has the properties that the
    union has (those that every member has, typed by the union of the
    members' types) and whose keys are not assignable to [keyof U]. *)
Theorem union_distribution (T1 T2 K U : ty) :
  Omit (union T1 T2) K = union (Omit T1 K) (Omit T2 K)
  /\ Intersection (union T1 T2) U
     = union (Intersection T1 U) (Intersection T2 U)
  /\ exists m, Diff (union T1 T2) U = TObj m
               /\ forall k, m !! k
                            = if extends (AStrLit k) (keyof U) then None
                              else ty_prop (union T1 T2) k.
Proof.
  repeat split.
  - apply flat_map_app.
  - apply flat_map_app.
  - eexists. split; [reflexivity|]. intros k. apply lookup_pick_difference.
Qed.

(** C5. For object types [T] and [U], [Overwrite<T, U>] is an object type
    with, for each property of [T], [U]'s property of that name when [U]
    has one and [T]'s own otherwise, and with no other property; for the
    fixtures it is [{ name: string; age: string; visible: boolean }]. *)
Theorem Overwrite_spec (t u : gmap string (prop ty)) :
  (exists r, Overwrite (TObj t) (TObj u) = TObj r
             /\ forall k, r !! k = match t !! k, u !! k with
                                   | Some _, Some q => Some q
                                   | Some p, None => Some p
                                   | None, _ => None
                                   end)
  /\ Overwrite Props NewProps
     = TObj (<["name" := required TString]>
             (<["age" := required TString]>
              (<["visible" := required TBoolean]> ∅))).
Proof.
  split; [|by vm_compute].
  eexists. split; [apply Overwrite_objects|].
  intros k. rewrite map_lookup_imap.
  destruct (t !! k), (u !! k); done.
Qed.

(** C6. For object types [T] and [U], [Assign<T, U>] is the shallow merge:
    it has [U]'s property for every name that [U] has and [T]'s property for
    every other name that [T] has; for the fixtures it is
    [{ name: string; age: string; visible: boolean; other: string }]. *)
Theorem Assign_spec (t u : gmap string (prop ty)) :
  (exists r, Assign (TObj t) (TObj u) = TObj r
             /\ forall k, r !! k = match u !! k with
                                   | Some q => Some q
                                   | None => t !! k
                                   end)
  /\ Assign Props NewProps
     = TObj (<["name" := required TString]>
             (<["age" := required TString]>
              (<["visible" := required TBoolean]>
               (<["other" := required TString]> ∅)))).
Proof.
  split; [|by vm_compute].
  eexists. split; [apply Assign_objects|].
  intros k. rewrite lookup_union. by destruct (u !! k), (t !! k).
Qed.

Lemma keyof_single_literals (a x : atom) :
  x ∈ keyof [a] -> exists k, x = AStrLit k.
Proof. by apply keyof_literals. Qed.

Lemma NoDup_keyof_single (a : atom) : NoDup (keyof [a]).
Proof.
  rewrite keyof_single. apply NoDup_fmap_2; [|apply NoDup_atom_keys].
  by intros x y [= ->].
Qed.

(** C8. For object types [T] and [U], the keys of [Overwrite<T, U>] are
    the keys of [T], whatever keys [U] has: [keyof] gives the same literals
    for both, each once. *)
Theorem Overwrite_keys (t u : gmap string (prop ty)) :
  keyof (Overwrite (TObj t) (TObj u)) ≡ₚ keyof (TObj t)
  /\ forall k, AStrLit k ∈ keyof (Overwrite (TObj t) (TObj u))
               <-> is_Some (t !! k).
Proof.
  rewrite Overwrite_objects. unfold TObj.
  assert (H : forall k,
            AStrLit k ∈ keyof [AObj (map_imap (fun k p => Some (default p (u !! k))) t)]
            <-> is_Some (t !! k)).
  { intros k. rewrite elem_of_keyof_single. simpl. rewrite map_lookup_imap.
    destruct (t !! k); simpl; split; intros [x Hx]; by eauto. }
  split; [|done].
  apply NoDup_Permutation; try apply NoDup_keyof_single.
  intros x. split; intros Hx.
  - destruct (keyof_single_literals _ _ Hx) as [k ->].
    apply H in Hx. by apply elem_of_keyof_single.
  - destruct (keyof_single_literals _ _ Hx) as [k ->].
    apply H. by apply elem_of_keyof_single in Hx.
Qed.

(** ** Deep transforms *)

Example DeepReadonly_NestedFunctionProps :
  DeepReadonly NestedFunctionProps
  = TObj (<["first" :=
              MkProp true false
                (TObj (<["second" := MkProp true false [NumberToString]]> ∅))]> ∅).
Proof. vm_compute. reflexivity. Qed.

Example DeepRequired_NestedArrayProps :
  DeepRequired NestedArrayProps
  = TObj (<["first" :=
              required
                (TObj (<["second" :=
                           required
                             [AIface false
                                (TObj (<["name" :=
                                           required (union TString TNull)]> ∅))]]>
                         ∅))]> ∅).
Proof. vm_compute. reflexivity. Qed.

Example DeepNonNullable_NullableNestedFunctionProps :
  DeepNonNullable NullableNestedFunctionProps
  = TObj (<["first" :=
              required (TObj (<["second" := required [NumberToString]]> ∅))]> ∅).
Proof. vm_compute. reflexivity. Qed.

Lemma standard_readonly : standard cfg_readonly.
Proof. done. Qed.

Lemma standard_required : standard cfg_required.
Proof. done. Qed.

Lemma standard_non_nullable : standard cfg_non_nullable.
Proof. done. Qed.

(** C3. Each of [DeepReadonly], [DeepRequired] and [DeepNonNullable]
    distributes over the members of a union, returns a callable and whatever
    is not an object as it is, and recurses into the element type of an
    array and into the property types of a record, nowhere else.  So, in
    every type built of records, arrays, functions and primitives, the
    function types found at the end of any path of properties and array
    elements are the same, unchanged, before and after the transform. *)
Theorem deep_transforms_keep_functions :
  (recursion_scheme cfg_readonly DeepReadonly
   /\ recursion_scheme cfg_required DeepRequired
   /\ recursion_scheme cfg_non_nullable DeepNonNullable)
  /\ forall (T : ty) (path : list seg),
       plain_ty T = true ->
       functions (reach (DeepReadonly T) path) = functions (reach T path)
       /\ functions (reach (DeepRequired T) path) = functions (reach T path)
       /\ functions (reach (DeepNonNullable T) path) = functions (reach T path).
Proof.
  split.
  - split; [|split].
    + apply (recursion_scheme_ext cfg_readonly (deep_full cfg_readonly));
        [apply DeepReadonly_deep|apply deep_full_scheme].
    + apply (recursion_scheme_ext cfg_required (deep_full cfg_required));
        [apply DeepRequired_deep|apply deep_full_scheme].
    + apply (recursion_scheme_ext cfg_non_nullable (deep_full cfg_non_nullable));
        [apply DeepNonNullable_deep|apply deep_full_scheme].
  - intros T path HT.
    rewrite DeepReadonly_deep, DeepRequired_deep, DeepNonNullable_deep.
    repeat split; by apply functions_reach_deep_full.
Qed.

Lemma deep_transforms_keep_functions_witness :
  functions (reach (DeepReadonly NullableNestedFunctionProps)
               [Field "first"; Field "second"])
  = functions (reach NullableNestedFunctionProps [Field "first"; Field "second"])
  /\ functions (reach (DeepRequired NullableNestedFunctionProps)
                  [Field "first"; Field "second"])
     = functions (reach NullableNestedFunctionProps [Field "first"; Field "second"])
  /\ functions (reach (DeepNonNullable NullableNestedFunctionProps)
                  [Field "first"; Field "second"])
     = functions (reach NullableNestedFunctionProps [Field "first"; Field "second"]).
Proof.
  apply (proj2 deep_transforms_keep_functions NullableNestedFunctionProps
           [Field "first"; Field "second"]).
  vm_compute. reflexivity.
Defined.

Example functions_NullableNestedFunctionProps :
  functions (reach NullableNestedFunctionProps [Field "first"; Field "second"])
  = [NumberToString].
Proof. vm_compute. reflexivity. Qed.

(** C4, as the claim states it, fails for [DeepReadonly] of a record with
    an array-typed property.  The first application makes of [string[]]
    the interface [_DeepReadonlyArray<string>], which extends
    [ReadonlyArray<string>].  The interface is not assignable to [any[]]
    and is an object, so the second application hands it to the mapped
    type [_DeepReadonlyObject], which does not take it for an array and
    maps its members: the result is an anonymous object type with a
    read-only index signature, another type than the interface.  It lacks
    the symbol-keyed members of the array, so it is not assignable to the
    interface, and the two are not equivalent. *)
Theorem DeepReadonly_not_idempotent :
  DeepReadonly ItemsProps
  = TObj (<["items" := MkProp true false [AIface true TString]]> ∅)
  /\ DeepReadonly (DeepReadonly ItemsProps)
     = TObj (<["items" := MkProp true false [AIndexed true TString]]> ∅)
  /\ DeepReadonly (DeepReadonly ItemsProps) <> DeepReadonly ItemsProps
  /\ ~ equivalent (DeepReadonly (DeepReadonly ItemsProps))
         (DeepReadonly ItemsProps).
Proof.
  assert (H1 : DeepReadonly ItemsProps
               = TObj (<["items" := MkProp true false [AIface true TString]]> ∅))
    by (vm_compute; reflexivity).
  assert (H2 : DeepReadonly (DeepReadonly ItemsProps)
               = TObj (<["items" :=
                           MkProp true false [AIndexed true TString]]> ∅))
    by (vm_compute; reflexivity).
  split; [done|]. split; [done|]. split.
  - rewrite H2, H1. by intros [=].
  - intros [H _]. revert H. vm_compute. discriminate.
Qed.

(** C4, amended.  [DeepRequired] and [DeepNonNullable] applied twice give
    the type that one application gives, for every type, with or without
    arrays in it.  [DeepReadonly] does so for every type in which no
    array can be written to; for every type, its third application gives
    what the second gives. *)
Theorem deep_transforms_applied_twice (T : ty) :
  DeepRequired (DeepRequired T) = DeepRequired T
  /\ DeepNonNullable (DeepNonNullable T) = DeepNonNullable T
  /\ DeepReadonly (DeepReadonly (DeepReadonly T))
     = DeepReadonly (DeepReadonly T)
  /\ (forallb no_mutable_array T = true ->
      DeepReadonly (DeepReadonly T) = DeepReadonly T).
Proof.
  rewrite !DeepReadonly_deep, !DeepRequired_deep, !DeepNonNullable_deep.
  split; [|split; [|split]].
  - apply deep_full_idem; [done|by left].
  - apply deep_full_idem; [done|by left].
  - apply deep_full_idem; [done|right].
    apply no_mutable_array_deep_full.
  - intros HT. apply deep_full_idem; [done|by right].
Qed.

Lemma deep_transforms_applied_twice_witness :
  DeepRequired (DeepRequired NestedArrayProps) = DeepRequired NestedArrayProps
  /\ DeepNonNullable (DeepNonNullable NestedArrayProps)
     = DeepNonNullable NestedArrayProps
  /\ DeepReadonly (DeepReadonly (DeepReadonly NestedArrayProps))
     = DeepReadonly (DeepReadonly NestedArrayProps)
  /\ DeepReadonly (DeepReadonly NestedFunctionProps)
     = DeepReadonly NestedFunctionProps.
Proof.
  destruct (deep_transforms_applied_twice NestedArrayProps)
    as (H1 & H2 & H3 & _).
  split; [exact H1|]. split; [exact H2|]. split; [exact H3|].
  apply (proj2 (proj2 (proj2
           (deep_transforms_applied_twice NestedFunctionProps)))).
  vm_compute. reflexivity.
Defined.

Example DeepReadonly_array_twice :
  DeepReadonly
    (DeepReadonly (TArray (TObj (<["name" := required TString]> ∅))))
  = [AIndexed true (TObj (<["name" := MkProp true false TString]> ∅))].
Proof. vm_compute. reflexivity. Qed.

Example DeepReadonly_readonly_array_twice :
  DeepReadonly
    (DeepReadonly (TReadonlyArray (TObj (<["name" := required TString]> ∅))))
  = TReadonlyArray (TObj (<["name" := MkProp true false TString]> ∅)).
Proof. vm_compute. reflexivity. Qed.

(** ** [$Call] *)

Example dollar_Call_AddFn :
  dollar_Call [AddFn]
  = TObj (<["type" := required (TLit "ADD")]> (<["payload" := required TNumber]> ∅)).
Proof. vm_compute. reflexivity. Qed.



(** ** Guards *)

Lemma in_type_app (v : value) (X Y : ty) :
  in_type v (X ++ Y) = in_type v X || in_type v Y.
Proof. apply existsb_app. Qed.

Lemma isPrimitive_in_type (v : value) : isPrimitive v = in_type v Primitive.
Proof.
  destruct v as [| |b|x|s|id|sig|items|fields]; try reflexivity.
  by destruct b.
Qed.

(** C7. For a value of type [Primitive | Primitive[]], [isPrimitive]
    returns true exactly when the value is a [Primitive] and false exactly
    when it is a [Primitive[]]: the true branch narrows to [Primitive], the
    false branch to [Primitive[]]. *)
Theorem isPrimitive_narrows (v : value) :
  in_type v (union Primitive (TArray Primitive)) = true ->
  (isPrimitive v = true <-> in_type v Primitive = true)
  /\ (isPrimitive v = false <-> in_type v (TArray Primitive) = true).
Proof.
  unfold union. rewrite in_type_app, <- isPrimitive_in_type. intros Hv.
  split; [done|]. split.
  - intros E. by rewrite E in Hv.
  - intros Ha. destruct v; try done.
Qed.

Lemma isPrimitive_narrows_witness :
  (isPrimitive (VArr [VNum (S754_zero false); VStr "a"]) = true
   <-> in_type (VArr [VNum (S754_zero false); VStr "a"]) Primitive = true)
  /\ (isPrimitive (VArr [VNum (S754_zero false); VStr "a"]) = false
      <-> in_type (VArr [VNum (S754_zero false); VStr "a"]) (TArray Primitive)
          = true).
Proof.
  apply (isPrimitive_narrows (VArr [VNum (S754_zero false); VStr "a"])).
  vm_compute. reflexivity.
Defined.

(** C2. [isFalsy] returns true exactly for [false], the empty string, a
    numeric zero, [null] and [undefined], that is for the values of type
    [Falsy]; it returns true for each of [false], [''], [0], [null],
    [undefined] and false for each of [' '], [true], [{}], [[]]. *)
Theorem isFalsy_spec :
  (forall v, isFalsy v = true
             <-> v = VBool false \/ v = VStr EmptyString
                 \/ (exists s, v = VNum (S754_zero s))
                 \/ v = VNull \/ v = VUndefined)
  /\ (forall v, isFalsy v = in_type v Falsy)
  /\ (isFalsy (VBool false) = true /\ isFalsy (VStr EmptyString) = true
      /\ isFalsy (VNum (S754_zero false)) = true /\ isFalsy VNull = true
      /\ isFalsy VUndefined = true)
  /\ (isFalsy (VStr " ") = false /\ isFalsy (VBool true) = false
      /\ isFalsy (VObj ∅) = false /\ isFalsy (VArr []) = false).
Proof.
  split; [|split; [|by repeat split]].
  - intros v. split.
    + destruct v as [| |[]|[]|[]| | | |]; simpl; try done; eauto 10.
    + intros [->|[->|[[s ->]|[->| ->]]]]; done.
  - intros v. destruct v as [| |[]|[]|[]| | | |]; try reflexivity.
    + by destruct s.
    + by destruct s.
Qed.


(** * Further properties of the aliases *)

(** ** Set operators *)

Lemma SetIntersection_filter (A B : ty) :
  SetIntersection A B = List.filter (fun a => extends a B) A.
Proof.
  unfold SetIntersection, distribute. induction A as [|a A IH]; [done|].
  simpl. rewrite IH. by destruct (extends a B).
Qed.

Lemma SetDifference_filter (A B : ty) :
  SetDifference A B = List.filter (fun a => negb (extends a B)) A.
Proof. apply distribute_filter. Qed.

Lemma filter_none {A} (f : A -> bool) (l : list A) :
  (forall x, x ∈ l -> f x = false) -> List.filter f l = [].
Proof.
  induction l as [|x l IH]; intros H; [done|]. simpl.
  rewrite (H x) by (by left). apply IH. intros; apply H. by right.
Qed.

Lemma filter_filter_impl {A} (f g : A -> bool) (l : list A) :
  (forall x, f x = true -> g x = true) ->
  List.filter g (List.filter f l) = List.filter f l.
Proof. intros H. apply filter_all. intros x [_ ?]%elem_of_filter'. auto. Qed.

(** X1. [SetIntersection<A, B>] and [SetDifference<A, B>] split the members of
    [A]: together they are the members of [A], and none is in both. *)
Theorem SetIntersection_SetDifference_split (A B : ty) :
  (SetIntersection A B ++ SetDifference A B) ≡ₚ A
  /\ forall a, a ∈ SetIntersection A B -> a ∈ SetDifference A B -> False.
Proof.
  split.
  - rewrite SetIntersection_filter, SetDifference_filter.
    induction A as [|a A IH]; [done|]. simpl.
    destruct (extends a B); simpl.
    + by apply perm_skip.
    + rewrite <- Permutation_middle. by apply perm_skip.
  - intros a [_ H1]%elem_of_SetIntersection [_ H2]%elem_of_SetDifference.
    congruence.
Qed.

(** X2. Whatever the members of [A] are, [SetDifference<A, A>] is [never] and
    [SetIntersection<A, A>] is [A]. *)
Theorem SetDifference_self (A : ty) :
  SetDifference A A = never /\ SetIntersection A A = A.
Proof.
  rewrite SetIntersection_filter, SetDifference_filter. split.
  - apply filter_none. intros a Ha. by rewrite extends_elem.
  - apply filter_all. intros a Ha. by apply extends_elem.
Qed.

(** X3. Excluding [B | C] from [A] is excluding [B] and then [C]; excluding
    [B] twice is excluding it once, and nothing of what is left is
    extracted by [B]. *)
Theorem SetDifference_sequence (A B C : ty) :
  SetDifference A (union B C) = SetDifference (SetDifference A B) C
  /\ SetDifference (SetDifference A B) B = SetDifference A B
  /\ SetIntersection (SetIntersection A B) B = SetIntersection A B
  /\ SetIntersection (SetDifference A B) B = never
  /\ SetDifference (SetIntersection A B) B = never.
Proof.
  rewrite !SetIntersection_filter, !SetDifference_filter. repeat split.
  - induction A as [|a A IH]; [done|]. simpl. unfold union in *.
    rewrite extends_app.
    destruct (extends a B); simpl; [done|].
    destruct (extends a C); simpl; by rewrite IH.
  - apply filter_filter_same.
  - apply filter_filter_same.
  - apply filter_none. intros a [_ H]%elem_of_filter'.
    by apply negb_true_iff.
  - apply filter_none. intros a [_ H]%elem_of_filter'. by rewrite H.
Qed.

Lemma is_literal_union_spec (T : ty) :
  is_literal_union T = true <-> forall x, x ∈ T -> exists k, x = AStrLit k.
Proof.
  unfold is_literal_union. rewrite forallb_spec. split; intros H x Hx.
  - specialize (H x Hx). destruct x; try done. by eexists.
  - destruct (H x Hx) as [k ->]. done.
Qed.

Lemma extends_literal_intersect (k : string) (A B : ty) :
  is_literal_union A = true -> is_literal_union B = true ->
  extends (AStrLit k) (intersect A B) = true
  <-> AStrLit k ∈ A /\ AStrLit k ∈ B.
Proof.
  rewrite !is_literal_union_spec. intros HA HB. unfold extends.
  rewrite existsb_spec. split.
  - intros [b [[x [y [Hx [Hy ->]]]]%elem_of_intersect Hb]].
    destruct (HA x Hx) as [kx ->], (HB y Hy) as [ky ->].
    simpl in Hb. rewrite !andb_true_iff, !bool_decide_eq_true in Hb.
    destruct Hb as (-> & -> & _). done.
  - intros [Ha Hb]. exists (AInter [AStrLit k; AStrLit k]). split.
    + apply elem_of_intersect. exists (AStrLit k), (AStrLit k). done.
    + simpl. by rewrite !bool_decide_eq_true_2.
Qed.

(** X4. For unions of string literals, [SymmetricDifference<A, B>] holds the
    literals that are in exactly one of [A] and [B]. *)
Theorem SymmetricDifference_literals_spec (A B : ty) (k : string) :
  is_literal_union A = true -> is_literal_union B = true ->
  AStrLit k ∈ SymmetricDifference A B
  <-> (AStrLit k ∈ A /\ AStrLit k ∉ B) \/ (AStrLit k ∈ B /\ AStrLit k ∉ A).
Proof.
  intros HA HB. unfold SymmetricDifference, union.
  rewrite elem_of_SetDifference, elem_of_app, <- not_true_iff_false.
  rewrite (extends_literal_intersect k A B HA HB). tauto.
Qed.

Lemma SymmetricDifference_literals_spec_witness :
  AStrLit "1" ∈ SymmetricDifference OneTwoThree TwoThree
  <-> (AStrLit "1" ∈ OneTwoThree /\ AStrLit "1" ∉ TwoThree)
      \/ (AStrLit "1" ∈ TwoThree /\ AStrLit "1" ∉ OneTwoThree).
Proof.
  apply (SymmetricDifference_literals_spec OneTwoThree TwoThree "1");
    reflexivity.
Defined.

Lemma NonUndefined_filter (A : ty) :
  NonUndefined A = List.filter (fun a => negb (extends a TUndefined)) A.
Proof. apply distribute_filter. Qed.

Lemma NonNullable_filter (A : ty) :
  NonNullable A
  = List.filter (fun a => negb (extends a (union TNull TUndefined))) A.
Proof. apply distribute_filter. Qed.

(** X5. [$NonMaybeType] absorbs [NonUndefined]: in either order the two give
    what [$NonMaybeType] gives alone, and each of them applied twice gives
    what it gives once. *)
Theorem NonMaybeType_NonUndefined (A : ty) :
  dollar_NonMaybeType (NonUndefined A) = dollar_NonMaybeType A
  /\ NonUndefined (dollar_NonMaybeType A) = dollar_NonMaybeType A
  /\ NonUndefined (NonUndefined A) = NonUndefined A
  /\ dollar_NonMaybeType (dollar_NonMaybeType A) = dollar_NonMaybeType A.
Proof.
  unfold dollar_NonMaybeType. rewrite !NonNullable_filter, !NonUndefined_filter.
  assert (H : forall a, negb (extends a (union TNull TUndefined)) = true ->
                        negb (extends a TUndefined) = true).
  { intros a. unfold union. rewrite extends_app, !negb_true_iff.
    by intros [_ ?]%orb_false_iff. }
  repeat split.
  - rewrite filter_comm. by apply filter_filter_impl.
  - by apply filter_filter_impl.
  - apply filter_filter_same.
  - apply filter_filter_same.
Qed.

(** ** Object operators *)

Lemma flat_map_flat_map {A B C} (f : A -> list B) (g : B -> list C) (l : list A) :
  flat_map g (flat_map f l) = flat_map (fun x => flat_map g (f x)) l.
Proof.
  induction l as [|x l IH]; [done|]. simpl. by rewrite flat_map_app, IH.
Qed.

Lemma lookup_Omit_single (t : atom) (K : ty) (k : string) :
  pick_props [t] (SetDifference (keyof [t]) K) !! k
  = if extends (AStrLit k) K then None else props_of t !! k.
Proof. apply lookup_pick_difference. Qed.

(** X6. Omitting [K1] and then [K2] is omitting [K1 | K2], for every type, a
    union or not. *)
Theorem Omit_compose (T K1 K2 : ty) :
  Omit (Omit T K1) K2 = Omit T (union K1 K2).
Proof.
  unfold Omit, distribute. rewrite flat_map_flat_map.
  apply flat_map_ext. intros t.
  change (Pick [t] (SetDifference (keyof [t]) K1))
    with [AObj (pick_props [t] (SetDifference (keyof [t]) K1))].
  rewrite flat_map_single. apply (f_equal TObj). apply map_eq. intros k.
  rewrite !lookup_Omit_single. simpl props_of. rewrite lookup_Omit_single.
  unfold union. rewrite extends_app.
  by destruct (extends (AStrLit k) K1), (extends (AStrLit k) K2).
Qed.

(** X7. For an object type [T] and a union [K] of key literals, [Pick<T, K>]
    and [Omit<T, K>] split the properties of [T]: each property of [T] is
    in exactly one of them, unchanged. *)
Theorem Pick_Omit_split (t : gmap string (prop ty)) (K : ty) :
  is_literal_union K = true ->
  exists a b, Pick (TObj t) K = TObj a /\ Omit (TObj t) K = TObj b
              /\ a ∪ b = t /\ a ##ₘ b.
Proof.
  intros HK. rewrite is_literal_union_spec in HK.
  exists (pick_props (TObj t) K),
         (pick_props (TObj t) (SetDifference (keyof (TObj t)) K)).
  split; [done|]. split; [done|].
  assert (H : forall k,
            (pick_props (TObj t) K !! k = t !! k
             /\ pick_props (TObj t) (SetDifference (keyof (TObj t)) K) !! k = None)
            \/ (pick_props (TObj t) K !! k = None
                /\ pick_props (TObj t) (SetDifference (keyof (TObj t)) K) !! k
                   = t !! k)).
  { intros k. unfold TObj. rewrite lookup_Omit_single. simpl props_of.
    destruct (extends (AStrLit k) K) eqn:E.
    - left. split; [|done]. apply lookup_pick_props.
      by apply (extends_literal k K HK).
    - right. split; [|done]. apply lookup_pick_props_None. left.
      intros Hin. apply (extends_literal k K HK) in Hin. congruence. }
  split.
  - apply map_eq. intros k. rewrite lookup_union.
    destruct (H k) as [[-> ->]|[-> ->]]; by destruct (t !! k).
  - apply map_disjoint_alt. intros k. destruct (H k) as [[_ ?]|[? _]]; auto.
Qed.

Lemma Pick_Omit_split_witness :
  exists a b, Pick Props (TLit "age") = TObj a /\ Omit Props (TLit "age") = TObj b
              /\ a ∪ b
                 = <["name" := required TString]>
                     (<["age" := required TNumber]>
                        (<["visible" := required TBoolean]> ∅))
              /\ a ##ₘ b.
Proof.
  apply (Pick_Omit_split
           (<["name" := required TString]>
              (<["age" := required TNumber]>
                 (<["visible" := required TBoolean]> ∅)))
           (TLit "age")).
  reflexivity.
Defined.

(** X8. For object types [T] and [U], [Diff<T, U>] and [Intersection<T, U>]
    split the properties of [T]: [Intersection] has those whose key [U]
    has too, [Diff] the others, each with [T]'s modifiers and type. *)
Theorem Diff_Intersection_split (t u : gmap string (prop ty)) :
  exists d i, Diff (TObj t) (TObj u) = TObj d
              /\ Intersection (TObj t) (TObj u) = TObj i
              /\ d ∪ i = t /\ d ##ₘ i
              /\ forall k, is_Some (i !! k)
                           <-> is_Some (t !! k) /\ is_Some (u !! k).
Proof.
  exists (pick_props (TObj t) (SetDifference (keyof (TObj t)) (keyof (TObj u)))),
         (pick_props (TObj t) (SetIntersection (keyof (TObj t)) (keyof (TObj u)))).
  split; [done|]. split; [done|]. repeat split.
  - apply map_eq. intros k.
    rewrite lookup_union, lookup_Diff_objects, lookup_Intersection_objects.
    by destruct (u !! k), (t !! k).
  - apply map_disjoint_alt. intros k.
    rewrite lookup_Diff_objects, lookup_Intersection_objects.
    destruct (u !! k); auto.
  - rewrite lookup_Intersection_objects in H. by destruct (u !! k).
  - rewrite lookup_Intersection_objects in H.
    destruct (u !! k); [by eexists|by destruct H].
  - intros [Ht Hu]. rewrite lookup_Intersection_objects.
    by destruct Hu as [q ->].
Qed.

(** X9. [Overwrite<T, U>] is [Assign<T, U>] cut down to the keys of [T]. *)
Theorem Overwrite_from_Assign (t u : gmap string (prop ty)) :
  Intersection (Assign (TObj t) (TObj u)) (TObj t) = Overwrite (TObj t) (TObj u).
Proof.
  rewrite Assign_objects, Overwrite_objects. unfold TObj at 1.
  rewrite Intersection_single. apply (f_equal TObj). apply map_eq. intros k.
  change [AObj (u ∪ t)] with (TObj (u ∪ t)).
  rewrite lookup_Intersection_objects, map_lookup_imap, lookup_union.
  by destruct (t !! k), (u !! k).
Qed.

(** X10. [Assign] is associative on object types, as chained [Object.assign]
    is. *)
Theorem Assign_assoc (a b c : gmap string (prop ty)) :
  Assign (Assign (TObj a) (TObj b)) (TObj c)
  = Assign (TObj a) (Assign (TObj b) (TObj c)).
Proof. rewrite !Assign_objects. by rewrite (assoc_L (∪)). Qed.

(** X11. The empty object type [{}] as an argument: assigning it or to it,
    overwriting with it, and taking the difference with it change nothing;
    overwriting it and intersecting with it give [{}]. *)
Theorem empty_object_laws (t : gmap string (prop ty)) :
  Assign (TObj t) (TObj ∅) = TObj t
  /\ Assign (TObj ∅) (TObj t) = TObj t
  /\ Overwrite (TObj t) (TObj ∅) = TObj t
  /\ Overwrite (TObj ∅) (TObj t) = TObj ∅
  /\ Diff (TObj t) (TObj ∅) = TObj t
  /\ Intersection (TObj t) (TObj ∅) = TObj ∅.
Proof.
  rewrite !Assign_objects, !Overwrite_objects.
  rewrite (left_id_L ∅ (∪)), (right_id_L ∅ (∪)).
  split; [done|]. split; [done|].
  split; [|split; [|split]].
  - apply (f_equal TObj), map_eq. intros k.
    rewrite map_lookup_imap, lookup_empty. by destruct (t !! k).
  - apply (f_equal TObj), map_eq. intros k.
    by rewrite map_lookup_imap, lookup_empty.
  - apply (f_equal TObj), map_eq. intros k.
    by rewrite lookup_Diff_objects, lookup_empty.
  - unfold TObj at 1. rewrite Intersection_single.
    apply (f_equal TObj), map_eq. intros k. change [AObj t] with (TObj t).
    by rewrite lookup_Intersection_objects, lookup_empty.
Qed.

(** X12. Assigning or overwriting with the same [U] a second time changes
    nothing, and [Diff] by [U] after [Assign] of [U] gives [Diff<T, U>]:
    what [Assign] took from [U] is taken away again. *)
Theorem Assign_absorb (t u : gmap string (prop ty)) :
  Assign (Assign (TObj t) (TObj u)) (TObj u) = Assign (TObj t) (TObj u)
  /\ Overwrite (Overwrite (TObj t) (TObj u)) (TObj u)
     = Overwrite (TObj t) (TObj u)
  /\ Diff (Assign (TObj t) (TObj u)) (TObj u) = Diff (TObj t) (TObj u).
Proof.
  rewrite !Assign_objects, !Overwrite_objects. repeat split.
  - by rewrite (assoc_L (∪)), (idemp_L (∪)).
  - apply (f_equal TObj). apply map_eq. intros k. rewrite !map_lookup_imap.
    by destruct (t !! k), (u !! k).
  - apply (f_equal TObj). apply map_eq. intros k.
    rewrite !lookup_Diff_objects, lookup_union.
    by destruct (u !! k), (t !! k).
Qed.


(** ** Keys by kind of value, [Unionize], [$Values] *)

Lemma flat_map_fmap {A B C} (f : A -> B) (g : B -> list C) (l : list A) :
  flat_map g (f <$> l) = flat_map (fun x => g (f x)) l.
Proof. induction l as [|x l IH]; [done|]. simpl. by rewrite <- IH. Qed.

Lemma flat_map_singleton {A B} (f : A -> B) (l : list A) :
  flat_map (fun x => [f x]) l = f <$> l.
Proof. induction l as [|x l IH]; [done|]. simpl. by rewrite IH. Qed.

(** Indexing an object type by the keys of another, key by key. *)
Lemma index_keyof_object (m' m : gmap string (prop ty)) :
  index [AObj m'] (keyof [AObj m])
  = flat_map (fun kp => from_option p_type never (m' !! kp.1)) (map_to_list m).
Proof.
  rewrite keyof_single. unfold index, atom_keys. simpl props_of.
  rewrite !flat_map_fmap. reflexivity.
Qed.

Lemma index_mapped_object (f : atom -> ty) (m : gmap string (prop ty)) :
  index [mapped RoKeep OptKeep f (AObj m)] (keyof [AObj m])
  = flat_map (fun kp => if p_optional kp.2 then add_undefined (f (AStrLit kp.1))
                        else f (AStrLit kp.1)) (map_to_list m).
Proof.
  simpl mapped. rewrite index_keyof_object.
  apply flat_map_ext_elem. intros [k p] Hkp%elem_of_map_to_list.
  rewrite map_lookup_imap. simpl. rewrite Hkp. simpl.
  by destruct (p_optional p).
Qed.

Lemma FunctionKeys_object (m : gmap string (prop ty)) :
  FunctionKeys (TObj m)
  = flat_map (fun kp => (if extends_Function (p_type kp.2) then [AStrLit kp.1]
                         else never)
                        ++ (if p_optional kp.2 then [AUndefined] else never))
      (map_to_list m).
Proof.
  unfold FunctionKeys, distribute, TObj. rewrite flat_map_single.
  rewrite index_mapped_object.
  apply flat_map_ext_elem. intros [k p] Hkp%elem_of_map_to_list.
  rewrite index_prop. simpl. rewrite Hkp. simpl.
  destruct (extends_Function (p_type p)), (p_optional p); done.
Qed.

Lemma NonFunctionKeys_object (m : gmap string (prop ty)) :
  NonFunctionKeys (TObj m)
  = flat_map (fun kp => (if extends_Function (p_type kp.2) then never
                         else [AStrLit kp.1])
                        ++ (if p_optional kp.2 then [AUndefined] else never))
      (map_to_list m).
Proof.
  unfold NonFunctionKeys, distribute, TObj. rewrite flat_map_single.
  rewrite index_mapped_object.
  apply flat_map_ext_elem. intros [k p] Hkp%elem_of_map_to_list.
  rewrite index_prop. simpl. rewrite Hkp. simpl.
  destruct (extends_Function (p_type p)), (p_optional p); done.
Qed.

Lemma elem_of_FunctionKeys (m : gmap string (prop ty)) (a : atom) :
  a ∈ FunctionKeys (TObj m)
  <-> (exists k p, m !! k = Some p /\ extends_Function (p_type p) = true
                   /\ a = AStrLit k)
      \/ (a = AUndefined /\ exists k p, m !! k = Some p /\ p_optional p = true).
Proof.
  rewrite FunctionKeys_object, !elem_of_flat_map. split.
  - intros [[k p] [Hkp%elem_of_map_to_list [Ha|Ha]%elem_of_app]]; simpl in *.
    + destruct (extends_Function (p_type p)) eqn:E; [|by inversion Ha].
      apply list_elem_of_singleton in Ha. left. eauto.
    + destruct (p_optional p) eqn:E; [|by inversion Ha].
      apply list_elem_of_singleton in Ha. right. eauto.
  - intros [(k & p & Hk & E & ->)|(-> & k & p & Hk & E)];
      exists (k, p); (split; [by apply elem_of_map_to_list|]); simpl;
      rewrite E, elem_of_app; [left|right]; by left.
Qed.

Lemma elem_of_NonFunctionKeys (m : gmap string (prop ty)) (a : atom) :
  a ∈ NonFunctionKeys (TObj m)
  <-> (exists k p, m !! k = Some p /\ extends_Function (p_type p) = false
                   /\ a = AStrLit k)
      \/ (a = AUndefined /\ exists k p, m !! k = Some p /\ p_optional p = true).
Proof.
  rewrite NonFunctionKeys_object, !elem_of_flat_map. split.
  - intros [[k p] [Hkp%elem_of_map_to_list [Ha|Ha]%elem_of_app]]; simpl in *.
    + destruct (extends_Function (p_type p)) eqn:E; [by inversion Ha|].
      apply list_elem_of_singleton in Ha. left. eauto.
    + destruct (p_optional p) eqn:E; [|by inversion Ha].
      apply list_elem_of_singleton in Ha. right. eauto.
  - intros [(k & p & Hk & E & ->)|(-> & k & p & Hk & E)];
      exists (k, p); (split; [by apply elem_of_map_to_list|]); simpl;
      rewrite E, elem_of_app; [left|right]; by left.
Qed.

(** X13. The members of [FunctionKeys<T>] for an object type [T] are the keys
    of the properties whose type is callable as a whole; those of
    [NonFunctionKeys<T>] are the keys of the other properties; and both
    have the member [undefined] as soon as [T] has an optional property. *)
Theorem FunctionKeys_members (m : gmap string (prop ty)) (a : atom) :
  (a ∈ FunctionKeys (TObj m)
   <-> (exists k p, m !! k = Some p /\ extends_Function (p_type p) = true
                    /\ a = AStrLit k)
       \/ (a = AUndefined /\ exists k p, m !! k = Some p /\ p_optional p = true))
  /\ (a ∈ NonFunctionKeys (TObj m)
      <-> (exists k p, m !! k = Some p /\ extends_Function (p_type p) = false
                       /\ a = AStrLit k)
          \/ (a = AUndefined
              /\ exists k p, m !! k = Some p /\ p_optional p = true)).
Proof. split; [apply elem_of_FunctionKeys|apply elem_of_NonFunctionKeys]. Qed.

Lemma split_by_test {A B} (c : A -> bool) (g : A -> B) (l : list A) :
  flat_map (fun x => if c x then [g x] else []) l
  ++ flat_map (fun x => if c x then [] else [g x]) l ≡ₚ g <$> l.
Proof.
  induction l as [|x l IH]; [done|]. simpl. destruct (c x); simpl.
  - by apply perm_skip.
  - rewrite <- Permutation_middle. by apply perm_skip.
Qed.

(** X14. For an object type without optional properties, [FunctionKeys<T>] and
    [NonFunctionKeys<T>] split [keyof T]: together they are the keys of
    [T], each once, and no key is in both. *)
Theorem FunctionKeys_NonFunctionKeys_split (m : gmap string (prop ty)) :
  all_required m = true ->
  (FunctionKeys (TObj m) ++ NonFunctionKeys (TObj m)) ≡ₚ keyof (TObj m)
  /\ forall a, a ∈ FunctionKeys (TObj m) -> a ∈ NonFunctionKeys (TObj m)
               -> False.
Proof.
  intros Hreq. unfold all_required in Hreq. rewrite map_all_spec in Hreq.
  split.
  - rewrite FunctionKeys_object, NonFunctionKeys_object.
    unfold TObj. rewrite keyof_single. unfold atom_keys. simpl props_of.
    rewrite <- list_fmap_compose.
    rewrite <- (split_by_test (fun kp => extends_Function (p_type kp.2))
                  (fun kp => AStrLit kp.1) (map_to_list m)).
    f_equiv; apply reflexive_eq, flat_map_ext_elem;
      intros [k p] Hkp%elem_of_map_to_list; simpl;
      specialize (Hreq k p Hkp); apply negb_true_iff in Hreq; rewrite Hreq;
      by rewrite app_nil_r.
  - intros a H1 H2.
    apply (elem_of_FunctionKeys m a) in H1.
    apply (elem_of_NonFunctionKeys m a) in H2.
    destruct H1 as [(k & p & Hk & E & ->)|(_ & k & p & Hk & E)].
    + destruct H2 as [(k' & p' & Hk' & E' & [= <-])|([=] & _)]. congruence.
    + specialize (Hreq k p Hk). rewrite E in Hreq. discriminate.
Qed.

Lemma FunctionKeys_NonFunctionKeys_split_witness :
  (FunctionKeys MixedProps ++ NonFunctionKeys MixedProps) ≡ₚ keyof MixedProps
  /\ forall a, a ∈ FunctionKeys MixedProps -> a ∈ NonFunctionKeys MixedProps
               -> False.
Proof.
  apply (FunctionKeys_NonFunctionKeys_split
           (<["name" := required TString]>
              (<["setName" :=
                   required [AFun [MkParam false TString] None TVoid]]> ∅))).
  vm_compute. reflexivity.
Defined.

(** X15. An optional property typed by a function: its type has the member
    [undefined], so it is not callable as a whole; its key is left out of
    [FunctionKeys<T>] and is in [NonFunctionKeys<T>], and [undefined] is a
    member of both. *)
Theorem FunctionKeys_optional (m : gmap string (prop ty)) (k : string)
    (p : prop ty) :
  m !! k = Some p -> p_optional p = true -> AUndefined ∈ p_type p ->
  (AStrLit k ∉ FunctionKeys (TObj m))
  /\ AStrLit k ∈ NonFunctionKeys (TObj m)
  /\ AUndefined ∈ FunctionKeys (TObj m)
  /\ AUndefined ∈ NonFunctionKeys (TObj m).
Proof.
  intros Hk Hopt Hu.
  assert (E : extends_Function (p_type p) = false).
  { apply not_true_iff_false. intros H. unfold extends_Function in H.
    rewrite forallb_spec in H. by specialize (H _ Hu). }
  repeat split.
  - intros H. apply (elem_of_FunctionKeys m _) in H.
    destruct H as [(k' & p' & Hk' & E' & [= <-])|([=] & _)]. congruence.
  - apply (elem_of_NonFunctionKeys m _). left. eauto.
  - apply (elem_of_FunctionKeys m _). right. eauto.
  - apply (elem_of_NonFunctionKeys m _). right. eauto.
Qed.

Lemma FunctionKeys_optional_witness :
  (AStrLit "onChange" ∉ FunctionKeys (TObj OptionalHandlerProps))
  /\ AStrLit "onChange" ∈ NonFunctionKeys (TObj OptionalHandlerProps)
  /\ AUndefined ∈ FunctionKeys (TObj OptionalHandlerProps)
  /\ AUndefined ∈ NonFunctionKeys (TObj OptionalHandlerProps).
Proof.
  apply (FunctionKeys_optional OptionalHandlerProps "onChange"
           (optional [NumberToString])).
  - vm_compute. reflexivity.
  - reflexivity.
  - vm_compute. apply elem_of_cons. right. apply elem_of_cons. by left.
Defined.

Lemma Pick_one_key (m : gmap string (prop ty)) (k : string) (p : prop ty) :
  m !! k = Some p -> Pick [AObj m] [AStrLit k] = TObj {[k := p]}.
Proof.
  intros Hk. unfold Pick, pick_props. simpl. rewrite Hk. simpl.
  by rewrite insert_empty.
Qed.

(** X16. For an object type without optional properties, [Unionize<T>] has one
    member for each property of [T], the object type with that property
    alone, so as many members as [T] has properties; for [{}] it is
    [never]. *)
Theorem Unionize_required (m : gmap string (prop ty)) :
  all_required m = true ->
  Unionize (TObj m) = (fun kp => AObj {[kp.1 := kp.2]}) <$> map_to_list m
  /\ length (Unionize (TObj m)) = size m.
Proof.
  intros Hreq. unfold all_required in Hreq. rewrite map_all_spec in Hreq.
  assert (H : Unionize (TObj m)
              = (fun kp => AObj {[kp.1 := kp.2]}) <$> map_to_list m).
  { unfold Unionize, distribute, TObj. rewrite flat_map_single.
    rewrite index_mapped_object, <- flat_map_singleton.
    apply flat_map_ext_elem. intros [k p] Hkp%elem_of_map_to_list.
    specialize (Hreq k p Hkp). apply negb_true_iff in Hreq.
    simpl. rewrite Hreq. by apply Pick_one_key. }
  split; [done|]. by rewrite H, length_fmap, length_map_to_list.
Qed.

Lemma Unionize_required_witness :
  Unionize Props
  = (fun kp => AObj {[kp.1 := kp.2]})
      <$> map_to_list
            (<["name" := required TString]>
               (<["age" := required TNumber]>
                  (<["visible" := required TBoolean]> ∅)))
  /\ length (Unionize Props)
     = size (<["name" := required TString]>
               (<["age" := required TNumber]>
                  (<["visible" := required TBoolean]>
                     (∅ : gmap string (prop ty))))).
Proof.
  apply (Unionize_required
           (<["name" := required TString]>
              (<["age" := required TNumber]>
                 (<["visible" := required TBoolean]> ∅)))).
  vm_compute. reflexivity.
Defined.

(** X17. The members of [$Values<T>] for an object type [T] are the members of
    the types of its properties; [$Values<{}>] is [never]. *)
Theorem dollar_Values_members (m : gmap string (prop ty)) (a : atom) :
  (a ∈ dollar_Values (TObj m)
   <-> exists k p, m !! k = Some p /\ a ∈ p_type p)
  /\ dollar_Values (TObj ∅) = never.
Proof.
  split; [|done].
  unfold dollar_Values, TObj. rewrite index_keyof_object, elem_of_flat_map.
  split.
  - intros [[k p] [Hkp%elem_of_map_to_list Ha]]. simpl in Ha.
    rewrite Hkp in Ha. eauto.
  - intros (k & p & Hk & Ha). exists (k, p).
    split; [by apply elem_of_map_to_list|]. simpl. by rewrite Hk.
Qed.

(** ** [Exact] *)

(** X18. For an object type [A] without a property [__brand], [Exact<A>] is
    assignable to [A], [A] is not assignable to [Exact<A>], and
    [__brand] is a key of [Exact<A>]. *)
Theorem Exact_brand (m : gmap string (prop ty)) :
  m !! "__brand" = None ->
  subtype (Exact (TObj m)) (TObj m) = true
  /\ subtype (TObj m) (Exact (TObj m)) = false
  /\ AStrLit "__brand" ∈ keyof (Exact (TObj m)).
Proof.
  intros Hm. unfold Exact, TObj. rewrite intersect_single.
  change (parts_of (AObj m)) with [AObj m].
  set (b := <["__brand" := required (keyof [AObj m])]>
              (∅ : gmap string (prop ty))).
  change (parts_of (AObj b)) with [AObj b].
  change ([AObj m] ++ [AObj b]) with [AObj m; AObj b].
  assert (Hb : b !! "__brand" = Some (required (keyof [AObj m])))
    by apply lookup_insert_eq.
  split; [|split].
  - unfold subtype, extends, forallb, existsb.
    rewrite orb_false_r, andb_true_r.
    set (n := depth (AInter [AObj m; AObj b]) + depth (AObj m)).
    change (assignable (S n) (AInter [AObj m; AObj b]) (AObj m))
      with (existsb (fun s' => assignable n s' (AObj m)) [AObj m; AObj b]).
    unfold existsb. rewrite assignable_refl; [done|].
    subst n. rewrite depth_AInter. lia.
  - unfold subtype, extends, forallb, existsb.
    rewrite orb_false_r, andb_true_r.
    set (n := depth (AObj m) + depth (AInter [AObj m; AObj b])).
    change (assignable (S n) (AObj m) (AInter [AObj m; AObj b]))
      with (forallb (assignable n (AObj m)) [AObj m; AObj b]).
    unfold forallb. rewrite andb_true_r. apply andb_false_iff. right.
    assert (Hn : exists n', n = S n').
    { subst n. rewrite depth_AInter, Nat.add_succ_r. eauto. }
    destruct Hn as [n' ->].
    apply not_true_iff_false. intros H.
    change (assignable (S n') (AObj m) (AObj b))
      with (map_all (fun k q =>
                       match m !! k with
                       | Some p =>
                           implb (p_optional p) (p_optional q)
                           && forallb (fun a => existsb (assignable n' a)
                                                  (p_type q)) (p_type p)
                       | None => p_optional q
                       end) b) in H.
    rewrite map_all_spec in H. specialize (H _ _ Hb).
    rewrite Hm in H. done.
  - apply elem_of_keyof_single. simpl props_of.
    rewrite !lookup_union_with, Hb.
    by destruct (m !! "__brand").
Qed.

Lemma Exact_brand_witness :
  subtype (Exact Props) Props = true
  /\ subtype Props (Exact Props) = false
  /\ AStrLit "__brand" ∈ keyof (Exact Props).
Proof.
  apply (Exact_brand
           (<["name" := required TString]>
              (<["age" := required TNumber]>
                 (<["visible" := required TBoolean]> ∅)))).
  vm_compute. reflexivity.
Defined.

(** ** What the deep transforms establish *)

(** X19. At every depth of [DeepReadonly<T>], below no function, every array
    and every property is read-only. *)
Theorem DeepReadonly_deeply (T : ty) :
  forallb (deeply true false StripNone) (DeepReadonly T) = true.
Proof.
  rewrite DeepReadonly_deep.
  by apply (deeply_deep_full cfg_readonly true false) with (S (ty_depth T));
    [| | | |lia].
Qed.

(** X20. At every depth of [DeepRequired<T>], below no function, no
    property is optional and no property or element type has a member
    that [NonUndefined] removes. *)
Theorem DeepRequired_deeply (T : ty) :
  forallb (deeply false true StripUndefined) (DeepRequired T) = true.
Proof.
  rewrite DeepRequired_deep.
  by apply (deeply_deep_full cfg_required false true) with (S (ty_depth T));
    [| | | |lia].
Qed.

(** X21. At every depth of [DeepNonNullable<T>], below no function, no
    property is optional and no property or element type has a member
    that [NonNullable] removes. *)
Theorem DeepNonNullable_deeply (T : ty) :
  forallb (deeply false true StripNullable) (DeepNonNullable T) = true.
Proof.
  rewrite DeepNonNullable_deep.
  by apply (deeply_deep_full cfg_non_nullable false true)
    with (S (ty_depth T)); [| | | |lia].
Qed.

(** ** [$Shape] *)

Lemma Partial_object (m : gmap string (prop ty)) :
  Partial (TObj m)
  = TObj ((fun p => MkProp (p_readonly p) true (add_undefined (p_type p)))
            <$> m).
Proof. reflexivity. Qed.

Lemma elem_of_add_undefined (a : atom) (X : ty) : a ∈ X -> a ∈ add_undefined X.
Proof.
  intros Ha. unfold add_undefined. destruct (existsb _ X); [done|].
  apply elem_of_app. by left.
Qed.

(** X22. [$Shape<T>] changes nothing when it is applied again. *)
Theorem dollar_Shape_idem (T : ty) :
  dollar_Shape (dollar_Shape T) = dollar_Shape T.
Proof.
  unfold dollar_Shape, Partial, distribute. rewrite flat_map_flat_map.
  apply flat_map_ext_elem. intros t _. rewrite flat_map_single.
  assert (Hm : forall m : gmap string (prop ty),
            (fun p => MkProp (p_readonly p) true (add_undefined (p_type p)))
              <$> ((fun p => MkProp (p_readonly p) true
                               (add_undefined (p_type p))) <$> m)
            = (fun p => MkProp (p_readonly p) true (add_undefined (p_type p)))
                <$> m).
  { intros m. rewrite <- map_fmap_compose. apply map_fmap_ext.
    intros k p _. simpl. by rewrite add_undefined_idem. }
  destruct t; try done.
  - by rewrite add_undefined_idem.
  - cbn [props_of]. by rewrite Hm.
  - set (m := props_of (AInter _)). cbn [props_of]. by rewrite Hm.
Qed.

(** X23. For an object type [T], both [T] and the empty object type [{}] are
    assignable to [$Shape<T>]. *)
Theorem dollar_Shape_accepts (m : gmap string (prop ty)) :
  subtype (TObj m) (dollar_Shape (TObj m)) = true
  /\ subtype (TObj ∅) (dollar_Shape (TObj m)) = true.
Proof.
  unfold dollar_Shape. rewrite Partial_object.
  set (g := fun p : prop ty =>
              MkProp (p_readonly p) true (add_undefined (p_type p))).
  unfold subtype, extends, TObj, forallb, existsb.
  rewrite !orb_false_r, !andb_true_r. split.
  - set (n := depth (AObj m) + depth (AObj (g <$> m))).
    assert (Hn : depth (AObj m) <= n) by (subst n; lia).
    change (assignable (S n) (AObj m) (AObj (g <$> m)))
      with (map_all (fun k q =>
                       match m !! k with
                       | Some p =>
                           implb (p_optional p) (p_optional q)
                           && forallb (fun a => existsb (assignable n a)
                                                  (p_type q)) (p_type p)
                       | None => p_optional q
                       end) (g <$> m)).
    clearbody n.
    rewrite map_all_spec. intros k q Hq. rewrite lookup_fmap in Hq.
    destruct (m !! k) as [p|] eqn:Hp; [|done].
    simpl in Hq. injection Hq as <-. simpl.
    replace (implb (p_optional p) true) with true by by destruct (p_optional p).
    simpl. rewrite forallb_spec. intros a Ha. rewrite existsb_spec.
    exists a. split; [by apply elem_of_add_undefined|].
    apply assignable_refl.
    pose proof (depth_le_ty_depth _ _ Ha).
    pose proof (depth_AObj_lookup _ _ _ Hp). lia.
  - set (n := depth (AObj ∅) + depth (AObj (g <$> m))).
    change (assignable (S n) (AObj ∅) (AObj (g <$> m)))
      with (map_all (fun k q =>
                       match (∅ : gmap string (prop ty)) !! k with
                       | Some p =>
                           implb (p_optional p) (p_optional q)
                           && forallb (fun a => existsb (assignable n a)
                                                  (p_type q)) (p_type p)
                       | None => p_optional q
                       end) (g <$> m)).
    rewrite map_all_spec. intros k q Hq. rewrite lookup_fmap in Hq.
    rewrite lookup_empty.
    destruct (m !! k) as [p|]; [|done].
    simpl in Hq. by injection Hq as <-.
Qed.

Lemma strip_add_undefined (sk : strip_kind) (X : ty) :
  sk <> StripNone -> strip sk (add_undefined X) = strip sk X.
Proof.
  intros Hsk. unfold add_undefined.
  destruct (existsb is_undefined_or_void X); [done|].
  destruct sk; [done| |]; simpl.
  - rewrite !NonUndefined_filter, List.filter_app. simpl. apply app_nil_r.
  - rewrite !NonNullable_filter, List.filter_app. simpl. apply app_nil_r.
Qed.

Lemma has_void_spec (T : ty) : has_void T = true <-> AVoid ∈ T.
Proof.
  unfold has_void. rewrite existsb_spec. split.
  - intros [a [Ha E]]. by destruct a.
  - intros H. by exists AVoid.
Qed.

Lemma has_void_strip (sk : strip_kind) (X : ty) :
  has_void (strip sk X) = has_void X.
Proof.
  apply eq_true_iff_eq. rewrite !has_void_spec, strip_filter, elem_of_filter'.
  split; [by intros [H _]|]. intros H. split; [done|]. by destruct sk.
Qed.

Lemma has_void_deep (c : deep_cfg) (n : nat) (X : ty) :
  has_void (deep c n X) = has_void X.
Proof.
  destruct n as [|n]; [done|]. rewrite deep_S. unfold has_void.
  induction X as [|t X IH]; [done|]. simpl. rewrite existsb_app, IH. f_equal.
  destruct (deep_step_shape c (deep c n) t) as [t' [E [->|[Hs Ho]]]];
    rewrite E; simpl; rewrite orb_false_r; [done|].
  by destruct t', t.
Qed.

Lemma remove_undefined_fixed (sk : strip_kind) (Y : ty) :
  sk <> StripNone -> clean sk Y ->
  remove_undefined Y = Y <-> has_void Y = false.
Proof.
  intros Hsk Hc. split.
  - intros E. apply not_true_iff_false. rewrite has_void_spec. rewrite <- E.
    by intros [_ ?]%elem_of_remove_undefined.
  - intros Hv. apply (remove_undefined_clean sk); [done|done|].
    rewrite <- has_void_spec. by rewrite Hv.
Qed.

Lemma deep_full_Partial_object (c : deep_cfg) (m : gmap string (prop ty)) :
  c_opt c = OptRemove -> c_strip c <> StripNone ->
  deep_full c (Partial (TObj m)) = deep_full c (TObj m)
  <-> no_required_void m = true.
Proof.
  intros Hopt Hsk. rewrite Partial_object.
  destruct (deep_full_scheme c) as (_ & _ & _ & _ & _ & Hobj).
  rewrite !Hobj. unfold no_required_void. rewrite map_all_spec.
  assert (Hp : forall p : prop ty,
    map_prop (c_ro c) (c_opt c)
      (MkProp (p_readonly p) true (add_undefined (p_type p)))
      (deep_full c (strip (c_strip c) (add_undefined (p_type p))))
    = map_prop (c_ro c) (c_opt c) p
        (deep_full c (strip (c_strip c) (p_type p)))
    <-> p_optional p || negb (has_void (p_type p)) = true).
  { intros p. rewrite strip_add_undefined by done.
    unfold map_prop. rewrite Hopt. simpl.
    destruct (p_optional p); simpl; [done|].
    rewrite negb_true_iff, <- (has_void_strip (c_strip c)).
    rewrite <- (has_void_deep c
                  (S (ty_depth (strip (c_strip c) (p_type p))))).
    fold (deep_full c (strip (c_strip c) (p_type p))).
    rewrite <- (remove_undefined_fixed (c_strip c))
      by (try done; apply deep_clean, clean_strip).
    split; [by intros [= ->]|by intros ->]. }
  split.
  - intros E k p Hk. apply Hp.
    injection E as E. apply (f_equal (fun m' => m' !! k)) in E.
    rewrite !map_lookup_imap, lookup_fmap, Hk in E. simpl in E.
    congruence.
  - intros H. apply (f_equal TObj), map_eq. intros k.
    rewrite !map_lookup_imap, lookup_fmap.
    destruct (m !! k) as [p|] eqn:Hk; [|done]. simpl. f_equal.
    by apply Hp, (H k).
Qed.

(** X24. For an object type [T], [DeepRequired<$Shape<T>>] is
    [DeepRequired<T>] exactly when no required property of [T] has the
    member [void] in its type, and likewise for [DeepNonNullable]: [$Shape]
    makes every property optional, and from the type of an optional
    property the deep transforms take [void] away with [undefined]. *)
Theorem Deep_dollar_Shape (m : gmap string (prop ty)) :
  (DeepRequired (dollar_Shape (TObj m)) = DeepRequired (TObj m)
   <-> no_required_void m = true)
  /\ (DeepNonNullable (dollar_Shape (TObj m)) = DeepNonNullable (TObj m)
      <-> no_required_void m = true).
Proof.
  unfold dollar_Shape. rewrite !DeepRequired_deep, !DeepNonNullable_deep.
  split; by apply deep_full_Partial_object.
Qed.

Example DeepRequired_dollar_Shape_void :
  DeepRequired (dollar_Shape (TObj VoidProps))
  = TObj (<["done" := required never]> ∅)
  /\ DeepRequired (TObj VoidProps) = TObj VoidProps.
Proof. split; vm_compute; reflexivity. Qed.

(** ** [$ObjMap] *)




(** ** The fixed points of [DeepRequired] and [DeepNonNullable] *)

Lemma flat_map_id {A} (f : A -> list A) (l : list A) :
  (forall x, x ∈ l -> f x = [x]) -> flat_map f l = l.
Proof.
  induction l as [|x l IH]; intros H; [done|]. simpl.
  rewrite (H x) by (by left). simpl. f_equal. apply IH.
  intros y Hy. apply H. by right.
Qed.

Lemma settled_in_clean sk (X : ty) :
  forallb (settled_in sk) X = true -> clean sk X.
Proof.
  rewrite forallb_spec. intros H a Ha. specialize (H a Ha).
  unfold settled_in, banned in H. apply andb_true_iff in H as [H _].
  by apply negb_true_iff, negb_false_iff in H.
Qed.

Lemma settled_in_settled sk (X : ty) :
  forallb (settled_in sk) X = true -> forallb (settled sk) X = true.
Proof.
  rewrite !forallb_spec. intros H a Ha. specialize (H a Ha).
  unfold settled_in in H. by apply andb_true_iff in H as [_ H].
Qed.

Lemma settled_function sk (t : atom) :
  extends_function t = true -> settled sk t = true.
Proof. destruct t; try done. simpl. by intros ->. Qed.

Lemma settled_leaf sk (t : atom) :
  extends_object t = false -> settled sk t = true.
Proof.
  destruct t; try done. intros H. cbn [settled]. rewrite H.
  apply orb_true_r.
Qed.

Section Settled.
Variable c : deep_cfg.
Hypothesis c_array : c_readonly_array c = false.
Hypothesis c_keep : c_ro c = RoKeep.
Hypothesis c_required : c_opt c = OptRemove.

(** What such a transform gives is settled. *)
Lemma settled_deep_full (n : nat) (T : ty) :
  ty_depth T < n ->
  forallb (settled (c_strip c)) (deep_full c T) = true.
Proof.
  revert T. induction n as [|n IH]; intros T Hn; [lia|].
  rewrite deep_full_unfold, forallb_spec.
  intros x [t [Ht Hx]]%elem_of_flat_map.
  pose proof (depth_le_ty_depth _ _ Ht) as Hd.
  assert (Hrec : forall X, ty_depth X < depth t ->
            forallb (settled_in (c_strip c))
              (deep_full c (strip (c_strip c) X)) = true).
  { intros X HX. rewrite forallb_spec. intros y Hy. unfold settled_in.
    apply andb_true_iff. split.
    - apply negb_true_iff, keep_not_banned.
      revert y Hy. apply deep_clean, clean_strip.
    - revert y Hy. apply forallb_spec, IH.
      pose proof (ty_depth_strip (c_strip c) X). lia. }
  destruct (extends_function t) eqn:Ef.
  { rewrite deep_step_function in Hx by done.
    apply list_elem_of_singleton in Hx as ->. by apply settled_function. }
  destruct (extends_any_array t) eqn:Ea.
  { rewrite deep_step_any_array in Hx by done.
    apply list_elem_of_singleton in Hx as ->.
    cbn [settled]. rewrite c_array. simpl.
    pose proof (extends_object_depth t (extends_any_array_object t Ea)).
    apply Hrec. destruct (elem_type t) as [e|] eqn:Ee; simpl.
    - by apply elem_type_depth.
    - done. }
  destruct (extends_object t) eqn:Eo.
  2:{ rewrite deep_step_leaf in Hx by done.
      apply list_elem_of_singleton in Hx as ->. by apply settled_leaf. }
  destruct (object_cases t Ea Ef Eo)
    as [[e ->]|[[e ->]|[(r & e & ->)|Hna]]].
  { rewrite deep_step_readonly_array, c_required in Hx.
    apply list_elem_of_singleton in Hx as ->.
    cbn [settled map_elem]. simpl. rewrite forallb_spec.
    intros y [Hy Hv]%elem_of_remove_undefined. rewrite Hv. simpl.
    assert (He : forallb (settled_in (c_strip c))
                   (deep_full c (strip (c_strip c) e)) = true)
      by (apply Hrec; rewrite depth_AArr; lia).
    rewrite forallb_spec in He. exact (He y Hy). }
  { rewrite deep_step_readonly_iface, c_keep in Hx.
    apply list_elem_of_singleton in Hx as ->.
    cbn [settled index_ro]. simpl.
    apply Hrec. rewrite depth_AIface. lia. }
  { rewrite deep_step_indexed, c_keep in Hx.
    apply list_elem_of_singleton in Hx as ->.
    cbn [settled index_ro]. simpl.
    apply Hrec. rewrite depth_AIndexed. lia. }
  rewrite deep_step_props in Hx by done.
  apply list_elem_of_singleton in Hx as ->.
  cbn [settled]. rewrite map_all_spec. intros k q Hq.
  rewrite map_lookup_imap in Hq.
  destruct (props_of t !! k) as [p|] eqn:Ep; [|done].
  simpl in Hq. injection Hq as <-.
  unfold map_prop. rewrite c_required. cbn [apply_opt p_optional p_type].
  simpl negb. rewrite andb_true_l, forallb_spec. intros y Hy.
  assert (Hy' : y ∈ deep_full c (strip (c_strip c) (p_type p))).
  { destruct (p_optional p); [|done].
    by apply elem_of_remove_undefined in Hy as [Hy _]. }
  assert (He : forallb (settled_in (c_strip c))
                 (deep_full c (strip (c_strip c) (p_type p))) = true)
    by (apply Hrec; by eapply props_of_depth).
  rewrite forallb_spec in He. exact (He y Hy').
Qed.

(** What is settled is left as it is. *)
Lemma deep_full_fixed (n : nat) (T : ty) :
  ty_depth T < n ->
  forallb (settled (c_strip c)) T = true -> deep_full c T = T.
Proof.
  revert T. induction n as [|n IH]; intros T Hn HT; [lia|].
  rewrite deep_full_unfold. apply flat_map_id. intros t Ht.
  rewrite forallb_spec in HT. specialize (HT t Ht).
  pose proof (depth_le_ty_depth _ _ Ht) as Hd.
  assert (Hrec : forall X, ty_depth X < depth t ->
            forallb (settled_in (c_strip c)) X = true ->
            deep_full c (strip (c_strip c) X) = X).
  { intros X HX HdX.
    rewrite strip_clean by (by eapply settled_in_clean).
    apply IH; [lia|]. by eapply settled_in_settled. }
  destruct t as [| | | | | | | | | ps r o|[] e|[] e|[] e|m|ps];
    try (by apply deep_step_leaf); try done.
  - rewrite deep_step_readonly_array, c_required. cbn [settled] in HT.
    simpl in HT.
    assert (He : forallb (settled_in (c_strip c)) e = true).
    { rewrite forallb_spec in HT. apply forallb_spec. intros x Hx.
      pose proof (HT x Hx) as Hx'. by apply andb_true_iff in Hx' as [_ ?]. }
    rewrite Hrec; [|rewrite depth_AArr; lia|done]. simpl.
    do 2 f_equal. apply filter_all. intros x Hx.
    rewrite forallb_spec in HT. pose proof (HT x Hx) as Hx'.
    by apply andb_true_iff in Hx' as [? _].
  - rewrite deep_step_iface, c_array. cbn [settled] in HT. simpl in HT.
    by rewrite Hrec; [|rewrite depth_AIface; lia|].
  - rewrite deep_step_indexed, c_keep. cbn [settled] in HT. simpl in HT.
    by rewrite Hrec; [|rewrite depth_AIndexed; lia|].
  - rewrite deep_step_object, c_keep, c_required. cbn [settled] in HT.
    rewrite map_all_spec in HT. do 2 f_equal. apply map_eq. intros k.
    rewrite map_lookup_imap. destruct (m !! k) as [p|] eqn:Hp; [|done].
    simpl. f_equal. specialize (HT k p Hp).
    apply andb_true_iff in HT as [HT1 HT2].
    apply negb_true_iff in HT1.
    rewrite Hrec; [|by eapply depth_AObj_lookup|done].
    unfold map_prop. rewrite HT1. by destruct p; simpl in *; subst.
  - cbn [settled] in HT. apply orb_true_iff in HT as [HT|HT].
    + by apply deep_step_function.
    + apply deep_step_leaf. by apply negb_true_iff in HT.
Qed.

End Settled.



Lemma keep_nullable_undefined (a : atom) :
  keep StripNullable a = true -> keep StripUndefined a = true.
Proof.
  unfold keep, union. rewrite extends_app.
  by destruct (extends a TNull), (extends a TUndefined).
Qed.

Lemma settled_weaken (n : nat) (a : atom) :
  depth a < n ->
  settled StripNullable a = true -> settled StripUndefined a = true.
Proof.
  revert a. induction n as [|n IH]; intros a Hn; [lia|].
  assert (Hin : forall x, depth x < n ->
            negb (banned StripNullable x) && settled StripNullable x = true ->
            negb (banned StripUndefined x) && settled StripUndefined x
            = true).
  { intros x Hx [H1 H2]%andb_true_iff. unfold banned in *.
    apply negb_true_iff, negb_false_iff, keep_nullable_undefined in H1.
    rewrite H1. simpl. by apply IH. }
  destruct a as [| | | | | | | | | ps r o|ro e|ro e|ro e|m|ps]; try done;
    cbn [settled].
  - rewrite depth_AArr in Hn.
    intros [-> He]%andb_true_iff. simpl. rewrite forallb_spec in He.
    apply forallb_spec. intros x Hx.
    pose proof (He x Hx) as H. apply andb_true_iff in H as [-> H]. simpl.
    apply Hin; [|done]. pose proof (depth_le_ty_depth _ _ Hx). lia.
  - rewrite depth_AIface in Hn.
    intros [-> He]%andb_true_iff. simpl. rewrite forallb_spec in He.
    apply forallb_spec. intros x Hx.
    apply Hin; [|by apply He]. pose proof (depth_le_ty_depth _ _ Hx). lia.
  - rewrite depth_AIndexed in Hn.
    intros [-> He]%andb_true_iff. simpl. rewrite forallb_spec in He.
    apply forallb_spec. intros x Hx.
    apply Hin; [|by apply He]. pose proof (depth_le_ty_depth _ _ Hx). lia.
  - rewrite !map_all_spec. intros H k p Hp.
    specialize (H k p Hp). apply andb_true_iff in H as [-> H].
    rewrite andb_true_l. rewrite forallb_spec in H.
    apply forallb_spec. intros x Hx.
    apply Hin; [|by apply H].
    pose proof (depth_AObj_lookup _ _ _ Hp).
    pose proof (depth_le_ty_depth _ _ Hx). lia.
Qed.

(** X27. [DeepNonNullable] does the work of [DeepRequired]:
    [DeepRequired<DeepNonNullable<T>>] is [DeepNonNullable<T>]. *)
Theorem DeepRequired_DeepNonNullable (T : ty) :
  DeepRequired (DeepNonNullable T) = DeepNonNullable T.
Proof.
  rewrite DeepRequired_deep.
  apply (deep_full_fixed cfg_required) with (S (ty_depth (DeepNonNullable T)));
    [done|done|done|lia|].
  rewrite forallb_spec. intros a Ha.
  apply (settled_weaken (S (depth a))); [lia|].
  revert a Ha. apply forallb_spec. rewrite DeepNonNullable_deep.
  by apply (settled_deep_full cfg_non_nullable) with (S (ty_depth T));
    [| | |lia].
Qed.

(** ** The transforms and assignability *)

Lemma assignable_arrays (n : nat) r1 (e1 : ty) r2 (e2 : ty) :
  assignable (S n) (AArr r1 e1) (AArr r2 e2)
  = implb r1 r2 && forallb (fun a => existsb (assignable n a) e2) e1.
Proof. reflexivity. Qed.

Lemma assignable_iface_array (n : nat) r1 (e1 : ty) r2 (e2 : ty) :
  assignable (S n) (AIface r1 e1) (AArr r2 e2)
  = implb r1 r2 && forallb (fun a => existsb (assignable n a) e2) e1.
Proof. reflexivity. Qed.

Lemma assignable_array_iface (n : nat) r1 (e1 : ty) r2 (e2 : ty) :
  assignable (S n) (AArr r1 e1) (AIface r2 e2)
  = implb r1 r2 && forallb (fun a => existsb (assignable n a) e2) e1.
Proof. reflexivity. Qed.

Lemma assignable_objects (n : nat) (m1 m2 : gmap string (prop ty)) :
  assignable (S n) (AObj m1) (AObj m2)
  = map_all (fun k q =>
               match m1 !! k with
               | Some p =>
                   implb (p_optional p) (p_optional q)
                   && forallb (fun a => existsb (assignable n a) (p_type q))
                        (p_type p)
               | None => p_optional q
               end) m2.
Proof. reflexivity. Qed.

Lemma plain_ty_strip (sk : strip_kind) (X : ty) :
  plain_ty X = true -> plain_ty (strip sk X) = true.
Proof.
  unfold plain_ty. rewrite strip_filter, !forallb_spec.
  intros H a [Ha _]%elem_of_filter'. by apply H.
Qed.

Lemma elem_of_strip (sk : strip_kind) (X : ty) (a : atom) :
  a ∈ strip sk X -> a ∈ X.
Proof. rewrite strip_filter. by intros [Ha _]%elem_of_filter'. Qed.

Lemma elem_of_map_prop (c : deep_cfg) (p : prop ty) (Y : ty) (a : atom) :
  c_opt c = OptRemove ->
  a ∈ p_type (map_prop (c_ro c) (c_opt c) p Y) -> a ∈ Y.
Proof.
  intros ->. unfold map_prop. simpl.
  destruct (p_optional p); [|done]. by intros [Ha _]%elem_of_filter'.
Qed.

Section DeepBelow.
Variable c : deep_cfg.
Hypothesis c_array : c_readonly_array c = false.
Hypothesis c_required : c_opt c = OptRemove.

Lemma deep_full_below (n : nat) (T : ty) :
  ty_depth T < n -> plain_ty T = true ->
  forall b, b ∈ deep_full c T ->
    exists a, a ∈ T /\ assignable (S (depth b + depth a)) b a = true.
Proof.
  revert T. induction n as [|n IH]; intros T Hn HT b Hb; [lia|].
  rewrite deep_full_unfold in Hb.
  apply elem_of_flat_map in Hb as [t [Ht Hb]].
  exists t. split; [done|].
  pose proof (depth_le_ty_depth _ _ Ht) as Hd.
  unfold plain_ty in HT. rewrite forallb_spec in HT. specialize (HT t Ht).
  assert (Hsub : forall (X Y : ty) (N : nat),
            plain_ty X = true -> ty_depth X < depth t ->
            (forall y, y ∈ Y -> y ∈ deep_full c (strip (c_strip c) X)) ->
            ty_depth Y + ty_depth X < N ->
            forallb (fun y => existsb (assignable N y) X) Y = true).
  { intros X Y N HX HdX HY HN. rewrite forallb_spec. intros y Hy.
    pose proof (ty_depth_strip (c_strip c) X) as Hs.
    destruct (IH (strip (c_strip c) X)) with (b := y) as (x & Hx & Hyx);
      [lia|by apply plain_ty_strip|by apply HY|].
    apply elem_of_strip in Hx. rewrite existsb_spec. exists x.
    split; [done|]. rewrite <- Hyx. apply assignable_stable; [|lia].
    pose proof (depth_le_ty_depth _ _ Hy).
    pose proof (depth_le_ty_depth _ _ Hx). lia. }
  destruct t as [| | | | | | | | | ps r o|[] e|ro e|ro e|m|ps]; try done;
    try (rewrite deep_step_leaf in Hb by done;
         apply list_elem_of_singleton in Hb as ->;
         apply assignable_refl; lia).
  - rewrite deep_step_function in Hb by done.
    apply list_elem_of_singleton in Hb as ->. apply assignable_refl. lia.
  - rewrite deep_step_readonly_array in Hb.
    apply list_elem_of_singleton in Hb as ->.
    rewrite assignable_arrays. simpl implb.
    rewrite andb_true_l. apply Hsub.
    + done.
    + rewrite depth_AArr. lia.
    + rewrite c_required. simpl. by intros y [Hy _]%elem_of_filter'.
    + rewrite !depth_AArr. lia.
  - rewrite deep_step_array, c_array in Hb.
    apply list_elem_of_singleton in Hb as ->.
    rewrite assignable_iface_array. simpl implb.
    rewrite andb_true_l. apply Hsub.
    + done.
    + rewrite depth_AArr. lia.
    + done.
    + rewrite depth_AArr, depth_AIface. lia.
  - rewrite deep_step_object in Hb.
    apply list_elem_of_singleton in Hb as ->.
    set (m' := map_imap _ m).
    rewrite assignable_objects, map_all_spec. intros k q Hq.
    assert (Hq' : m' !! k
                  = Some (map_prop (c_ro c) (c_opt c) q
                            (deep_full c (strip (c_strip c) (p_type q))))).
    { unfold m'. by rewrite map_lookup_imap, Hq. }
    rewrite Hq'. cbn [map_prop p_optional]. rewrite c_required. simpl implb.
    rewrite andb_true_l. cbn [plain] in HT. rewrite map_all_spec in HT.
    apply Hsub.
    + by apply (HT k).
    + by eapply depth_AObj_lookup.
    + intros y Hy. eapply elem_of_map_prop; [done|].
      unfold map_prop. by rewrite c_required.
    + pose proof (depth_AObj_lookup _ _ _ Hq).
      pose proof (depth_AObj_lookup _ _ _ Hq') as Hd'.
      rewrite c_required in Hd'. lia.
Qed.

Lemma subtype_deep_full (T : ty) :
  plain_ty T = true -> subtype (deep_full c T) T = true.
Proof.
  intros HT. unfold subtype. rewrite forallb_spec. intros b Hb.
  destruct (deep_full_below (S (ty_depth T)) T) with (b := b)
    as (a & Ha & Hba); [lia|done|done|].
  unfold extends. rewrite existsb_spec. eauto.
Qed.

End DeepBelow.

(** X28. For a type [T] built of records, arrays, functions and
    primitives, [DeepRequired<T>] and [DeepNonNullable<T>] are assignable to
    [T]. *)
Theorem Deep_assignable_to_argument (T : ty) :
  plain_ty T = true ->
  subtype (DeepRequired T) T = true /\ subtype (DeepNonNullable T) T = true.
Proof.
  intros HT. rewrite DeepRequired_deep, DeepNonNullable_deep.
  split; by apply subtype_deep_full.
Qed.

Lemma Deep_assignable_to_argument_witness :
  subtype (DeepRequired NestedArrayProps) NestedArrayProps = true
  /\ subtype (DeepNonNullable NestedArrayProps) NestedArrayProps = true.
Proof.
  apply (Deep_assignable_to_argument NestedArrayProps).
  vm_compute. reflexivity.
Defined.

Lemma deep_full_above (n : nat) (T : ty) :
  ty_depth T < n -> plain_ty T = true ->
  forall a, a ∈ T ->
    exists b, b ∈ deep_full cfg_readonly T
              /\ assignable (S (depth a + depth b)) a b = true.
Proof.
  revert T. induction n as [|n IH]; intros T Hn HT t Ht; [lia|].
  pose proof (depth_le_ty_depth _ _ Ht) as Hd.
  unfold plain_ty in HT. rewrite forallb_spec in HT. specialize (HT t Ht).
  assert (Hstep : forall b, deep_step cfg_readonly (deep_full cfg_readonly) t = [b] ->
            assignable (S (depth t + depth b)) t b = true ->
            exists b, b ∈ deep_full cfg_readonly T
                      /\ assignable (S (depth t + depth b)) t b = true).
  { intros b Hb Htb. exists b. split; [|done].
    rewrite deep_full_unfold. apply elem_of_flat_map. exists t.
    split; [done|]. rewrite Hb. by left. }
  assert (Hsub : forall (X Y : ty) (N : nat),
            plain_ty X = true -> ty_depth X < depth t ->
            (forall y, y ∈ deep_full cfg_readonly X -> y ∈ Y) ->
            ty_depth X + ty_depth Y < N ->
            forallb (fun x => existsb (assignable N x) Y) X = true).
  { intros X Y N HX HdX HY HN. rewrite forallb_spec. intros x Hx.
    destruct (IH X) with (a := x) as (y & Hy & Hxy); [lia|done|done|].
    apply HY in Hy. rewrite existsb_spec. exists y.
    split; [done|]. rewrite <- Hxy. apply assignable_stable; [|lia].
    pose proof (depth_le_ty_depth _ _ Hy).
    pose proof (depth_le_ty_depth _ _ Hx). lia. }
  destruct t as [| | | | | | | | | ps r o|[] e|ro e|ro e|m|ps]; try done;
    try (eapply Hstep; [by apply deep_step_leaf|apply assignable_refl; lia]).
  - eapply Hstep; [by apply deep_step_function|apply assignable_refl; lia].
  - eapply Hstep; [apply deep_step_readonly_array|].
    rewrite assignable_arrays. simpl implb. rewrite andb_true_l.
    apply Hsub; [done|rewrite depth_AArr; lia|done|rewrite !depth_AArr; lia].
  - eapply Hstep; [apply deep_step_array|].
    rewrite assignable_array_iface. simpl implb. rewrite andb_true_l.
    apply Hsub; [done|rewrite depth_AArr; lia|done|].
    rewrite depth_AArr, depth_AIface. lia.
  - eapply Hstep; [apply deep_step_object|].
    set (m' := map_imap _ m).
    rewrite assignable_objects, map_all_spec. intros k q' Hq'.
    pose proof (depth_AObj_lookup _ _ _ Hq') as Hd'.
    unfold m' in Hq'. rewrite map_lookup_imap in Hq'.
    destruct (m !! k) as [p|] eqn:Hp; [|done].
    pose proof (depth_AObj_lookup _ _ _ Hp) as Hdp.
    assert (Hq2 : q' = map_prop RoAdd OptKeep p
                         (deep_full cfg_readonly (p_type p))).
    { simpl in Hq'. by injection Hq' as <-. }
    clear Hq'.
    cbn [plain] in HT. rewrite map_all_spec in HT. specialize (HT k p Hp).
    apply andb_true_iff. split.
    + rewrite Hq2. simpl. by destruct (p_optional p).
    + apply Hsub; [done|done| |lia].
      intros y Hy. rewrite Hq2. simpl.
      destruct (p_optional p); [by apply elem_of_add_undefined|done].
Qed.

(** X29. A type [T] built of records, arrays, functions and primitives is
    assignable to [DeepReadonly<T>]. *)
Theorem argument_assignable_to_DeepReadonly (T : ty) :
  plain_ty T = true -> subtype T (DeepReadonly T) = true.
Proof.
  intros HT. rewrite DeepReadonly_deep. unfold subtype.
  rewrite forallb_spec. intros a Ha.
  destruct (deep_full_above (S (ty_depth T)) T) with (a := a)
    as (b & Hb & Hab); [lia|done|done|].
  unfold extends. rewrite existsb_spec. eauto.
Qed.

Lemma argument_assignable_to_DeepReadonly_witness :
  subtype NestedArrayProps (DeepReadonly NestedArrayProps) = true.
Proof.
  apply (argument_assignable_to_DeepReadonly NestedArrayProps).
  vm_compute. reflexivity.
Defined.
